(** * Liftoff: lexer, for-loop lowering and tree-walking evaluator

    A shallow embedding of the Python sources
    [parse/tokens.py], [parse/lexer.py], [parse/nodes.py], [parse/parser.py]
    (the lowering of C-style [for] loops), [runtime/errors.py],
    [runtime/builtins.py] and [runtime/interpreter.py], with the properties
    the specification states about them. *)

From Stdlib Require Import ZArith Ascii String.
From stdpp Require Import base option list gmap strings.

Set Warnings "-register-all".
Local Open Scope string_scope.

(** ** parse/tokens.py and parse/lexer.py *)

Module Lexer.

Inductive TokenKind :=
| BOOL_LIT | FLOAT_LIT | STR_LIT | INT_LIT | NULL_LIT
| COMMA | COLON | EQ | LEFT_BRACE | LEFT_PAREN | LEFT_SQUARE_BRACKET
| RIGHT_BRACE | RIGHT_PAREN | RIGHT_SQUARE_BRACKET | SEMICOLON
| LINE_COMMENT_START | MULTILINE_COMMENT_START | MULTILINE_COMMENT_END
| ATTR_ACCESS | IDENTIFIER
| BREAK | CATCH | CONTINUE | ELSE | FN | FOR | IF | IN | LET | RETURN | TRY
| WHILE
| EOF.

Record Token := mkToken
  { tok_kind : TokenKind; tok_val : string; tok_line : nat; tok_col : nat }.

Definition KEYWORDS (word : string) : option TokenKind :=
  if String.eqb word "break" then Some BREAK
  else if String.eqb word "catch" then Some CATCH
  else if String.eqb word "continue" then Some CONTINUE
  else if String.eqb word "else" then Some ELSE
  else if String.eqb word "fn" then Some FN
  else if String.eqb word "for" then Some FOR
  else if String.eqb word "if" then Some IF
  else if String.eqb word "in" then Some IN
  else if String.eqb word "let" then Some LET
  else if String.eqb word "return" then Some RETURN
  else if String.eqb word "try" then Some TRY
  else if String.eqb word "while" then Some WHILE
  else None.

Definition SYNTAX (c : ascii) : option TokenKind :=
  if Ascii.eqb c "," then Some COMMA
  else if Ascii.eqb c ":" then Some COLON
  else if Ascii.eqb c "=" then Some EQ
  else if Ascii.eqb c "{" then Some LEFT_BRACE
  else if Ascii.eqb c "}" then Some RIGHT_BRACE
  else if Ascii.eqb c "(" then Some LEFT_PAREN
  else if Ascii.eqb c ")" then Some RIGHT_PAREN
  else if Ascii.eqb c "[" then Some LEFT_SQUARE_BRACKET
  else if Ascii.eqb c "]" then Some RIGHT_SQUARE_BRACKET
  else if Ascii.eqb c ";" then Some SEMICOLON
  else None.

(** Characters are the code points below 256; the classes are those of
    Python's [str.isspace], [str.isdigit], [str.isalpha] and [str.isalnum]
    on that range. *)

Definition between (lo hi n : nat) : bool := (lo <=? n)%nat && (n <=? hi)%nat.

Definition isspace (c : ascii) : bool :=
  let n := nat_of_ascii c in
  between 9 13 n || between 28 32 n || (n =? 133)%nat || (n =? 160)%nat.

Definition isdigit (c : ascii) : bool :=
  let n := nat_of_ascii c in
  between 48 57 n || (n =? 178)%nat || (n =? 179)%nat || (n =? 185)%nat.

Definition isalpha (c : ascii) : bool :=
  let n := nat_of_ascii c in
  between 65 90 n || between 97 122 n
  || (n =? 170)%nat || (n =? 181)%nat || (n =? 186)%nat
  || between 192 214 n || between 216 246 n || between 248 255 n.

Definition isalnum (c : ascii) : bool :=
  let n := nat_of_ascii c in
  isalpha c || isdigit c || between 188 190 n.

Definition is_word_char (c : ascii) : bool := isalnum c || Ascii.eqb c "_".

Definition dquote : ascii := "034".
Definition backslash : ascii := "092".
Definition newline : ascii := "010".

(** [LexerState] also stands for the three mutable fields of the [Lexer]
    object; [_save] and [_restore] copy them. *)
Record LexerState := mkState { line : nat; col : nat; pos : nat }.

Inductive error :=
| SyntaxError (msg : string) (line col : nat)
| InternalError (msg : string).

(** The outcome of a lexer method: a value and the new state, an exception,
    or a loop that was cut off by the fuel of the model. *)
Inductive res (A : Type) :=
| Done (a : A) (s : LexerState)
| Raise (e : error)
| OutOfFuel.
Arguments Done {A} a s.
Arguments Raise {A} e.
Arguments OutOfFuel {A}.

Definition bind {A B} (m : res A) (k : A -> LexerState -> res B) : res B :=
  match m with
  | Done a s => k a s
  | Raise e => Raise e
  | OutOfFuel => OutOfFuel
  end.

Notation "'let*' ( x , s ) := m 'in' k" := (bind m (fun x s => k))
  (at level 10, x pattern, s name, m at level 100, k at level 200).

Section WithSource.

Variable _src : string.

Definition _is_done (s : LexerState) : bool :=
  (String.length _src <=? pos s)%nat.

(** [String.get] is [None] exactly when [_is_done] holds. *)
Definition _next (s : LexerState) : res ascii :=
  match String.get (pos s) _src with
  | None => Raise (InternalError "lexer: next called on finished lexer")
  | Some c =>
      if Ascii.eqb c newline
      then Done c (mkState (S (line s)) 1 (S (pos s)))
      else Done c (mkState (line s) (S (col s)) (S (pos s)))
  end.

Definition _ignore := _next.

Definition _peek (s : LexerState) : res ascii :=
  let init_state := s in
  let* (c, _) := _next s in Done c init_state.

Fixpoint _accept_run (fuel : nat) (pred : ascii -> bool) (s : LexerState)
  : res string :=
  match fuel with
  | O => OutOfFuel
  | S fuel =>
      if _is_done s then Done EmptyString s
      else
        let* (c, s) := _peek s in
        if pred c then
          let* (_, s) := _next s in
          let* (chars, s) := _accept_run fuel pred s in
          Done (String c chars) s
        else Done EmptyString s
  end.

Definition _lex_identifier (fuel : nat) (s : LexerState) : res Token :=
  let '(line, col) := (line s, col s) in
  let* (word, s) := _accept_run fuel is_word_char s in
  match KEYWORDS word with
  | Some kind => Done (mkToken kind word line col) s
  | None =>
      if String.eqb word "true" || String.eqb word "false"
      then Done (mkToken BOOL_LIT word line col) s
      else if String.eqb word "null"
      then Done (mkToken NULL_LIT word line col) s
      else Done (mkToken IDENTIFIER word line col) s
  end.

(** The loop of [_lex_multiline_comment]; its condition is
    [(not done and c1 != "*") or c2 != "/"]. *)
Fixpoint multiline_comment_loop (fuel : nat) (c1 c2 : ascii) (s : LexerState)
  : res (ascii * ascii) :=
  match fuel with
  | O => OutOfFuel
  | S fuel =>
      if (negb (_is_done s) && negb (Ascii.eqb c1 "*"))
         || negb (Ascii.eqb c2 "/")
      then
        let* (c, s) := _next s in
        multiline_comment_loop fuel c2 c s
      else Done (c1, c2) s
  end.

Definition _lex_multiline_comment (fuel : nat) (s : LexerState) : res unit :=
  let '(line, col) := (line s, col s) in
  let* (c1, s) := _next s in
  let* (c2, s) := _next s in
  let* (cs, s) := multiline_comment_loop fuel c1 c2 s in
  if negb (Ascii.eqb (fst cs) "*") || negb (Ascii.eqb (snd cs) "/")
  then Raise (SyntaxError "unclosed multiline comment" line col)
  else Done tt s.

Fixpoint _lex_line_comment (fuel : nat) (s : LexerState) : res unit :=
  match fuel with
  | O => OutOfFuel
  | S fuel =>
      if _is_done s then Done tt s
      else
        let* (c, s) := _next s in
        if negb (Ascii.eqb c newline) then _lex_line_comment fuel s
        else Done tt s
  end.

Definition _lex_num_lit (fuel : nat) (s : LexerState) : res Token :=
  let '(line, col) := (line s, col s) in
  let* (whole, s) := _accept_run fuel isdigit s in
  let* (c, s) := _peek s in
  if Ascii.eqb c "." then
    let* (_, s) := _ignore s in
    let* (frac, s) := _accept_run fuel isdigit s in
    Done (mkToken FLOAT_LIT (whole ++ "." ++ frac) line col) s
  else Done (mkToken INT_LIT whole line col) s.

(** The loop of [_lex_str_lit]; it returns [(in_escape, found_close)]. *)
Fixpoint str_lit_loop (fuel : nat) (in_escape : bool) (s : LexerState)
  : res (bool * bool) :=
  match fuel with
  | O => OutOfFuel
  | S fuel =>
      if _is_done s then Done (in_escape, false) s
      else
        let* (c, s) := _next s in
        if in_escape then str_lit_loop fuel false s
        else if Ascii.eqb c backslash then str_lit_loop fuel true s
        else if Ascii.eqb c dquote then Done (in_escape, true) s
        else str_lit_loop fuel in_escape s
  end.

Definition _lex_str_lit (fuel : nat) (s : LexerState) : res Token :=
  let '(line, col, init_pos) := (line s, col s, pos s) in
  let* (_, s) := _ignore s in
  let* (flags, s) := str_lit_loop fuel false s in
  let '(in_escape, found_close) := flags in
  if negb found_close then
    Raise (SyntaxError "unclosed string literal" line col)
  else if in_escape then
    Raise (SyntaxError
             "unexpected escape character at end of string literal" line col)
  else
    Done (mkToken STR_LIT (substring init_pos (pos s - init_pos) _src)
            line col) s.

Fixpoint _lex_any (fuel : nat) (s : LexerState) : res (option Token) :=
  match fuel with
  | O => OutOfFuel
  | S fuel =>
      let* (_, s) := _accept_run (S fuel) isspace s in
      if _is_done s then Done None s
      else
        let '(line, col) := (line s, col s) in
        let backup := s in
        let* (c, s) := _next s in
        if isalpha c || Ascii.eqb c "_" then
          let* (t, s) := _lex_identifier (S fuel) backup in Done (Some t) s
        else match SYNTAX c with
        | Some kind => Done (Some (mkToken kind (String c EmptyString) line col)) s
        | None =>
        if Ascii.eqb c "/" then
          if _is_done s then
            Raise (SyntaxError "unexpected character '/'" line col)
          else
            let* (nxt, s) := _peek s in
            let* (_, s) :=
              if Ascii.eqb nxt "*" then _lex_multiline_comment (S fuel) s
              else if Ascii.eqb nxt "/" then _lex_line_comment (S fuel) s
              else Raise (SyntaxError "unexpected character '/'" line col) in
            if _is_done s then Done None s else _lex_any fuel s
        else if Ascii.eqb c "." then
          if _is_done s then
            Raise (SyntaxError "unexpected character '.'" line col)
          else
            let* (p, s) := _peek s in
            if isalpha p || Ascii.eqb p "_" then
              let* (attr, s) := _accept_run (S fuel) is_word_char s in
              Done (Some (mkToken ATTR_ACCESS ("." ++ attr) line col)) s
            else
              let* (t, s) := _lex_num_lit (S fuel) backup in Done (Some t) s
        else if Ascii.eqb c dquote then
          let* (t, s) := _lex_str_lit (S fuel) backup in Done (Some t) s
        else if isdigit c then
          let* (t, s) := _lex_num_lit (S fuel) backup in Done (Some t) s
        else
          Raise (SyntaxError ("unexpected character '" ++ String c "'")
                   line col)
        end
  end.

(** The [while tok := self._lex_any()] loop of [lex]. *)
Fixpoint lex_loop (fuel : nat) (s : LexerState) : res (list Token) :=
  match fuel with
  | O => OutOfFuel
  | S fuel =>
      let* (tok, s) := _lex_any (S (String.length _src)) s in
      match tok with
      | None => Done [mkToken EOF EmptyString (line s) (col s)] s
      | Some tok =>
          let* (tokens, s) := lex_loop fuel s in Done (tok :: tokens) s
      end
  end.

End WithSource.

Definition _reset : LexerState := mkState 1 1 0.

(** Every iteration of a loop consumes a character, so the length of the
    source (plus one) is enough fuel for each of them. *)
Definition lex (src : string) : res (list Token) :=
  lex_loop src (S (String.length src)) _reset.

End Lexer.

(** ** parse/nodes.py

    The nodes without their [line] and [col], which only feed the text of
    error messages.  An expression in statement position is [ExprStmt]. *)

Local Open Scope list_scope.

Module Nodes.

(** A Python float, as its IEEE-754 binary64 bit pattern. *)
Definition float64 := Z.

Inductive ExprNode :=
| CallExpr (callee : ExprNode) (args : list ExprNode)
| AttrAccessExpr (obj : ExprNode) (attr_name : string)
| AttrAssignmentExpr (obj : ExprNode) (attr_name : string) (val : ExprNode)
| ItemAccessExpr (obj key : ExprNode)
| ItemAssignmentExpr (obj key val : ExprNode)
| BoolLitExpr (val : bool)
| FloatLitExpr (val : float64)
| IntLitExpr (val : Z)
| StrLitExpr (val : string)
| NullLitExpr
| ListLitExpr (values : list ExprNode)
| DictLitExpr (entries : list (ExprNode * ExprNode))
| AssignmentExpr (name : string) (val : ExprNode)
| AccessExpr (name : string).

(** The dataclass fields are not checked when a node is built, and
    [_rewrite_continue_stmts] builds [TryStmt] nodes whose last two fields
    hold values of the other field's type; [attr] is what such a field can
    hold: [None], a string or a node. *)
Inductive StmtNode :=
| BlockStmt (stmts : list StmtNode)
| VarDeclStmt (var_name : string) (val : ExprNode)
| IfStmt (cond : ExprNode) (if_branch : StmtNode)
    (else_branch : option StmtNode)
| ReturnStmt (return_val : option ExprNode)
| WhileLoopStmt (cond : ExprNode) (body_block : StmtNode)
| IteratorBasedForLoopStmt (iterator_var_binding_name : string)
    (expr : ExprNode) (body_block : StmtNode)
| BreakStmt
| ContinueStmt
| TryStmt (try_block : StmtNode) (catch_block : attr)
    (err_var_binding_name : attr)
| ExprStmt (expr : ExprNode)
with attr :=
| ANone
| AStr (s : string)
| ANode (node : StmtNode).

Record FnDefinition := mkFn
  { fn_name : string; param_names : list string; body_block : StmtNode }.

Inductive TopLevelNode :=
| TopFn (decl : FnDefinition)
| TopStmt (stmt : StmtNode).

(** The truth value Python gives a field in [if field:]. *)
Definition attr_truthy (a : attr) : bool :=
  match a with
  | ANone => false
  | AStr s => negb (String.eqb s EmptyString)
  | ANode _ => true
  end.

(** [a == name] for a string [name]: a node never equals a string. *)
Definition attr_eqb (a : attr) (name : string) : bool :=
  match a with
  | AStr s => String.eqb s name
  | _ => false
  end.

End Nodes.

(** ** parse/parser.py: the lowering of C-style for loops *)

Module Parser.
Import Nodes.

(** [nodes.TryStmt(line, col, try_block, err_var_binding_name, catch_block)]
    in the source passes the last two arguments in this order, whereas the
    fields of the dataclass are [try_block, catch_block,
    err_var_binding_name]. *)
Fixpoint _rewrite_continue_stmts (stmt : StmtNode) (post_expr : ExprNode)
  : StmtNode :=
  match stmt with
  | BlockStmt stmts =>
      BlockStmt (map (fun stmt => _rewrite_continue_stmts stmt post_expr) stmts)
  | IfStmt cond if_branch else_branch =>
      IfStmt cond (_rewrite_continue_stmts if_branch post_expr)
        (match else_branch with
         | Some e => Some (_rewrite_continue_stmts e post_expr)
         | None => None
         end)
  | TryStmt try_block catch_block err_var_binding_name =>
      TryStmt (_rewrite_continue_stmts try_block post_expr)
        err_var_binding_name
        (match catch_block with
         | ANode b => ANode (_rewrite_continue_stmts b post_expr)
         | other => other
         end)
  | ContinueStmt => BlockStmt [ExprStmt post_expr; ContinueStmt]
  | other => other
  end.

Definition is_continue (s : StmtNode) : bool :=
  match s with ContinueStmt => true | _ => false end.

(** [_parse_for_loop_cond_expr]: an absent condition is the literal [true]. *)
Definition _parse_for_loop_cond_expr (cond : option ExprNode) : ExprNode :=
  match cond with
  | None => BoolLitExpr true
  | Some e => e
  end.

(** "add trailing continue statement so post expr is added at the end":
    the statements of the body after the [if] that appends a [continue] to
    a body that is not empty and does not end in one. *)
Definition add_trailing_continue (stmts : list StmtNode) : list StmtNode :=
  match last stmts with
  | Some l => if negb (is_continue l) then stmts ++ [ContinueStmt] else stmts
  | None => stmts
  end.

(** [_parse_for_loop_stmt], from the point where the initializer, the
    condition, the post expression and the body have been parsed. *)
Definition _parse_for_loop_stmt (init_stmt : option StmtNode)
    (cond_expr : ExprNode) (post_expr : option ExprNode)
    (loop_body : list StmtNode) : StmtNode :=
  let rewritten_loop_body :=
    match post_expr with
    | Some post_expr =>
        _rewrite_continue_stmts (BlockStmt (add_trailing_continue loop_body))
          post_expr
    | None => BlockStmt loop_body
    end in
  let stmts := match init_stmt with Some i => [i] | None => [] end in
  BlockStmt (stmts ++ [WhileLoopStmt cond_expr rewritten_loop_body]).

End Parser.

(** ** runtime/errors.py, common/errors.py and the values of the runtime *)

Module Runtime.
Import Nodes.

(** Which [raise RuntimeError(...)] of the interpreter produced the error;
    the text of the message is not modelled. *)
Inductive RuntimeErrorMsg :=
| undefined_variable (name : string)
| cannot_assign_to_undeclared_variable (name : string)
| cannot_redeclare_variable_in_same_scope (name : string)
| wrong_arg_count (fn : string) (want got : nat)
| cannot_iterate_over_value
| cannot_call_fn_before_it_is_defined
| error_calling
| cannot_call_non_callable_value
| cannot_access_attribute (attr_name : string)
| cannot_set_attribute (attr_name : string)
| cannot_access_item
| cannot_assign_item.

(** The exceptions that are not sentinels: [RuntimeError], [InternalError]
    and any other Python exception, by the name of its class. *)
Inductive Exception :=
| RuntimeError (msg : RuntimeErrorMsg)
| InternalError (msg : string)
| PyException (cls : string).

(** A [Var] object is a name and a mutable [val]; the model keeps the
    mutable part in the store, under the address [cell], so that the copies
    of a stack share it as the Python lists share the [Var] objects. *)
Record Var := mkVar { name : attr; cell : nat }.

Record RuntimeEnv := mkEnv
  { _stack : list Var;
    _stack_offsets : list nat;
    _decl_variables_in_scope : list (gset string) }.

(** Runtime values.  [VObj] is any other object of the host (a list, a
    dict, a range, a bound method, ...), by identity; [VBuiltin] is a
    function of the host, by name; [VFn] is the closure [compiled] that
    [_compile_fn] returns; [fn_prototype] is the module-level marker. *)
Inductive val :=
| VNone
| VBool (b : bool)
| VInt (z : Z)
| VFloat (f : float64)
| VStr (s : string)
| VObj (o : nat)
| VExc (e : Exception)
| VBuiltin (name : string)
| VFn (decl : FnDefinition) (captured_env : RuntimeEnv)
| fn_prototype.

Inductive exn :=
| Break
| Continue
| Return (val : val)
| Exc (e : Exception).

Inductive result (A : Type) :=
| Ok (a : A)
| Raise (x : exn).
Arguments Ok {A} a.
Arguments Raise {A} x.

(** What an operation of the host returns: a value, or an exception of the
    class named. *)
Inductive host_result (A : Type) :=
| HOk (a : A)
| HRaise (cls : string).
Arguments HOk {A} a.
Arguments HRaise {A} cls.

(** The host: its heap of objects (which also stands for its input and
    output) and the Python operations the interpreter applies to values.
    They do not reach the [Var] objects of the interpreter and do not call
    closures back. *)
Class Host := {
  heap : Type;
  obj_truthy : nat -> heap -> bool;
  obj_callable : nat -> heap -> bool;
  py_call : val -> list val -> heap -> host_result val * heap;
  py_getattr : val -> string -> heap -> host_result val * heap;
  py_setattr : val -> string -> val -> heap -> host_result unit * heap;
  py_getitem : val -> val -> heap -> host_result val * heap;
  py_setitem : val -> val -> val -> heap -> host_result unit * heap;
  py_iter : val -> heap -> host_result val * heap;
  py_next : val -> heap -> host_result (option val) * heap;
  py_list : list val -> heap -> val * heap;
  py_dict : heap -> val * heap;
}.

(** [bool(v)]: zero, the empty string and [None] are false; [obj_truthy]
    decides for the objects of the host. *)
Definition truth (obj_truthy : nat -> bool) (v : val) : bool :=
  match v with
  | VNone => false
  | VBool b => b
  | VInt z => negb (z =? 0)%Z
  | VFloat f => negb (f mod 2 ^ 63 =? 0)%Z
  | VStr s => negb (String.eqb s EmptyString)
  | VObj o => obj_truthy o
  | VExc _ | VBuiltin _ | VFn _ _ | fn_prototype => true
  end.

Definition truthy `{Host} (v : val) (h : heap) : bool :=
  truth (fun o => obj_truthy o h) v.

(** [callable(v)]. *)
Definition callable `{Host} (v : val) (h : heap) : bool :=
  match v with
  | VFn _ _ | VBuiltin _ => true
  | VObj o => obj_callable o h
  | _ => false
  end.

#[global] Instance val_inhabited : Inhabited val := populate VNone.

(** The store: the [val] of every [Var] object, the next free address, and
    the heap of the host. *)
Record Store (heap : Type) := mkState
  { cells : gmap nat val; next_cell : nat; host : heap }.
Arguments mkState {heap} cells next_cell host.
Arguments cells {heap} s.
Arguments next_cell {heap} s.
Arguments host {heap} s.

Definition State `{Host} : Type := Store heap.

End Runtime.

(** ** runtime/builtins.py: the logical operators *)

Module Builtins.
Import Runtime.

Section Logical.

(** Python's [bool]. *)
Variable bool_of : val -> bool.

(** [args[-1]] is an argument of [next] and is evaluated before the
    search; on an empty tuple it raises [IndexError]. *)
Definition _logical_or (arg0 : val) (args : list val) : host_result val :=
  if bool_of arg0 then HOk arg0
  else
    match last args with
    | None => HRaise "IndexError"
    | Some dflt => HOk (default dflt (List.find bool_of args))
    end.

Definition _logical_and (arg0 : val) (args : list val) : host_result val :=
  if negb (bool_of arg0) then HOk arg0
  else
    match last args with
    | None => HRaise "IndexError"
    | Some dflt => HOk (default dflt (List.find (fun arg => negb (bool_of arg)) args))
    end.

Definition _logical_not (arg : val) : val := VBool (negb (bool_of arg)).

End Logical.

(** The keys of [BUILT_IN_FNS], in the order of the dict. *)
Definition BUILT_IN_NAMES : list string :=
  ["print"; "input"; "lt"; "le"; "eq"; "ne"; "ge"; "gt"; "abs"; "add"; "sub";
   "mul"; "div"; "pow"; "neg"; "mod"; "floor_div"; "not"; "or"; "and";
   "parse_int"; "parse_float"; "format"; "range"; "len"].

End Builtins.

(** ** runtime/interpreter.py *)

Module Interpreter.
Import Nodes Runtime.

Section WithHost.
Context `{Host}.

(** *** RuntimeEnv *)

(** [RuntimeEnv.__init__]: an empty list of declared-name sets is replaced
    by [[set()]]. *)
Definition RuntimeEnv_init (stack : list Var) (stack_offsets : list nat)
    (decl_variables_in_scope : list (gset string)) : RuntimeEnv :=
  mkEnv stack stack_offsets
    (match decl_variables_in_scope with
     | [] => [∅]
     | l => l
     end).

(** [list.pop()]: the last element and the list without it. *)
Definition pop {A} (l : list A) : option (A * list A) :=
  match last l with
  | Some x => Some (x, removelast l)
  | None => None
  end.

Definition IndexError : exn := Exc (PyException "IndexError").
Definition AttributeError : exn := Exc (PyException "AttributeError").

(** The two lines of [enter_scope] before its [yield]. *)
Definition enter (env : RuntimeEnv) : RuntimeEnv :=
  mkEnv (_stack env)
        (_stack_offsets env ++ [length (_stack env)])
        (_decl_variables_in_scope env ++ [∅]).

(** The [finally] block of [enter_scope]. *)
Definition leave (env : RuntimeEnv) : result unit * RuntimeEnv :=
  match pop (_stack_offsets env) with
  | None => (Raise IndexError, env)
  | Some (offset, offsets) =>
      let env :=
        mkEnv (take offset (_stack env)) offsets
              (_decl_variables_in_scope env) in
      match pop (_decl_variables_in_scope env) with
      | None => (Raise IndexError, env)
      | Some (_, decls) => (Ok tt, mkEnv (_stack env) (_stack_offsets env) decls)
      end
  end.

(** [with env.enter_scope(): body]: the [finally] block runs however the
    body ends, and an exception it raises replaces the outcome of the body.
    [None] is a body cut off by the fuel. *)
Definition enter_scope {A}
    (body : RuntimeEnv -> State -> option (result A * RuntimeEnv * State))
    (env : RuntimeEnv) (st : State)
  : option (result A * RuntimeEnv * State) :=
  match body (enter env) st with
  | None => None
  | Some (r, env, st) =>
      match leave env with
      | (Ok _, env) => Some (r, env, st)
      | (Raise x, env) => Some (Raise x, env, st)
      end
  end.

(** The cells of the variables called [name], innermost first. *)
Definition cells_of (name : string) (stack : list Var) : list nat :=
  map cell (filter (fun var => attr_eqb (Runtime.name var) name = true)
                   (reverse stack)).

Definition lookup (name : string) (env : RuntimeEnv) (st : State)
  : result val :=
  match cells_of name (_stack env) with
  | c :: _ => Ok (cells st !!! c)
  | [] => Raise (Exc (RuntimeError (undefined_variable name)))
  end.

Definition set_cell (st : State) (c : nat) (v : val) : State :=
  mkState (<[c := v]> (cells st)) (next_cell st) (host st).

Definition assign (name : string) (v : val) (env : RuntimeEnv) (st : State)
  : result unit * State :=
  match cells_of name (_stack env) with
  | [] =>
      (Raise (Exc (RuntimeError (cannot_assign_to_undeclared_variable name))),
       st)
  | cs => (Ok tt, foldl (fun st c => set_cell st c v) st cs)
  end.

(** [Var(name, val)] is a new object: a fresh cell. *)
Definition push (name : attr) (v : val) (env : RuntimeEnv) (st : State)
  : RuntimeEnv * State :=
  let c := next_cell st in
  (mkEnv (_stack env ++ [mkVar name c]) (_stack_offsets env)
         (_decl_variables_in_scope env),
   mkState (<[c := v]> (cells st)) (S c) (host st)).

Definition declare (name : string) (v : val) (env : RuntimeEnv) (st : State)
  : result unit * RuntimeEnv * State :=
  match last (_decl_variables_in_scope env) with
  | None => (Raise IndexError, env, st)
  | Some top =>
      if bool_decide (name ∈ top) then
        (Raise (Exc (RuntimeError
                       (cannot_redeclare_variable_in_same_scope name))),
         env, st)
      else
        let decls :=
          <[pred (length (_decl_variables_in_scope env)) := {[name]} ∪ top]>
            (_decl_variables_in_scope env) in
        let env := mkEnv (_stack env) (_stack_offsets env) decls in
        let '(env, st) := push (AStr name) v env st in
        (Ok tt, env, st)
  end.

Definition has (name : string) (env : RuntimeEnv) : bool :=
  existsb (fun var => attr_eqb (Runtime.name var) name) (_stack env).

(** The copies of the three lists hold the same [Var] objects. *)
Definition copy (env : RuntimeEnv) : RuntimeEnv :=
  RuntimeEnv_init (_stack env) (_stack_offsets env)
    (_decl_variables_in_scope env).

(** *** Interpreter *)

Definition eval_result (A : Type) := option (result A * State).
Definition exec_result (A : Type) := option (result A * RuntimeEnv * State).

Definition ebind {A B} (m : eval_result A) (k : A -> State -> eval_result B)
  : eval_result B :=
  match m with
  | None => None
  | Some (Raise x, st) => Some (Raise x, st)
  | Some (Ok a, st) => k a st
  end.

Definition sbind {A B} (m : exec_result A)
    (k : A -> RuntimeEnv -> State -> exec_result B) : exec_result B :=
  match m with
  | None => None
  | Some (Raise x, env, st) => Some (Raise x, env, st)
  | Some (Ok a, env, st) => k a env st
  end.

(** An expression evaluated in a statement: the three stacks of [env] are
    left as they are. *)
Definition in_env {A} (env : RuntimeEnv) (m : eval_result A) : exec_result A :=
  match m with
  | None => None
  | Some (r, st) => Some (r, env, st)
  end.

(** The outcome of an operation of the host under the [except] clauses
    around it: [handler cls] is the error the clauses raise for an exception
    of class [cls], or [None] when they let it through. *)
Definition from_host {A} (handler : string -> option RuntimeErrorMsg)
    (r : host_result A * heap) (st : State) : eval_result A :=
  let st := mkState (cells st) (next_cell st) (snd r) in
  match fst r with
  | HOk a => Some (Ok a, st)
  | HRaise cls =>
      match handler cls with
      | Some msg => Some (Raise (Exc (RuntimeError msg)), st)
      | None => Some (Raise (Exc (PyException cls)), st)
      end
  end.

Definition except_all (msg : RuntimeErrorMsg) (cls : string)
  : option RuntimeErrorMsg := Some msg.
Definition except_class (c : string) (msg : RuntimeErrorMsg) (cls : string)
  : option RuntimeErrorMsg := if String.eqb cls c then Some msg else None.
Definition no_except (cls : string) : option RuntimeErrorMsg := None.

(** [for param, arg in zip(decl.param_names, args): call_env.declare(...)]. *)
Fixpoint declare_params (params : list (string * val)) (env : RuntimeEnv)
    (st : State) : result unit * RuntimeEnv * State :=
  match params with
  | [] => (Ok tt, env, st)
  | (param, arg) :: params =>
      match declare param arg env st with
      | (Ok _, env, st) => declare_params params env st
      | raised => raised
      end
  end.

(** [try: body except Return as r: return r.val], then [return None]. *)
Definition catch_return (r : exec_result unit) : exec_result val :=
  match r with
  | None => None
  | Some (Ok _, env, st) => Some (Ok VNone, env, st)
  | Some (Raise (Return v), env, st) => Some (Ok v, env, st)
  | Some (Raise x, env, st) => Some (Raise x, env, st)
  end.

(** The [try] around one iteration of a loop: [except Break: break] and
    [except Continue: pass]; [next] is the rest of the loop. *)
Definition loop_step (r : exec_result unit)
    (next : RuntimeEnv -> State -> exec_result unit) : exec_result unit :=
  match r with
  | None => None
  | Some (Ok _, env, st) => next env st
  | Some (Raise Continue, env, st) => next env st
  | Some (Raise Break, env, st) => Some (Ok tt, env, st)
  | Some (Raise x, env, st) => Some (Raise x, env, st)
  end.

(** The [except] clauses of [_visit_try_stmt]: [handler e] runs for an
    exception that is neither an [InternalError] nor a [Sentinel]. *)
Definition try_except (r : exec_result unit)
    (handler : Exception -> RuntimeEnv -> State -> exec_result unit)
  : exec_result unit :=
  match r with
  | None => None
  | Some (Raise (Exc (InternalError msg)), env, st) =>
      Some (Raise (Exc (InternalError msg)), env, st)
  | Some (Raise (Exc e), env, st) => handler e env st
  | Some (r, env, st) => Some (r, env, st)
  end.

(** [try: return fn(...) except Exception as e: raise RuntimeError(...)];
    the sentinels are exceptions too. *)
Definition wrap_call_errors (r : eval_result val) : eval_result val :=
  match r with
  | None => None
  | Some (Ok v, st) => Some (Ok v, st)
  | Some (Raise _, st) => Some (Raise (Exc (RuntimeError error_calling)), st)
  end.

Definition drop_env {A} (r : exec_result A) : eval_result A :=
  match r with
  | None => None
  | Some (r, _, st) => Some (r, st)
  end.

Definition raise {A} (msg : RuntimeErrorMsg) (st : State) : eval_result A :=
  Some (Raise (Exc (RuntimeError msg)), st).

(** The type of [_visit_block_stmt] at a given fuel. *)
Definition block_visitor :=
  StmtNode -> RuntimeEnv -> State -> exec_result unit.

(** What the code runs under [with env.enter_scope()], apart from the plain
    [_visit_block_stmt] of a block statement and of a loop body. *)

(** [_visit_if_stmt]. *)
Definition if_branches (visit_block : block_visitor) (cond : val)
    (if_branch : StmtNode) (else_branch : option StmtNode)
    (env : RuntimeEnv) (st : State) : exec_result unit :=
  if truthy cond (host st) then visit_block if_branch env st
  else match else_branch with
       | Some else_branch => visit_block else_branch env st
       | None => Some (Ok tt, env, st)
       end.

(** One item of [_visit_iterator_based_for_loop_stmt]. *)
Definition bind_item (visit_block : block_visitor)
    (iterator_var_binding_name : string) (item : val) (body_block : StmtNode)
    (env : RuntimeEnv) (st : State) : exec_result unit :=
  let '(env, st) := push (AStr iterator_var_binding_name) item env st in
  visit_block body_block env st.

(** The handler of [_visit_try_stmt]. *)
Definition catch_clause (visit_block : block_visitor)
    (err_var_binding_name : attr) (e : Exception) (catch_block : attr)
    (env : RuntimeEnv) (st : State) : exec_result unit :=
  let '(env, st) :=
    if attr_truthy err_var_binding_name
    then push err_var_binding_name (VExc e) env st
    else (env, st) in
  match catch_block with
  | ANode catch_block => visit_block catch_block env st
  | _ => Some (Raise AttributeError, env, st)
  end.

(** The body of [compiled]. *)
Definition call_body (visit_block : block_visitor) (decl : FnDefinition)
    (args : list val) (call_env : RuntimeEnv) (st : State) : exec_result val :=
  sbind (Some (declare_params (zip (param_names decl) args) call_env st))
    (fun _ call_env st =>
       catch_return (visit_block (body_block decl) call_env st)).

(** [_evaluate_call_expr] once the arguments and the callee are values;
    [compiled] is the closure of [_compile_fn] at a given fuel. *)
Definition call_fn
    (compiled : FnDefinition -> RuntimeEnv -> list val -> State
                -> eval_result val)
    (fn : val) (args : list val) (st : State) : eval_result val :=
  match fn with
  | fn_prototype => raise cannot_call_fn_before_it_is_defined st
  | _ =>
      if callable fn (host st) then
        match fn with
        | VFn decl captured_env =>
            wrap_call_errors (compiled decl captured_env args st)
        | _ =>
            from_host (except_all error_calling) (py_call fn args (host st)) st
        end
      else raise cannot_call_non_callable_value st
  end.

(** The methods of [Interpreter] that evaluate the tree.  The fuel [n]
    bounds the depth of the calls between them; [None] is a run cut off by
    the fuel.  [compiled] is the closure that [_compile_fn] returns. *)
Fixpoint _evaluate_expr (n : nat) (expr : ExprNode) (env : RuntimeEnv)
    (st : State) {struct n} : eval_result val :=
  match n with
  | O => None
  | S n =>
  match expr with
  | CallExpr callee args =>
      ebind (evaluate_exprs n args env st) (fun args st =>
      ebind (_evaluate_expr n callee env st) (fun fn st =>
      call_fn (compiled n) fn args st))
  | BoolLitExpr b => Some (Ok (VBool b), st)
  | FloatLitExpr f => Some (Ok (VFloat f), st)
  | IntLitExpr z => Some (Ok (VInt z), st)
  | StrLitExpr s => Some (Ok (VStr s), st)
  | NullLitExpr => Some (Ok VNone, st)
  | AssignmentExpr name val =>
      ebind (_evaluate_expr n val env st) (fun val st =>
      match assign name val env st with
      | (Ok _, st) => Some (Ok val, st)
      | (Raise x, st) => Some (Raise x, st)
      end)
  | AccessExpr name => Some (lookup name env st, st)
  | AttrAccessExpr obj attr_name =>
      ebind (_evaluate_expr n obj env st) (fun obj st =>
      from_host
        (except_class "AttributeError" (cannot_access_attribute attr_name))
        (py_getattr obj attr_name (host st)) st)
  | AttrAssignmentExpr obj attr_name val =>
      ebind (_evaluate_expr n obj env st) (fun obj st =>
      ebind (_evaluate_expr n val env st) (fun val st =>
      ebind (from_host
               (except_class "AttributeError" (cannot_set_attribute attr_name))
               (py_setattr obj attr_name val (host st)) st) (fun _ st =>
      Some (Ok val, st))))
  | ItemAccessExpr obj key =>
      ebind (_evaluate_expr n obj env st) (fun obj st =>
      ebind (_evaluate_expr n key env st) (fun key st =>
      from_host (except_all cannot_access_item)
        (py_getitem obj key (host st)) st))
  | ItemAssignmentExpr obj key val =>
      ebind (_evaluate_expr n obj env st) (fun obj st =>
      ebind (_evaluate_expr n key env st) (fun key st =>
      ebind (_evaluate_expr n val env st) (fun val st =>
      ebind (from_host (except_all cannot_assign_item)
               (py_setitem obj key val (host st)) st) (fun _ st =>
      Some (Ok val, st)))))
  | ListLitExpr values =>
      ebind (evaluate_exprs n values env st) (fun values st =>
      from_host no_except
        (let '(l, h) := py_list values (host st) in (HOk l, h)) st)
  | DictLitExpr entries =>
      ebind (from_host no_except
               (let '(d, h) := py_dict (host st) in (HOk d, h)) st)
        (fun d st =>
      ebind (evaluate_entries n d entries env st) (fun _ st =>
      Some (Ok d, st)))
  end
  end

(** [[self._evaluate_expr(expr, env) for expr in exprs]]. *)
with evaluate_exprs (n : nat) (exprs : list ExprNode) (env : RuntimeEnv)
    (st : State) {struct n} : eval_result (list val) :=
  match n with
  | O => None
  | S n =>
  match exprs with
  | [] => Some (Ok [], st)
  | expr :: exprs =>
      ebind (_evaluate_expr n expr env st) (fun v st =>
      ebind (evaluate_exprs n exprs env st) (fun vs st =>
      Some (Ok (v :: vs), st)))
  end
  end

(** The dict comprehension of [_evaluate_dict_lit_expr], filling [d]: for
    each entry the key, then the value, then the insertion. *)
with evaluate_entries (n : nat) (d : val) (entries : list (ExprNode * ExprNode))
    (env : RuntimeEnv) (st : State) {struct n} : eval_result unit :=
  match n with
  | O => None
  | S n =>
  match entries with
  | [] => Some (Ok tt, st)
  | (k, v) :: entries =>
      ebind (_evaluate_expr n k env st) (fun k st =>
      ebind (_evaluate_expr n v env st) (fun v st =>
      ebind (from_host no_except (py_setitem d k v (host st)) st) (fun _ st =>
      evaluate_entries n d entries env st)))
  end
  end

with compiled (n : nat) (decl : FnDefinition) (captured_env : RuntimeEnv)
    (args : list val) (st : State) {struct n} : eval_result val :=
  match n with
  | O => None
  | S n =>
      let call_env := copy captured_env in
      let want := length (param_names decl) in
      let got := length args in
      if negb (want =? got)%nat then
        raise (wrong_arg_count (fn_name decl) want got) st
      else
        drop_env
          (enter_scope (call_body (_visit_block_stmt n) decl args) call_env st)
  end

with _visit_stmt (n : nat) (stmt : StmtNode) (env : RuntimeEnv) (st : State)
    {struct n} : exec_result unit :=
  match n with
  | O => None
  | S n =>
  match stmt with
  | BlockStmt _ => enter_scope (_visit_block_stmt n stmt) env st
  | VarDeclStmt var_name val =>
      sbind (in_env env (_evaluate_expr n val env st)) (fun val env st =>
      Some (declare var_name val env st))
  | IfStmt cond if_branch else_branch =>
      sbind (in_env env (_evaluate_expr n cond env st)) (fun cond env st =>
      enter_scope
        (if_branches (_visit_block_stmt n) cond if_branch else_branch) env st)
  | ReturnStmt return_val =>
      match return_val with
      | Some return_val =>
          sbind (in_env env (_evaluate_expr n return_val env st))
            (fun return_val env st => Some (Raise (Return return_val), env, st))
      | None => Some (Raise (Return VNone), env, st)
      end
  | WhileLoopStmt cond body_block =>
      _visit_while_loop_stmt n cond body_block env st
  | IteratorBasedForLoopStmt iterator_var_binding_name expr body_block =>
      sbind (in_env env (_evaluate_expr n expr env st)) (fun iterable env st =>
      sbind (in_env env
               (from_host (except_class "TypeError" cannot_iterate_over_value)
                  (py_iter iterable (host st)) st)) (fun it env st =>
      for_items n iterator_var_binding_name it body_block env st))
  | BreakStmt => Some (Raise Break, env, st)
  | ContinueStmt => Some (Raise Continue, env, st)
  | TryStmt try_block catch_block err_var_binding_name =>
      try_except (enter_scope (_visit_block_stmt n try_block) env st)
        (fun e env st =>
           enter_scope
             (catch_clause (_visit_block_stmt n) err_var_binding_name e
                catch_block) env st)
  | ExprStmt expr =>
      sbind (in_env env (_evaluate_expr n expr env st)) (fun _ env st =>
      Some (Ok tt, env, st))
  end
  end

(** [for stmt in block.stmts: self._visit_stmt(stmt, env)], by recursion on
    the statements that remain; a node without [stmts] raises
    [AttributeError]. *)
with _visit_block_stmt (n : nat) (block : StmtNode) (env : RuntimeEnv)
    (st : State) {struct n} : exec_result unit :=
  match n with
  | O => None
  | S n =>
  match block with
  | BlockStmt [] => Some (Ok tt, env, st)
  | BlockStmt (stmt :: stmts) =>
      sbind (_visit_stmt n stmt env st) (fun _ env st =>
      _visit_block_stmt n (BlockStmt stmts) env st)
  | _ => Some (Raise AttributeError, env, st)
  end
  end

with _visit_while_loop_stmt (n : nat) (cond : ExprNode) (body_block : StmtNode)
    (env : RuntimeEnv) (st : State) {struct n} : exec_result unit :=
  match n with
  | O => None
  | S n =>
      sbind (in_env env (_evaluate_expr n cond env st)) (fun c env st =>
      if truthy c (host st) then
        loop_step (enter_scope (_visit_block_stmt n body_block) env st)
          (_visit_while_loop_stmt n cond body_block)
      else Some (Ok tt, env, st))
  end

(** The [for item in it] loop of [_visit_iterator_based_for_loop_stmt]. *)
with for_items (n : nat) (iterator_var_binding_name : string) (it : val)
    (body_block : StmtNode) (env : RuntimeEnv) (st : State) {struct n}
  : exec_result unit :=
  match n with
  | O => None
  | S n =>
      sbind (in_env env (from_host no_except (py_next it (host st)) st))
        (fun item env st =>
      match item with
      | None => Some (Ok tt, env, st)
      | Some item =>
          loop_step
            (enter_scope
               (bind_item (_visit_block_stmt n) iterator_var_binding_name item
                  body_block) env st)
            (for_items n iterator_var_binding_name it body_block)
      end)
  end.

(** [_compile_fn]: the closure holds a copy of the environment. *)
Definition _compile_fn (decl : FnDefinition) (env : RuntimeEnv) : val :=
  let captured_env := copy env in
  VFn decl captured_env.

Definition _visit_fn_definition (decl : FnDefinition) (env : RuntimeEnv)
    (st : State) : result unit * State :=
  let compiled := _compile_fn decl env in
  assign (fn_name decl) compiled env st.

(** The three loops of [evaluate]. *)
Fixpoint push_built_in_fns (built_in_fns : list (string * val))
    (env : RuntimeEnv) (st : State) : RuntimeEnv * State :=
  match built_in_fns with
  | [] => (env, st)
  | (name, built_in_fn) :: rest =>
      let '(env, st) := push (AStr name) built_in_fn env st in
      push_built_in_fns rest env st
  end.

Fixpoint declare_prototypes (nodes : list TopLevelNode) (env : RuntimeEnv)
    (st : State) : result unit * RuntimeEnv * State :=
  match nodes with
  | [] => (Ok tt, env, st)
  | TopFn node :: nodes =>
      if negb (has (fn_name node) env) then
        match declare (fn_name node) fn_prototype env st with
        | (Ok _, env, st) => declare_prototypes nodes env st
        | raised => raised
        end
      else declare_prototypes nodes env st
  | TopStmt _ :: nodes => declare_prototypes nodes env st
  end.

Fixpoint visit_top_level_nodes (n : nat) (nodes : list TopLevelNode)
    (env : RuntimeEnv) (st : State) : exec_result unit :=
  match nodes with
  | [] => Some (Ok tt, env, st)
  | TopStmt node :: nodes =>
      sbind (_visit_stmt n node env st) (fun _ env st =>
      visit_top_level_nodes n nodes env st)
  | TopFn node :: nodes =>
      match _visit_fn_definition node env st with
      | (Ok _, st) => visit_top_level_nodes n nodes env st
      | (Raise x, st) => Some (Raise x, env, st)
      end
  end.

(** [except Sentinel: raise InternalError("interpreter: sentinel escaped")]. *)
Definition sentinel_escaped (r : exec_result unit) : exec_result unit :=
  match r with
  | Some (Raise (Exc e), env, st) => Some (Raise (Exc e), env, st)
  | Some (Raise _, env, st) =>
      Some (Raise (Exc (InternalError "interpreter: sentinel escaped")),
            env, st)
  | other => other
  end.

Definition evaluate (n : nat) (ast : list TopLevelNode)
    (built_in_fns : list (string * val)) (st : State) : exec_result unit :=
  let env := RuntimeEnv_init [] [] [] in
  let '(env, st) := push_built_in_fns built_in_fns env st in
  sentinel_escaped
    (sbind (Some (declare_prototypes ast env st)) (fun _ env st =>
     visit_top_level_nodes n ast env st)).

End WithHost.
End Interpreter.

(** ** A host for the examples

    Integers, booleans, strings, lists and dicts with integer or string
    keys, with the functions of [BUILT_IN_FNS] on integers; a list object is
    mutable and its iterator reads it item by item.  An operation outside
    this fragment raises [NotImplementedError]. *)

Module SmallHost.
Import Nodes Runtime Builtins.

Inductive object :=
| ListObj (items : list val)
| ListIterator (target index : nat)
| DictObj (entries : list (val * val)).

Definition key_eqb (a b : val) : bool :=
  match a, b with
  | VInt x, VInt y => (x =? y)%Z
  | VStr x, VStr y => String.eqb x y
  | _, _ => false
  end.

Definition is_key (k : val) : bool :=
  match k with VInt _ | VStr _ => true | _ => false end.

Fixpoint dict_get (entries : list (val * val)) (k : val) : option val :=
  match entries with
  | [] => None
  | (k', v) :: entries => if key_eqb k' k then Some v else dict_get entries k
  end.

Fixpoint dict_set (entries : list (val * val)) (k v : val)
  : list (val * val) :=
  match entries with
  | [] => [(k, v)]
  | (k', v') :: entries =>
      if key_eqb k' k then (k', v) :: entries
      else (k', v') :: dict_set entries k v
  end.

Record world := mkWorld { objects : list object; printed : list (list val) }.

Definition obj_truth (o : nat) (w : world) : bool :=
  match objects w !! o with
  | Some (ListObj []) => false
  | _ => true
  end.

Definition bool_of (w : world) (v : val) : bool :=
  truth (fun o => obj_truth o w) v.

Definition new_object (x : object) (w : world) : val * world :=
  (VObj (length (objects w)), mkWorld (objects w ++ [x]) (printed w)).

(** [bool] is a subclass of [int]. *)
Definition as_int (v : val) : option Z :=
  match v with
  | VInt z => Some z
  | VBool b => Some (if b then 1 else 0)%Z
  | _ => None
  end.

Definition not_implemented {A} : host_result A := HRaise "NotImplementedError".

Definition int_op2 (f : Z -> Z -> host_result val) (args : list val)
  : host_result val :=
  match args with
  | [a; b] =>
      match as_int a, as_int b with
      | Some x, Some y => f x y
      | _, _ => not_implemented
      end
  | _ => HRaise "TypeError"
  end.

Definition int_op1 (f : Z -> val) (args : list val) : host_result val :=
  match args with
  | [a] => match as_int a with Some x => HOk (f x) | None => not_implemented end
  | _ => HRaise "TypeError"
  end.

Definition nonzero (f : Z -> Z -> Z) (x y : Z) : host_result val :=
  if (y =? 0)%Z then HRaise "ZeroDivisionError" else HOk (VInt (f x y)).

(** [BUILT_IN_FNS[name](...)] is [built_in name args]; [pow] is bound to
    [operator.pos]. *)
Definition built_in (name : string) (args : list val) (w : world)
  : host_result val * world :=
  let pure r := (r, w) in
  if String.eqb name "print" then
    (HOk VNone, mkWorld (objects w) (printed w ++ [args]))
  else if String.eqb name "lt" then
    pure (int_op2 (fun x y => HOk (VBool (x <? y)%Z)) args)
  else if String.eqb name "le" then
    pure (int_op2 (fun x y => HOk (VBool (x <=? y)%Z)) args)
  else if String.eqb name "eq" then
    pure (int_op2 (fun x y => HOk (VBool (x =? y)%Z)) args)
  else if String.eqb name "ne" then
    pure (int_op2 (fun x y => HOk (VBool (negb (x =? y)%Z))) args)
  else if String.eqb name "ge" then
    pure (int_op2 (fun x y => HOk (VBool (y <=? x)%Z)) args)
  else if String.eqb name "gt" then
    pure (int_op2 (fun x y => HOk (VBool (y <? x)%Z)) args)
  else if String.eqb name "abs" then pure (int_op1 (fun x => VInt (Z.abs x)) args)
  else if String.eqb name "add" then
    pure (int_op2 (fun x y => HOk (VInt (x + y))) args)
  else if String.eqb name "sub" then
    pure (int_op2 (fun x y => HOk (VInt (x - y))) args)
  else if String.eqb name "mul" then
    pure (int_op2 (fun x y => HOk (VInt (x * y))) args)
  else if String.eqb name "pow" then pure (int_op1 (fun x => VInt x) args)
  else if String.eqb name "neg" then pure (int_op1 (fun x => VInt (- x)) args)
  else if String.eqb name "mod" then pure (int_op2 (nonzero Z.modulo) args)
  else if String.eqb name "floor_div" then pure (int_op2 (nonzero Z.div) args)
  else if String.eqb name "not" then
    pure (match args with
          | [arg] => HOk (_logical_not (bool_of w) arg)
          | _ => HRaise "TypeError"
          end)
  else if String.eqb name "or" then
    pure (match args with
          | arg0 :: args => _logical_or (bool_of w) arg0 args
          | [] => HRaise "TypeError"
          end)
  else if String.eqb name "and" then
    pure (match args with
          | arg0 :: args => _logical_and (bool_of w) arg0 args
          | [] => HRaise "TypeError"
          end)
  else pure not_implemented.

Definition small_call (fn : val) (args : list val) (w : world)
  : host_result val * world :=
  match fn with
  | VBuiltin name => built_in name args w
  | _ => (not_implemented, w)
  end.

(** [obj[key]] on a list, for an index that is not negative, and on a
    dict. *)
Definition small_getitem (obj key : val) (w : world) : host_result val * world :=
  match obj with
  | VObj o =>
      match objects w !! o, key with
      | Some (ListObj items), VInt i =>
          if (i <? 0)%Z then (not_implemented, w)
          else match items !! Z.to_nat i with
               | Some v => (HOk v, w)
               | None => (HRaise "IndexError", w)
               end
      | Some (DictObj entries), _ =>
          if is_key key then
            match dict_get entries key with
            | Some v => (HOk v, w)
            | None => (HRaise "KeyError", w)
            end
          else (not_implemented, w)
      | _, _ => (not_implemented, w)
      end
  | _ => (not_implemented, w)
  end.

Definition small_setitem (obj key v : val) (w : world)
  : host_result unit * world :=
  match obj with
  | VObj o =>
      match objects w !! o, key with
      | Some (ListObj items), VInt i =>
          if (i <? 0)%Z then (not_implemented, w)
          else if (Z.to_nat i <? length items)%nat then
            (HOk tt,
             mkWorld (<[o := ListObj (<[Z.to_nat i := v]> items)]> (objects w))
                     (printed w))
          else (HRaise "IndexError", w)
      | Some (DictObj entries), _ =>
          if is_key key then
            (HOk tt,
             mkWorld (<[o := DictObj (dict_set entries key v)]> (objects w))
                     (printed w))
          else (not_implemented, w)
      | _, _ => (not_implemented, w)
      end
  | _ => (not_implemented, w)
  end.

Definition small_iter (v : val) (w : world) : host_result val * world :=
  match v with
  | VObj o =>
      match objects w !! o with
      | Some (ListObj _) =>
          let '(it, w) := new_object (ListIterator o 0) w in (HOk it, w)
      | _ => (not_implemented, w)
      end
  | VNone | VBool _ | VInt _ | VFloat _ | VBuiltin _ | VFn _ _ | fn_prototype =>
      (HRaise "TypeError", w)
  | _ => (not_implemented, w)
  end.

Definition small_next (it : val) (w : world)
  : host_result (option val) * world :=
  match it with
  | VObj i =>
      match objects w !! i with
      | Some (ListIterator o index) =>
          match objects w !! o with
          | Some (ListObj items) =>
              match items !! index with
              | Some v =>
                  (HOk (Some v),
                   mkWorld (<[i := ListIterator o (S index)]> (objects w))
                           (printed w))
              | None => (HOk None, w)
              end
          | _ => (not_implemented, w)
          end
      | _ => (not_implemented, w)
      end
  | _ => (not_implemented, w)
  end.

#[global] Instance small_host : Host := {|
  heap := world;
  obj_truthy := obj_truth;
  obj_callable := fun _ _ => false;
  py_call := small_call;
  py_getattr := fun _ _ w => (not_implemented, w);
  py_setattr := fun _ _ _ w => (not_implemented, w);
  py_getitem := small_getitem;
  py_setitem := small_setitem;
  py_iter := small_iter;
  py_next := small_next;
  py_list := fun items w => new_object (ListObj items) w;
  py_dict := fun w => new_object (DictObj []) w;
|}.

Definition BUILT_IN_FNS : list (string * val) :=
  map (fun name => (name, VBuiltin name)) BUILT_IN_NAMES.

Definition empty_state : State := mkState ∅ 0 (mkWorld [] []).

End SmallHost.

(** ** Reference semantics, from the words of the specification

    These two definitions are not in the source: they say what the
    specification asks of a call and of a C-style for loop, in terms of the
    interpreter's own evaluation of the parts. *)

Module Reference.
Import Nodes Runtime Interpreter.

Section WithHost.
Context `{Host}.

(** "Call: evaluate the callee, then arguments left-to-right." *)
Definition call_callee_first (n : nat) (callee : ExprNode)
    (args : list ExprNode) (env : RuntimeEnv) (st : State) : eval_result val :=
  ebind (_evaluate_expr n callee env st) (fun fn st =>
  ebind (evaluate_exprs n args env st) (fun args st =>
  call_fn (compiled n) fn args st)).

(** "Left-to-right": the expressions are evaluated one after the other,
    each from the state that the one before it left, up to the first that
    raises. *)
Inductive in_order (env : RuntimeEnv)
  : list ExprNode -> State -> result (list val) -> State -> Prop :=
| in_order_nil st : in_order env [] st (Ok []) st
| in_order_raise n expr exprs st x st1 :
    _evaluate_expr n expr env st = Some (Raise x, st1) ->
    in_order env (expr :: exprs) st (Raise x) st1
| in_order_cons n expr exprs st v st1 r st2 :
    _evaluate_expr n expr env st = Some (Ok v, st1) ->
    in_order env exprs st1 r st2 ->
    in_order env (expr :: exprs) st
      (match r with Ok vs => Ok (v :: vs) | Raise x => Raise x end) st2.

(** The iterations of [for (INIT; COND; POST) BODY]: "POST runs after every
    iteration, including iterations short-circuited by continue".  BODY runs
    in a scope of its own, as the body of a while loop does, and POST in the
    scope of the loop. *)
Fixpoint for_iterations (n : nat) (cond : ExprNode) (post : option ExprNode)
    (body : list StmtNode) (env : RuntimeEnv) (st : State) {struct n}
  : exec_result unit :=
  match n with
  | O => None
  | S n =>
      sbind (in_env env (_evaluate_expr n cond env st)) (fun c env st =>
      if truthy c (host st) then
        loop_step (enter_scope (_visit_block_stmt n (BlockStmt body)) env st)
          (fun env st =>
             match post with
             | Some post =>
                 sbind (in_env env (_evaluate_expr n post env st))
                   (fun _ env st => for_iterations n cond (Some post) body env st)
             | None => for_iterations n cond post body env st
             end)
      else Some (Ok tt, env, st))
  end.

(** The whole loop, in the block that holds INIT. *)
Definition for_loop (n : nat) (init : option StmtNode) (cond : ExprNode)
    (post : option ExprNode) (body : list StmtNode) (env : RuntimeEnv)
    (st : State) : exec_result unit :=
  enter_scope (fun env st =>
    sbind (match init with
           | Some init => _visit_stmt n init env st
           | None => Some (Ok tt, env, st)
           end) (fun _ env st =>
    for_iterations n cond post body env st)) env st.

End WithHost.
End Reference.

(** ** Vocabulary of the properties *)

Module Scopes.
Import Nodes Runtime Interpreter.

Section WithHost.
Context `{Host}.

(** What running statements in a scope does to the three stacks: bindings
    are appended, names are added to the last set of declared names, the
    rest stays. *)
Definition frame (env env' : RuntimeEnv) : Prop :=
  _stack_offsets env' = _stack_offsets env
  /\ (exists ext, _stack env' = _stack env ++ ext)
  /\ length (_decl_variables_in_scope env')
     = length (_decl_variables_in_scope env)
  /\ removelast (_decl_variables_in_scope env')
     = removelast (_decl_variables_in_scope env).

(** A body that keeps the frame of the scope it runs in. *)
Definition keeps_frame {A}
    (body : RuntimeEnv -> State -> exec_result A) : Prop :=
  forall env st r env' st',
    body env st = Some (r, env', st') -> frame env env'.

(** [y] is at least as defined as [x]: more fuel gives the same outcome. *)
Definition le_res {A} (x y : option A) : Prop :=
  forall r, x = Some r -> y = Some r.

(** The bodies that the interpreter runs under [with env.enter_scope()],
    one constructor for each [with] of the source: a block statement, the
    branches of an if statement, an iteration of a while loop, an iteration
    of a for-each loop, the try block and the handler of a try statement,
    and the call of a function. *)
Inductive scope_body : forall A, (RuntimeEnv -> State -> exec_result A) -> Prop :=
| scope_block n stmts :
    scope_body unit (_visit_block_stmt n (BlockStmt stmts))
| scope_if n cond if_branch else_branch :
    scope_body unit (if_branches (_visit_block_stmt n) cond if_branch else_branch)
| scope_while n body_block :
    scope_body unit (_visit_block_stmt n body_block)
| scope_for_item n name item body_block :
    scope_body unit (bind_item (_visit_block_stmt n) name item body_block)
| scope_try n try_block :
    scope_body unit (_visit_block_stmt n try_block)
| scope_catch n err e catch_block :
    scope_body unit (catch_clause (_visit_block_stmt n) err e catch_block)
| scope_call n decl args :
    scope_body val (call_body (_visit_block_stmt n) decl args).

End WithHost.
End Scopes.

(** ** Vocabulary of the lowering of for loops *)

Module Lowering.
Import Nodes Runtime Interpreter Parser.

(** The names that an expression reads or assigns. *)
Fixpoint names (expr : ExprNode) : list string :=
  match expr with
  | CallExpr callee args => names callee ++ flat_map names args
  | AttrAccessExpr obj _ => names obj
  | AttrAssignmentExpr obj _ val => names obj ++ names val
  | ItemAccessExpr obj key => names obj ++ names key
  | ItemAssignmentExpr obj key val => names obj ++ names key ++ names val
  | ListLitExpr values => flat_map names values
  | DictLitExpr entries =>
      flat_map (fun entry => names (fst entry) ++ names (snd entry)) entries
  | AssignmentExpr name val => name :: names val
  | AccessExpr name => [name]
  | _ => []
  end.

(** A branch of an if statement, which the interpreter runs as a block: a
    block has to be admissible; a bare [continue], which the parser never
    puts there, is not. *)
Definition admissible_branch (admissible : StmtNode -> bool)
    (branch : StmtNode) : bool :=
  match branch with
  | ContinueStmt => false
  | BlockStmt _ => admissible branch
  | _ => true
  end.

(** The statements of a loop body for which the lowering is faithful, given
    the names [X] of the post expression: outside nested loops, no try
    statement and no declaration of a name of [X]. *)
Fixpoint admissible (X : list string) (stmt : StmtNode) : bool :=
  match stmt with
  | BlockStmt stmts => forallb (admissible X) stmts
  | IfStmt _ if_branch else_branch =>
      admissible_branch (admissible X) if_branch
      && match else_branch with
         | Some else_branch => admissible_branch (admissible X) else_branch
         | None => true
         end
  | VarDeclStmt var_name _ => negb (bool_decide (var_name ∈ X))
  | TryStmt _ _ _ => false
  | _ => true
  end.

(** Two environments bind the names of [X] to the same cells. *)
Definition agree (X : list string) (env env' : RuntimeEnv) : Prop :=
  forall x, x ∈ X -> cells_of x (_stack env) = cells_of x (_stack env').

(** The outcome of [{ POST; continue; }], given that of POST. *)
Definition after_post (r : result val) : result unit :=
  match r with
  | Ok _ => Raise Continue
  | Raise x => Raise x
  end.

(** The outcome of a body with a [continue] appended, given that of the
    body. *)
Definition then_continue (r : result unit) : result unit :=
  match r with
  | Ok _ => Raise Continue
  | Raise x => Raise x
  end.

(** A run that ends, with the fuel it takes left out. *)
Definition runs {A} (run : nat -> option A) (r : A) : Prop :=
  exists n, run n = Some r.

(** A run that ends with every fuel from some fuel on. *)
Definition eventually {A} (run : nat -> option A) (r : A) : Prop :=
  exists m, forall m', m <= m' -> run m' = Some r.

(** A node that the interpreter can run as a block. *)
Definition is_block (s : StmtNode) : bool :=
  match s with BlockStmt _ => true | _ => false end.

Section WithHost.
Context `{Host}.

(** An evaluation that raises only exceptions, no break, continue or
    return. *)
Definition raises_exc {A} (r : eval_result A) : Prop :=
  forall x st, r = Some (Raise x, st) -> exists e, x = Exc e.

(** The outcome [R] of a rewritten statement, given the outcome [r] and the
    final state [st'] of the statement: the same, unless [r] is a continue
    transfer, which has become POST, evaluated in [env0] from [st'], and
    then continue. *)
Definition lowered (post : ExprNode) (env0 : RuntimeEnv) (r : result unit)
    (st' : State) (R : result unit * State) : Prop :=
  (r <> Raise Continue /\ R = (r, st'))
  \/ (r = Raise Continue
      /\ exists k pr st'',
          _evaluate_expr k post env0 st' = Some (pr, st'')
          /\ R = (after_post pr, st'')).

End WithHost.

End Lowering.

(** ** The programs of the examples *)

Module Examples.
Import Nodes Runtime Interpreter.

(** The error of [_next] on a finished lexer. *)
Definition finished_lexer : Lexer.error :=
  Lexer.InternalError "lexer: next called on finished lexer".

(** The call [(x = 1)(x = 2)] with [x] bound: the callee and the argument
    both assign [x]. *)
Definition assigning_call : ExprNode :=
  CallExpr (AssignmentExpr "x" (IntLitExpr 1)) [AssignmentExpr "x" (IntLitExpr 2)].

Definition x_after (r : eval_result val) (env : RuntimeEnv) : option (result val) :=
  match r with
  | Some (_, st) => Some (lookup "x" env st)
  | None => None
  end.

Definition call (fn : string) (args : list ExprNode) : ExprNode :=
  CallExpr (AccessExpr fn) args.

(** [let x = 1; fn get() { return x; } x = 99; print(get());] *)
Definition later_assignment : list TopLevelNode :=
  [TopStmt (VarDeclStmt "x" (IntLitExpr 1));
   TopFn (mkFn "get" [] (BlockStmt [ReturnStmt (Some (AccessExpr "x"))]));
   TopStmt (ExprStmt (AssignmentExpr "x" (IntLitExpr 99)));
   TopStmt (ExprStmt (call "print" [call "get" []]))].

(** [let x = 1; fn set() { x = 5; } set(); print(x);] *)
Definition assignment_in_call : list TopLevelNode :=
  [TopStmt (VarDeclStmt "x" (IntLitExpr 1));
   TopFn (mkFn "set" [] (BlockStmt [ExprStmt (AssignmentExpr "x" (IntLitExpr 5))]));
   TopStmt (ExprStmt (call "set" []));
   TopStmt (ExprStmt (call "print" [AccessExpr "x"]))].

Definition printed_by (r : exec_result unit) : option (list (list val)) :=
  match r with
  | Some (_, _, st) => Some (SmallHost.printed (host st))
  | None => None
  end.

(** The parts of [for (let i = 0; lt(i, 3); i = add(i, 1)) ...], and the
    statement [n = add(n, 1);] that counts the iterations. *)
Definition loop_init : StmtNode := VarDeclStmt "i" (IntLitExpr 0).

Definition loop_cond : ExprNode := call "lt" [AccessExpr "i"; IntLitExpr 3].

Definition loop_post : ExprNode :=
  AssignmentExpr "i" (call "add" [AccessExpr "i"; IntLitExpr 1]).

Definition count : StmtNode :=
  ExprStmt (AssignmentExpr "n" (call "add" [AccessExpr "n"; IntLitExpr 1])).

(** The environment and the state after the built-in functions and
    [let n = 0;]. *)
Definition counting : RuntimeEnv * State :=
  let '(env, st) :=
    push_built_in_fns SmallHost.BUILT_IN_FNS (RuntimeEnv_init [] [] [])
      SmallHost.empty_state in
  push (AStr "n") (VInt 0) env st.

(** The same inside the block of the loop, after [let i = 0;]. *)
Definition in_loop : RuntimeEnv * State :=
  match declare "i" (VInt 0) (enter counting.1) counting.2 with
  | (_, env, st) => (env, st)
  end.

Definition n_after (r : exec_result unit) : option (result val) :=
  match r with
  | Some (_, env, st) => Some (lookup "n" env st)
  | None => None
  end.

Definition outcome (r : exec_result unit) : option (result unit) :=
  match r with
  | Some (r, _, _) => Some r
  | None => None
  end.

(** [try { missing; } catch {}], as [_parse_try_stmt] builds it. *)
Definition failing : StmtNode :=
  TryStmt (BlockStmt [ExprStmt (AccessExpr "missing")]) (ANode (BlockStmt []))
    ANone.

(** [try { missing; } catch { n = add(n, 1); }], as [_parse_try_stmt] builds
    it. *)
Definition counted_failure : StmtNode :=
  TryStmt (BlockStmt [ExprStmt (AccessExpr "missing")])
    (ANode (BlockStmt [count])) ANone.

(** [{ let i = 10; n = add(n, 1); }] *)
Definition shadowing_body : list StmtNode :=
  [VarDeclStmt "i" (IntLitExpr 10); count].

End Examples.

(** ** Vocabulary of the properties of the lexer *)

Module Tokens.
Import Lexer.

(** A run of the model that was not cut off by the fuel. *)
Definition finished {A} (r : res A) : bool :=
  match r with OutOfFuel => false | _ => true end.

Definition all_chars (pred : ascii -> bool) (s : string) : bool :=
  forallb pred (list_ascii_of_string s).

(** A digit string, and a word: letters, digits and underscores after a
    first character that is a letter or an underscore. *)
Definition digits (s : string) : Prop := all_chars isdigit s = true.

Definition word (s : string) : Prop :=
  all_chars is_word_char s = true
  /\ exists c rest,
      s = String c rest /\ (isalpha c || Ascii.eqb c "_") = true.

(** What the lexer promises of a token, by its kind. *)
Definition token_ok (t : Token) : Prop :=
  let val := tok_val t in
  match tok_kind t with
  | IDENTIFIER =>
      word val /\ KEYWORDS val = None
      /\ val <> "true" /\ val <> "false" /\ val <> "null"
  | BOOL_LIT => val = "true" \/ val = "false"
  | NULL_LIT => val = "null"
  | INT_LIT => digits val /\ val <> EmptyString
  | FLOAT_LIT =>
      exists whole frac,
        val = (whole ++ "." ++ frac)%string /\ digits whole /\ digits frac
  | STR_LIT =>
      2 <= String.length val
      /\ String.get 0 val = Some dquote
      /\ String.get (String.length val - 1) val = Some dquote
  | ATTR_ACCESS => exists attr, val = ("." ++ attr)%string /\ word attr
  | BREAK | CATCH | CONTINUE | ELSE | FN | FOR | IF | IN | LET | RETURN | TRY
  | WHILE => KEYWORDS val = Some (tok_kind t)
  | COMMA | COLON | EQ | LEFT_BRACE | LEFT_PAREN | LEFT_SQUARE_BRACKET
  | RIGHT_BRACE | RIGHT_PAREN | RIGHT_SQUARE_BRACKET | SEMICOLON =>
      exists c, val = String c EmptyString /\ SYNTAX c = Some (tok_kind t)
  | LINE_COMMENT_START | MULTILINE_COMMENT_START | MULTILINE_COMMENT_END
  | EOF => False
  end.

(** The line and the column of the character at index [p], counted as
    editors do: from 1, a newline character ending its line. *)
Fixpoint position_from (src : string) (p : nat) (line col : nat) : nat * nat :=
  match p, src with
  | S p, String c rest =>
      if Ascii.eqb c newline then position_from rest p (S line) 1
      else position_from rest p line (S col)
  | _, _ => (line, col)
  end.

Definition position (src : string) (p : nat) : nat * nat :=
  position_from src p 1 1.

(** A token that sits in the source where its line and column say. *)
Definition located (src : string) (t : Token) : Prop :=
  exists p,
    (tok_line t, tok_col t) = position src p
    /\ tok_val t = substring p (String.length (tok_val t)) src.

(** A state of the lexer whose line and column are those of its position. *)
Definition tracked (src : string) (s : LexerState) : Prop :=
  (line s, col s) = position src (pos s).

(** What a token function promises about the place of its token: the token
    carries the line and column of the state [s] it started from, its value
    is the slice of the source from there to the state [s'] it stopped in. *)
Definition placed (src : string) (s : LexerState) (tok : Token)
    (s' : LexerState) : Prop :=
  tok_line tok = line s /\ tok_col tok = col s
  /\ pos s <= pos s'
  /\ tok_val tok = substring (pos s) (pos s' - pos s) src
  /\ String.length (tok_val tok) = pos s' - pos s.

End Tokens.

(** ** Vocabulary of the properties of the environment *)

Module Bindings.
Import Nodes Runtime Interpreter.

(** The result of a call of a closure, given the outcome of its body. *)
Definition call_result (r : result unit) : result val :=
  match r with
  | Ok _ => Ok VNone
  | Raise (Return v) => Ok v
  | Raise _ => Raise (Exc (RuntimeError error_calling))
  end.

(** The statements that are loops to the interpreter. *)
Definition is_loop (stmt : StmtNode) : bool :=
  match stmt with
  | WhileLoopStmt _ _ | IteratorBasedForLoopStmt _ _ _ => true
  | _ => false
  end.

Section WithHost.
Context `{Host}.

(** Every binding of the stack holds a cell that the store has handed out. *)
Definition allocated (env : RuntimeEnv) (st : State) : Prop :=
  forall var, var ∈ _stack env -> cell var < next_cell st.

(** An environment in which [declare] cannot fail on a name that [has]
    does not report: there is a current scope, the names declared in it are
    on the stack, and the cells of the stack are allocated. *)
Definition declarable (env : RuntimeEnv) (st : State) : Prop :=
  _decl_variables_in_scope env <> []
  /\ (forall top name,
        last (_decl_variables_in_scope env) = Some top -> name ∈ top ->
        has name env = true)
  /\ allocated env st.

End WithHost.

(** [fn seven() { return 7; }] and [fn stop() { break; }] *)
Definition seven : FnDefinition :=
  mkFn "seven" [] (BlockStmt [ReturnStmt (Some (IntLitExpr 7))]).

Definition stop : FnDefinition := mkFn "stop" [] (BlockStmt [BreakStmt]).

(** [if (false) {} else if (true) {}], as the parser builds it. *)
Definition else_if : StmtNode :=
  IfStmt (BoolLitExpr false) (BlockStmt [])
    (Some (IfStmt (BoolLitExpr true) (BlockStmt []) None)).

(** [seven(); fn seven() { return 7; }] *)
Definition early_call : list TopLevelNode :=
  [TopStmt (ExprStmt (CallExpr (AccessExpr (fn_name seven)) []));
   TopFn seven].

End Bindings.

(** * Properties *)

(** ** The lexer *)

Module LexerFacts.
Import Lexer Examples.

(** [_next] raises on a finished lexer, and so does [_peek]. *)
Lemma next_at_end src s :
  _is_done src s = true -> _next src s = Raise finished_lexer.
Proof.
  unfold _is_done, _next. intros Hdone.
  apply Nat.leb_le in Hdone.
  assert (Hget : String.get (pos s) src = None).
  { revert Hdone. generalize (pos s). induction src as [|c src IH];
      intros [|p] Hlen; simpl in *; try reflexivity; try lia.
    apply IH. lia. }
  now rewrite Hget.
Qed.

Lemma peek_at_end src s :
  _is_done src s = true -> _peek src s = Raise finished_lexer.
Proof. intros Hdone. unfold _peek. now rewrite next_at_end. Qed.

(** A run of characters that reaches the end of the input stops there. *)
Lemma lex_num_lit_at_end src fuel s whole s' :
  _accept_run src fuel isdigit s = Done whole s' ->
  _is_done src s' = true ->
  _lex_num_lit src fuel s = Raise finished_lexer.
Proof.
  intros Hrun Hdone. unfold _lex_num_lit. rewrite Hrun. simpl.
  now rewrite peek_at_end.
Qed.

(** C3 (the code departs from it): on the source [1] the lexer neither
    returns tokens ending in EOF nor raises a syntax error; [_lex_num_lit]
    peeks past the end of the input and [lex] raises InternalError.  The
    same holds for any source that ends in a run of digits. *)
Theorem lex_digit_at_end_raises_internal_error :
  lex "1" = Raise finished_lexer
  /\ lex "let x = 42" = Raise finished_lexer.
Proof. split; reflexivity. Qed.

(** An unclosed multiline comment runs [_next] past the end as well, unless
    the source happens to end in a slash. *)
Lemma lex_unclosed_comment_raises_internal_error :
  lex "/*" = Raise finished_lexer
  /\ lex "/* a" = Raise finished_lexer
  /\ lex "/* a/" = Raise (SyntaxError "unclosed multiline comment" 1 2).
Proof. repeat split; reflexivity. Qed.

(** The only exception of [_next] is the internal error. *)
Lemma next_raises src s e : _next src s = Raise e -> e = finished_lexer.
Proof.
  unfold _next. destruct (String.get (pos s) src) as [c|].
  - destruct (Ascii.eqb c newline); discriminate.
  - now intros [= <-].
Qed.

(** When the loop of [_lex_str_lit] has found the closing quote it is not
    in an escape, and the loop raises no syntax error. *)
Lemma str_lit_loop_flags src fuel in_escape s flags s' :
  str_lit_loop src fuel in_escape s = Done flags s' ->
  snd flags = true -> fst flags = false.
Proof.
  revert in_escape s. induction fuel as [|fuel IH]; intros in_escape s; simpl.
  - discriminate.
  - destruct (_is_done src s).
    + intros [= <- <-]. discriminate.
    + destruct (_next src s) as [c s1| |]; simpl; try discriminate.
      destruct in_escape; [apply IH|].
      destruct (Ascii.eqb c backslash); [apply IH|].
      destruct (Ascii.eqb c dquote); [|apply IH].
      now intros [= <- <-].
Qed.

Lemma str_lit_loop_raises src fuel in_escape s e :
  str_lit_loop src fuel in_escape s = Raise e -> e = finished_lexer.
Proof.
  revert in_escape s. induction fuel as [|fuel IH]; intros in_escape s; simpl.
  - discriminate.
  - destruct (_is_done src s); [discriminate|].
    destruct (_next src s) as [c s1| |] eqn:Hnext; simpl; try discriminate.
    + destruct in_escape; [apply IH|].
      destruct (Ascii.eqb c backslash); [apply IH|].
      destruct (Ascii.eqb c dquote); [discriminate|apply IH].
    + intros [= <-]. eapply next_raises, Hnext.
Qed.

(** So the second error of [_lex_str_lit] is never raised. *)
Lemma lex_str_lit_never_reports_escape src fuel s line col :
  _lex_str_lit src fuel s <>
  Raise (SyntaxError "unexpected escape character at end of string literal"
           line col).
Proof.
  unfold _lex_str_lit, _ignore.
  destruct (_next src s) as [c s1| |] eqn:Hnext; simpl; try discriminate.
  - destruct (str_lit_loop src fuel false s1)
      as [[in_escape found_close] s2| |] eqn:Hloop; simpl; try discriminate.
    + destruct found_close; simpl; [|discriminate].
      apply str_lit_loop_flags in Hloop; [|reflexivity]. simpl in Hloop.
      rewrite Hloop. discriminate.
    + apply str_lit_loop_raises in Hloop. subst e. discriminate.
  - apply next_raises in Hnext. subst e. discriminate.
Qed.

(** C9 (the code departs from it): when the input ends just after a
    backslash inside a string literal, [lex] reports "unclosed string
    literal", the same error as for an end of input outside an escape, and
    not "unexpected escape character at end of string literal". *)
Theorem lex_eof_in_escape_reports_unclosed_string :
  lex (String dquote ("abc" ++ String backslash EmptyString)) =
    Raise (SyntaxError "unclosed string literal" 1 1)
  /\ lex (String dquote "abc") =
    Raise (SyntaxError "unclosed string literal" 1 1).
Proof. split; reflexivity. Qed.

End LexerFacts.

(** ** The logical built-ins *)

Module BuiltinsFacts.
Import Runtime Builtins.

Section Logical.
Variable bool_of : val -> bool.

(** With two arguments or more, [or] is the first truthy argument, or the
    last argument when there is none. *)
Lemma logical_or_two_or_more arg0 arg1 args :
  _logical_or bool_of arg0 (arg1 :: args) =
  HOk (default (List.last (arg0 :: arg1 :: args) arg0)
         (List.find bool_of (arg0 :: arg1 :: args))).
Proof.
  unfold _logical_or. simpl List.find.
  destruct (bool_of arg0); [reflexivity|].
  change (arg0 :: arg1 :: args) with ([arg0] ++ arg1 :: args).
  assert (Hlast : forall (l : list val) x d,
             last (x :: l) = Some (List.last (x :: l) d)).
  { induction l as [|y l IH]; intros x d; [reflexivity|].
    change (last (x :: y :: l)) with (last (y :: l)).
    change (List.last (x :: y :: l) d) with (List.last (y :: l) d).
    apply IH. }
  rewrite (Hlast args arg1 arg0). reflexivity.
Qed.

Lemma logical_and_two_or_more arg0 arg1 args :
  _logical_and bool_of arg0 (arg1 :: args) =
  HOk (default (List.last (arg0 :: arg1 :: args) arg0)
         (List.find (fun arg => negb (bool_of arg)) (arg0 :: arg1 :: args))).
Proof.
  unfold _logical_and. simpl List.find.
  destruct (bool_of arg0); simpl; [|reflexivity].
  assert (Hlast : forall (l : list val) x d,
             last (x :: l) = Some (List.last (x :: l) d)).
  { induction l as [|y l IH]; intros x d; [reflexivity|].
    change (last (x :: y :: l)) with (last (y :: l)).
    change (List.last (x :: y :: l) d) with (List.last (y :: l) d).
    apply IH. }
  rewrite (Hlast args arg1 arg0). reflexivity.
Qed.

(** C7 (the code departs from it): called with a single argument that is
    falsy, [or] raises IndexError instead of returning that argument, which
    is the last one; [and] does the same with a single truthy argument. *)
Theorem logical_or_and_single_argument arg0 :
  (bool_of arg0 = false -> _logical_or bool_of arg0 [] = HRaise "IndexError")
  /\ (bool_of arg0 = true -> _logical_and bool_of arg0 [] = HRaise "IndexError").
Proof.
  unfold _logical_or, _logical_and.
  split; intros ->; reflexivity.
Qed.

End Logical.

Lemma logical_or_and_single_argument_witness :
  _logical_or (truth (fun _ => true)) (VInt 0) [] = HRaise "IndexError"
  /\ _logical_and (truth (fun _ => true)) (VInt 1) [] = HRaise "IndexError".
Proof.
  split.
  - apply (proj1 (logical_or_and_single_argument _ (VInt 0))). reflexivity.
  - apply (proj2 (logical_or_and_single_argument _ (VInt 1))). reflexivity.
Defined.

End BuiltinsFacts.

(** ** The environment and the scopes *)

Module EnvFacts.
Import Nodes Runtime Interpreter Scopes.

Section WithHost.
Context `{Host}.

(** *** Inversion of the combinators *)

Lemma ebind_Some {A B} (m : eval_result A) (k : A -> State -> eval_result B)
    r st :
  ebind m k = Some (r, st) ->
  (exists x, m = Some (Raise x, st) /\ r = Raise x)
  \/ (exists a st1, m = Some (Ok a, st1) /\ k a st1 = Some (r, st)).
Proof.
  unfold ebind. destruct m as [[[a|x] st1]|]; intros Hm; try discriminate.
  - right. eauto.
  - left. injection Hm as <- <-. eauto.
Qed.

Lemma sbind_Some {A B} (m : exec_result A)
    (k : A -> RuntimeEnv -> State -> exec_result B) r env st :
  sbind m k = Some (r, env, st) ->
  (exists x, m = Some (Raise x, env, st) /\ r = Raise x)
  \/ (exists a env1 st1,
        m = Some (Ok a, env1, st1) /\ k a env1 st1 = Some (r, env, st)).
Proof.
  unfold sbind. destruct m as [[[[a|x] env1] st1]|]; intros Hm;
    try discriminate.
  - right. eauto.
  - left. injection Hm as <- <- <-. eauto.
Qed.

Lemma in_env_Some {A} env0 (m : eval_result A) r env st :
  in_env env0 m = Some (r, env, st) -> m = Some (r, st) /\ env = env0.
Proof.
  unfold in_env. destruct m as [[r1 st1]|]; intros Hm; try discriminate.
  now injection Hm as <- <- <-.
Qed.

Lemma loop_step_Some (m : exec_result unit) next r env st :
  loop_step m next = Some (r, env, st) ->
  (exists r1 env1 st1,
      m = Some (r1, env1, st1) /\ (r1 = Ok tt \/ r1 = Raise Continue)
      /\ next env1 st1 = Some (r, env, st))
  \/ (m = Some (Raise Break, env, st) /\ r = Ok tt)
  \/ (exists x, m = Some (Raise x, env, st) /\ r = Raise x
                /\ x <> Break /\ x <> Continue).
Proof.
  unfold loop_step.
  destruct m as [[[[[]|x] env1] st1]|]; intros Hm; try discriminate.
  - left. eauto 10.
  - destruct x; try (injection Hm as <- <- <-).
    + right. left. eauto.
    + left. eauto 10.
    + right. right. eexists. repeat split; eauto; discriminate.
    + right. right. eexists. repeat split; eauto; discriminate.
Qed.

(** *** Lists used as stacks *)

Lemma pop_snoc {A} (l : list A) x : pop (l ++ [x]) = Some (x, l).
Proof. unfold pop. now rewrite last_snoc, removelast_last. Qed.

Lemma removelast_insert_last {A} (l : list A) x :
  removelast (<[pred (length l) := x]> l) = removelast l.
Proof.
  destruct (last l) as [y|] eqn:Hlast.
  - apply last_Some in Hlast as [l' ->].
    rewrite length_app, Nat.add_1_r. simpl.
    replace (length l') with (length l' + 0) at 1 by lia.
    rewrite insert_app_r. simpl.
    now rewrite !removelast_last.
  - apply last_None in Hlast. now subst l.
Qed.

Lemma pop_removelast {A} (l : list A) :
  l <> [] -> exists x, pop l = Some (x, removelast l).
Proof.
  intros Hl. unfold pop. destruct (last l) as [x|] eqn:Hlast; [eauto|].
  now apply last_None in Hlast.
Qed.

(** *** The frame of a scope *)

Lemma frame_refl env : frame env env.
Proof. repeat split. exists []. now rewrite app_nil_r. Qed.

Lemma frame_trans env1 env2 env3 :
  frame env1 env2 -> frame env2 env3 -> frame env1 env3.
Proof.
  intros (Ho1 & [e1 Hs1] & Hl1 & Hr1) (Ho2 & [e2 Hs2] & Hl2 & Hr2).
  repeat split; try congruence.
  exists (e1 ++ e2). rewrite Hs2, Hs1. now rewrite app_assoc.
Qed.

Lemma frame_push name v env st : frame env (fst (push name v env st)).
Proof. unfold push. simpl. repeat split. eauto. Qed.

Lemma frame_declare name v env st r env' st' :
  declare name v env st = (r, env', st') -> frame env env'.
Proof.
  unfold declare.
  destruct (last (_decl_variables_in_scope env)) as [top|].
  - destruct (bool_decide (name ∈ top)).
    + intros [= <- <- <-]. apply frame_refl.
    + simpl. intros [= <- <- <-]. repeat split; simpl.
      * eauto.
      * apply length_insert.
      * apply removelast_insert_last.
  - intros [= <- <- <-]. apply frame_refl.
Qed.

Lemma frame_declare_params params env st r env' st' :
  declare_params params env st = (r, env', st') -> frame env env'.
Proof.
  revert env st. induction params as [|[param arg] params IH]; intros env st.
  - simpl. intros [= <- <- <-]. apply frame_refl.
  - simpl. destruct (declare param arg env st) as [[[[]|x] env1] st1] eqn:Hd.
    + intros Hrest. eapply frame_trans.
      * eapply frame_declare, Hd.
      * eapply IH, Hrest.
    + intros [= <- <- <-]. eapply frame_declare, Hd.
Qed.

(** The [finally] block of a scope undoes what such a body did: the
    environment after [with env.enter_scope()] is the one before it. *)
Lemma leave_frame env env1 :
  frame (enter env) env1 -> leave env1 = (Ok tt, env).
Proof.
  intros (Ho & [ext Hs] & Hl & Hr). simpl in *.
  unfold leave. rewrite Ho, pop_snoc. simpl.
  rewrite length_app, Nat.add_1_r in Hl.
  rewrite removelast_last in Hr.
  destruct (pop_removelast (_decl_variables_in_scope env1)) as [x ->].
  { intros Hnil. now rewrite Hnil in Hl. }
  rewrite Hs, take_app_length, Hr. now destruct env.
Qed.

Lemma enter_scope_Some {A} (body : RuntimeEnv -> State -> exec_result A)
    env st r env' st' :
  keeps_frame body ->
  enter_scope body env st = Some (r, env', st') ->
  env' = env /\ exists env1, body (enter env) st = Some (r, env1, st').
Proof.
  intros Hbody. unfold enter_scope.
  destruct (body (enter env) st) as [[[r1 env1] st1]|] eqn:Hrun;
    [|discriminate].
  rewrite (leave_frame env env1) by (eapply Hbody, Hrun).
  intros [= <- <- <-]. eauto.
Qed.

Lemma enter_scope_run {A} (body : RuntimeEnv -> State -> exec_result A)
    env st r env1 st' :
  keeps_frame body ->
  body (enter env) st = Some (r, env1, st') ->
  enter_scope body env st = Some (r, env, st').
Proof.
  intros Hbody Hrun. unfold enter_scope. rewrite Hrun.
  now rewrite (leave_frame env env1) by (eapply Hbody, Hrun).
Qed.


(** *** The statements keep the frame *)

Lemma try_except_Some (m : exec_result unit) handler r env st :
  try_except m handler = Some (r, env, st) ->
  (exists e env1 st1,
      m = Some (Raise (Exc e), env1, st1)
      /\ (forall msg, e <> InternalError msg)
      /\ handler e env1 st1 = Some (r, env, st))
  \/ (m = Some (r, env, st)
      /\ forall e, r = Raise (Exc e) -> exists msg, e = InternalError msg).
Proof.
  unfold try_except.
  destruct m as [[[[[]|x] env1] st1]|]; intros Hm; try discriminate.
  - right. split; [assumption|]. injection Hm as <- <- <-. discriminate.
  - destruct x as [| |v|e].
    1-3: right; split; [assumption|]; injection Hm as <- <- <-; discriminate.
    destruct e as [msg|msg|cls].
    + left. exists (RuntimeError msg), env1, st1.
      repeat split; auto; discriminate.
    + right. split; [assumption|]. injection Hm as <- <- <-.
      intros e [= <-]. eauto.
    + left. exists (PyException cls), env1, st1.
      repeat split; auto; discriminate.
Qed.

Lemma catch_return_Some (m : exec_result unit) r env st :
  catch_return m = Some (r, env, st) ->
  exists r1, m = Some (r1, env, st).
Proof.
  unfold catch_return.
  destruct m as [[[[[]|x] env1] st1]|]; intros Hm; try discriminate.
  - injection Hm as <- <- <-. eauto.
  - destruct x; injection Hm as <- <- <-; eauto.
Qed.

Section Bodies.

Variable visit_block : block_visitor.
Hypothesis visit_block_frame : forall block, keeps_frame (visit_block block).

Lemma if_branches_frame cond if_branch else_branch :
  keeps_frame (if_branches visit_block cond if_branch else_branch).
Proof.
  intros env st r env' st'. unfold if_branches.
  destruct (truthy cond (host st)); [apply visit_block_frame|].
  destruct else_branch; [apply visit_block_frame|].
  intros [= <- <- <-]. apply frame_refl.
Qed.

Lemma bind_item_frame name item body_block :
  keeps_frame (bind_item visit_block name item body_block).
Proof.
  intros env st r env' st'. unfold bind_item.
  pose proof (frame_push (AStr name) item env st) as Hpush.
  destruct (push (AStr name) item env st) as [env1 st1]. simpl in Hpush.
  intros Hrun. eapply frame_trans; [exact Hpush|].
  eapply visit_block_frame, Hrun.
Qed.

Lemma catch_clause_frame err e catch_block :
  keeps_frame (catch_clause visit_block err e catch_block).
Proof.
  intros env st r env' st'. unfold catch_clause.
  assert (Hbound : frame env
            (fst (if attr_truthy err then push err (VExc e) env st
                  else (env, st)))).
  { destruct (attr_truthy err); [apply frame_push|apply frame_refl]. }
  destruct (if attr_truthy err then push err (VExc e) env st else (env, st))
    as [env1 st1]. simpl in Hbound.
  destruct catch_block as [|s|catch_block].
  1-2: intros [= <- <- <-]; exact Hbound.
  intros Hrun. eapply frame_trans; [exact Hbound|].
  eapply visit_block_frame, Hrun.
Qed.

Lemma call_body_frame decl args :
  keeps_frame (call_body visit_block decl args).
Proof.
  intros env st r env' st'. unfold call_body. intros Hrun.
  apply sbind_Some in Hrun as [(x & [= Hd] & ->)|(a & env1 & st1 & [= Hd] & Hrun)].
  - eapply frame_declare_params, Hd.
  - apply catch_return_Some in Hrun as [r1 Hrun].
    eapply frame_trans.
    + eapply frame_declare_params, Hd.
    + eapply visit_block_frame, Hrun.
Qed.

End Bodies.

Lemma visitors_keep_frame n :
  (forall stmt, keeps_frame (_visit_stmt n stmt))
  /\ (forall block, keeps_frame (_visit_block_stmt n block))
  /\ (forall cond body, keeps_frame (_visit_while_loop_stmt n cond body))
  /\ (forall name it body, keeps_frame (for_items n name it body)).
Proof.
  induction n as [|n (IHs & IHb & IHw & IHf)].
  { repeat split; repeat intro; discriminate. }
  assert (Hloop : forall m next env r env' st',
             loop_step m next = Some (r, env', st') ->
             (forall r1 env1 st1, m = Some (r1, env1, st1) -> env1 = env) ->
             keeps_frame next -> frame env env').
  { intros m next env r env' st' Hstep Hm Hnext.
    apply loop_step_Some in Hstep
      as [(r1 & env1 & st1 & Hrun & _ & Hrest)|[[Hrun _]|(x & Hrun & _)]].
    - apply Hm in Hrun as ->. eapply Hnext, Hrest.
    - apply Hm in Hrun as ->. apply frame_refl.
    - apply Hm in Hrun as ->. apply frame_refl. }
  split; [|split; [|split]].
  - intros stmt env st r env' st'. simpl. destruct stmt.
    + intros Hrun. apply enter_scope_Some in Hrun as [-> _]; [|apply IHb].
      apply frame_refl.
    + intros Hrun.
      apply sbind_Some in Hrun as [(x & Hev & ->)|(a & env1 & st1 & Hev & Hrun)];
        apply in_env_Some in Hev as [_ ->].
      * apply frame_refl.
      * injection Hrun as Hrun. eapply frame_declare, Hrun.
    + intros Hrun.
      apply sbind_Some in Hrun as [(x & Hev & ->)|(a & env1 & st1 & Hev & Hrun)];
        apply in_env_Some in Hev as [_ ->].
      * apply frame_refl.
      * apply enter_scope_Some in Hrun as [-> _];
          [apply frame_refl|apply if_branches_frame, IHb].
    + destruct return_val as [e|].
      * intros Hrun.
        apply sbind_Some in Hrun
          as [(x & Hev & ->)|(a & env1 & st1 & Hev & Hrun)];
          apply in_env_Some in Hev as [_ ->].
        -- apply frame_refl.
        -- injection Hrun as <- <- <-. apply frame_refl.
      * intros [= <- <- <-]. apply frame_refl.
    + apply IHw.
    + intros Hrun.
      apply sbind_Some in Hrun as [(x & Hev & ->)|(a & env1 & st1 & Hev & Hrun)];
        apply in_env_Some in Hev as [_ ->]; [apply frame_refl|].
      apply sbind_Some in Hrun as [(x & Hev & ->)|(b & env2 & st2 & Hev & Hrun)];
        apply in_env_Some in Hev as [_ ->]; [apply frame_refl|].
      eapply IHf, Hrun.
    + intros [= <- <- <-]. apply frame_refl.
    + intros [= <- <- <-]. apply frame_refl.
    + intros Hrun.
      apply try_except_Some in Hrun
        as [(e & env1 & st1 & Htry & _ & Hcatch)|[Htry _]].
      * apply enter_scope_Some in Htry as [-> _]; [|apply IHb].
        apply enter_scope_Some in Hcatch as [-> _];
          [apply frame_refl|apply catch_clause_frame, IHb].
      * apply enter_scope_Some in Htry as [-> _]; [|apply IHb].
        apply frame_refl.
    + intros Hrun.
      apply sbind_Some in Hrun as [(x & Hev & ->)|(a & env1 & st1 & Hev & Hrun)];
        apply in_env_Some in Hev as [_ ->]; [apply frame_refl|].
      injection Hrun as <- <- <-. apply frame_refl.
  - intros block env st r env' st'. simpl.
    destruct block as [[|stmt stmts]| | | | | | | | |];
      try (intros [= <- <- <-]; apply frame_refl).
    intros Hrun.
    apply sbind_Some in Hrun as [(x & Hev & ->)|(a & env1 & st1 & Hev & Hrun)].
    + eapply IHs, Hev.
    + eapply frame_trans; [eapply IHs, Hev|eapply IHb, Hrun].
  - intros cond body env st r env' st'. simpl. intros Hrun.
    apply sbind_Some in Hrun as [(x & Hev & ->)|(a & env1 & st1 & Hev & Hrun)];
      apply in_env_Some in Hev as [_ ->]; [apply frame_refl|].
    destruct (truthy a (host st1)).
    + eapply Hloop; [exact Hrun| |apply IHw].
      intros r1 env1 st2 Hscope.
      now apply enter_scope_Some in Hscope as [-> _]; [|apply IHb].
    + injection Hrun as <- <- <-. apply frame_refl.
  - intros name it body env st r env' st'. simpl. intros Hrun.
    apply sbind_Some in Hrun as [(x & Hev & ->)|(a & env1 & st1 & Hev & Hrun)];
      apply in_env_Some in Hev as [_ ->]; [apply frame_refl|].
    destruct a as [item|].
    + eapply Hloop; [exact Hrun| |apply IHf].
      intros r1 env1 st2 Hscope.
      now apply enter_scope_Some in Hscope as [-> _];
        [|apply bind_item_frame, IHb].
    + injection Hrun as <- <- <-. apply frame_refl.
Qed.

Lemma visit_block_keeps_frame n block :
  keeps_frame (_visit_block_stmt n block).
Proof. apply visitors_keep_frame. Qed.

Lemma visit_stmt_keeps_frame n stmt : keeps_frame (_visit_stmt n stmt).
Proof. apply visitors_keep_frame. Qed.


(** Every body that the interpreter runs in a scope keeps the frame. *)
Lemma scope_body_keeps_frame A body : scope_body A body -> keeps_frame body.
Proof.
  intros [n stmts|n cond if_branch else_branch|n body_block
         |n name item body_block|n try_block|n err e catch_block|n decl args].
  - apply visit_block_keeps_frame.
  - apply if_branches_frame, visit_block_keeps_frame.
  - apply visit_block_keeps_frame.
  - apply bind_item_frame, visit_block_keeps_frame.
  - apply visit_block_keeps_frame.
  - apply catch_clause_frame, visit_block_keeps_frame.
  - apply call_body_frame, visit_block_keeps_frame.
Qed.

(** The environment after a scope is the environment before it. *)
Lemma scope_exit_restores_env A body env st r env' st' :
  scope_body A body ->
  enter_scope body env st = Some (r, env', st') -> env' = env.
Proof.
  intros Hbody Hrun.
  now apply enter_scope_Some in Hrun as [-> _];
    [|apply scope_body_keeps_frame].
Qed.

(** C8: for every scope that the evaluation enters (block, if branch, loop
    iteration, try block, catch handler, function call), the length of the
    binding stack and the length of the stack of declared-name sets after
    the scope exits are those at its entry, whatever the outcome [r] of the
    body: normal, break, continue, return or an error. *)
Theorem scope_exit_restores_lengths A body env st r env' st' :
  scope_body A body ->
  enter_scope body env st = Some (r, env', st') ->
  length (_stack env') = length (_stack env)
  /\ length (_decl_variables_in_scope env')
     = length (_decl_variables_in_scope env).
Proof.
  intros Hbody Hrun.
  now rewrite (scope_exit_restores_env A body env st r env' st' Hbody Hrun).
Qed.

End WithHost.

(** A block that declares variables, runs a nested block and then breaks,
    entered from an environment with one binding. *)
Lemma scope_exit_restores_lengths_witness :
  let env := fst (push (AStr "a") VNone (RuntimeEnv_init [] [] [])
                    SmallHost.empty_state) in
  let st := snd (push (AStr "a") VNone (RuntimeEnv_init [] [] [])
                   SmallHost.empty_state) in
  let body :=
    _visit_block_stmt 8
      (BlockStmt [VarDeclStmt "x" (IntLitExpr 1);
                  BlockStmt [VarDeclStmt "y" (IntLitExpr 2)];
                  VarDeclStmt "z" (IntLitExpr 3);
                  BreakStmt]) in
  match enter_scope body env st with
  | Some (r, env', st') =>
      r = Raise Break
      /\ length (_stack env') = 1
      /\ length (_decl_variables_in_scope env') = 1
  | None => False
  end.
Proof.
  intros env st body.
  destruct (enter_scope body env st) as [[[r env'] st']|] eqn:Hrun.
  - pose proof (scope_exit_restores_lengths _ body env st r env' st'
                  (scope_block 8 _) Hrun) as Hlengths.
    split; [|exact Hlengths].
    vm_compute in Hrun. now injection Hrun as <- _ _.
  - vm_compute in Hrun. discriminate.
Defined.

End EnvFacts.

(** ** Variables: lookup, assignment, declaration *)

Module VarFacts.
Import Nodes Runtime Interpreter Scopes EnvFacts.

Section WithHost.
Context `{Host}.

Lemma attr_eqb_true a name : attr_eqb a name = true <-> a = AStr name.
Proof.
  destruct a as [|s|node]; simpl; split; try discriminate.
  - intros Heq. apply String.eqb_eq in Heq. now subst.
  - intros [= ->]. apply String.eqb_refl.
Qed.

Lemma cells_of_app name l1 l2 :
  cells_of name (l1 ++ l2) = cells_of name l2 ++ cells_of name l1.
Proof.
  unfold cells_of. now rewrite reverse_app, filter_app, map_app.
Qed.

Lemma elem_of_cells_of name stack c :
  c ∈ cells_of name stack <->
  exists var, var ∈ stack /\ Runtime.name var = AStr name /\ cell var = c.
Proof.
  unfold cells_of. rewrite list_elem_of_In, in_map_iff. split.
  - intros (var & Hc & Hin). apply list_elem_of_In, list_elem_of_filter in Hin as [Hname Hin].
    rewrite elem_of_reverse in Hin. apply attr_eqb_true in Hname.
    exists var. auto.
  - intros (var & Hin & Hname & Hc). exists var. split; [assumption|].
    apply list_elem_of_In, list_elem_of_filter. split.
    + now apply attr_eqb_true.
    + now rewrite elem_of_reverse.
Qed.

Lemma has_cells_of name env :
  has name env = true <-> cells_of name (_stack env) <> [].
Proof.
  unfold has. rewrite existsb_exists. split.
  - intros (var & Hin & Hname) Hnil.
    assert (Hc : cell var ∈ cells_of name (_stack env)).
    { apply elem_of_cells_of. exists var. repeat split; [now apply list_elem_of_In|now apply attr_eqb_true]. }
    rewrite Hnil in Hc. inversion Hc.
  - intros Hne. destruct (cells_of name (_stack env)) as [|c cs] eqn:Hcs; [congruence|].
    assert (Hc : c ∈ cells_of name (_stack env)) by (rewrite Hcs; left).
    apply elem_of_cells_of in Hc as (var & Hin & Hname & _).
    exists var. split; [now apply list_elem_of_In|now apply attr_eqb_true].
Qed.

Lemma foldl_set_cell (v : val) cs (st : State) :
  let st' := foldl (fun st c => set_cell st c v) st cs in
  next_cell st' = next_cell st /\ host st' = host st
  /\ forall c, cells st' !!! c = if bool_decide (c ∈ cs) then v else cells st !!! c.
Proof.
  revert st. induction cs as [|c0 cs IH]; intros st; simpl.
  - repeat split. 
  - destruct (IH (set_cell st c0 v)) as (Hn & Hh & Hc). simpl in *.
    repeat split; [exact Hn|exact Hh|]. intros c. rewrite Hc.
    destruct (decide (c ∈ cs)) as [Hin|Hnin].
    + rewrite !bool_decide_eq_true_2; [reflexivity|now right|assumption].
    + rewrite (bool_decide_eq_false_2 _ Hnin). destruct (decide (c = c0)) as [->|Hne].
      * rewrite bool_decide_eq_true_2 by left. apply lookup_total_insert_eq.
      * rewrite bool_decide_eq_false_2.
        -- now apply lookup_total_insert_ne.
        -- intros Hin. apply elem_of_cons in Hin as [?|?]; congruence.
Qed.

(** C5: [name = e] first evaluates [e] (an exception of [e] is the outcome
    and nothing is assigned); then, when some binding of the stack has the
    name, every binding that has it, in whatever scope, holds the value, the
    other cells are unchanged and the value is the result; when no binding
    has the name, the outcome is the runtime error of an undeclared
    variable. *)
Theorem assignment_updates_every_binding n name val env st r st1 :
  _evaluate_expr n val env st = Some (r, st1) ->
  match r with
  | Raise x =>
      _evaluate_expr (S n) (AssignmentExpr name val) env st
      = Some (Raise x, st1)
  | Ok v =>
      if has name env then
        exists st2,
          _evaluate_expr (S n) (AssignmentExpr name val) env st
          = Some (Ok v, st2)
          /\ (forall var, var ∈ _stack env -> Runtime.name var = AStr name ->
              cells st2 !!! cell var = v)
          /\ (forall c,
                (forall var, var ∈ _stack env ->
                             Runtime.name var = AStr name -> cell var <> c) ->
                cells st2 !!! c = cells st1 !!! c)
          /\ next_cell st2 = next_cell st1 /\ host st2 = host st1
      else
        _evaluate_expr (S n) (AssignmentExpr name val) env st
        = Some (Raise (Exc (RuntimeError
                              (cannot_assign_to_undeclared_variable name))),
                st1)
  end.
Proof.
  intros Hval. simpl. rewrite Hval. simpl.
  destruct r as [v|x]; [|reflexivity].
  unfold assign.
  destruct (has name env) eqn:Hhas.
  - apply has_cells_of in Hhas.
    destruct (cells_of name (_stack env)) as [|c0 cs] eqn:Hcs; [congruence|].
    rewrite <- Hcs.
    destruct (foldl_set_cell v (cells_of name (_stack env)) st1)
      as (Hnext & Hhost & Hcells).
    eexists. split; [reflexivity|]. repeat split; try assumption.
    + intros var Hin Hname. rewrite Hcells, bool_decide_eq_true_2;
        [reflexivity|]. apply elem_of_cells_of. eauto.
    + intros c Hother. rewrite Hcells, bool_decide_eq_false_2; [reflexivity|].
      intros (var & Hin & Hname & Hc)%elem_of_cells_of.
      now apply (Hother var).
  - assert (Hnil : cells_of name (_stack env) = []).
    { destruct (cells_of name (_stack env)) eqn:Hcs; [reflexivity|].
      assert (Hhas' : has name env = true)
        by (apply has_cells_of; rewrite Hcs; discriminate).
      congruence. }
    now rewrite Hnil.
Qed.

(** C10: in an iteration of a for-each loop the variable is pushed on the
    binding stack and the set of declared names of the iteration's scope is
    still empty; so a [let] of the same name at the head of the body, once
    its initializer has a value, raises no redeclaration error: it adds a
    second binding on top of the loop's, which [lookup] finds first, and the
    rest of the body of that iteration runs with it. *)
Theorem for_each_variable_may_be_redeclared n name item val rest env st v st2 :
  let env1 := fst (push (AStr name) item (enter env) st) in
  let st1 := snd (push (AStr name) item (enter env) st) in
  _evaluate_expr n val env1 st1 = Some (Ok v, st2) ->
  last (_decl_variables_in_scope env1) = Some ∅
  /\ exists env3 st3,
      declare name v env1 st2 = (Ok tt, env3, st3)
      /\ _stack env3
         = _stack env ++ [mkVar (AStr name) (next_cell st);
                          mkVar (AStr name) (next_cell st2)]
      /\ lookup name env3 st3 = Ok v
      /\ bind_item (_visit_block_stmt (S (S n))) name item
           (BlockStmt (VarDeclStmt name val :: rest)) (enter env) st
         = _visit_block_stmt (S n) (BlockStmt rest) env3 st3.
Proof.
  intros env1 st1 Hval.
  assert (Hlast : last (_decl_variables_in_scope env1) = Some ∅).
  { subst env1. simpl. apply last_snoc. }
  split; [exact Hlast|].
  unfold declare. rewrite Hlast.
  rewrite bool_decide_eq_false_2 by apply not_elem_of_empty.
  simpl. eexists _, _. split; [reflexivity|]. simpl.
  split; [now rewrite <- app_assoc|]. split.
  - unfold lookup. simpl. rewrite cells_of_app. unfold cells_of at 1. simpl.
    rewrite !reverse_cons, reverse_nil. simpl.
    rewrite !filter_cons, filter_nil. simpl.
    rewrite !decide_True by apply String.eqb_refl. simpl.
    now rewrite lookup_total_insert_eq.
  - unfold bind_item. fold env1 st1.
    change (push (AStr name) item (enter env) st) with (env1, st1).
    cbn [_visit_block_stmt _visit_stmt]. rewrite Hval. simpl.
    unfold declare. rewrite Hlast.
    rewrite bool_decide_eq_false_2 by apply not_elem_of_empty.
    reflexivity.
Qed.

End WithHost.

(** [x] is bound in two scopes; [x = 7] reaches both bindings. *)
Lemma assignment_updates_every_binding_witness :
  let outer :=
    push (AStr "x") (VInt 1) (RuntimeEnv_init [] [] []) SmallHost.empty_state in
  let inner := push (AStr "x") (VInt 2) (enter (fst outer)) (snd outer) in
  exists st2,
    _evaluate_expr 2 (AssignmentExpr "x" (IntLitExpr 7)) (fst inner) (snd inner)
    = Some (Ok (VInt 7), st2)
    /\ cells st2 !!! 0 = VInt 7 /\ cells st2 !!! 1 = VInt 7.
Proof.
  intros outer inner.
  pose proof (assignment_updates_every_binding 1 "x" (IntLitExpr 7)
                (fst inner) (snd inner) (Ok (VInt 7)) (snd inner) eq_refl)
    as Hassign.
  assert (Hhas : has "x" (fst inner) = true) by reflexivity.
  cbv beta iota in Hassign. rewrite Hhas in Hassign.
  destruct Hassign as (st2 & Hrun & Hbound & _).
  exists st2. split; [exact Hrun|]. split.
  - apply (Hbound (mkVar (AStr "x") 0)); [|reflexivity].
    apply list_elem_of_In. now left.
  - apply (Hbound (mkVar (AStr "x") 1)); [|reflexivity].
    apply list_elem_of_In. right. now left.
Defined.

(** The first iteration of [for (let x in [1, 2]) { let x = 5; }]. *)
Lemma for_each_variable_may_be_redeclared_witness :
  let env := RuntimeEnv_init [] [] [] in
  let st := SmallHost.empty_state in
  let env1 := fst (push (AStr "x") (VInt 1) (enter env) st) in
  let st1 := snd (push (AStr "x") (VInt 1) (enter env) st) in
  exists env3 st3,
    declare "x" (VInt 5) env1 st1 = (Ok tt, env3, st3)
    /\ _stack env3 = [mkVar (AStr "x") 0; mkVar (AStr "x") 1]
    /\ lookup "x" env3 st3 = Ok (VInt 5).
Proof.
  intros env st env1 st1.
  destruct (for_each_variable_may_be_redeclared 1 "x" (VInt 1) (IntLitExpr 5)
              [] env st (VInt 5) st1 eq_refl)
    as (_ & env3 & st3 & Hdeclare & Hstack & Hlookup & _).
  exists env3, st3. auto.
Defined.

End VarFacts.

(** ** Control flow: try/catch and calls *)

Module ControlFacts.
Import Nodes Runtime Interpreter Parser Scopes Examples EnvFacts.

Section WithHost.
Context `{Host}.

(** X18: a try statement whose fields are as [_parse_try_stmt] sets them,
    the catch block in [catch_block].  Let the try block, run in its scope,
    end with the outcome [r].  When [r] is a break, continue or return
    transfer, it is the outcome of the try statement, whose catch block does
    not run.  When [r] is a runtime error, the try statement continues as
    its catch block, run in a new scope with the error bound to the error
    variable, if there is one.  And when the body of a function starts with
    the try statement and [r] is the transfer of [return v], the call of the
    function returns [v]. *)
Theorem try_propagates_transfers_and_catches_errors
    n try_block catch_block err env st r env1 st1 :
  let try_stmt := TryStmt try_block (ANode catch_block) err in
  enter_scope (_visit_block_stmt n try_block) env st = Some (r, env1, st1) ->
  (r = Raise Break \/ r = Raise Continue \/ (exists v, r = Raise (Return v)) ->
   _visit_stmt (S n) try_stmt env st = Some (r, env1, st1))
  /\ (forall msg, r = Raise (Exc (RuntimeError msg)) ->
      _visit_stmt (S n) try_stmt env st
      = enter_scope (fun env st =>
          let '(env, st) :=
            if attr_truthy err
            then push err (VExc (RuntimeError msg)) env st
            else (env, st) in
          _visit_block_stmt n catch_block env st) env1 st1)
  /\ (forall decl captured_env args st0 rest v,
      body_block decl = BlockStmt (try_stmt :: rest) ->
      length (param_names decl) = length args ->
      declare_params (zip (param_names decl) args) (enter (copy captured_env))
        st0 = (Ok tt, env, st) ->
      r = Raise (Return v) ->
      compiled (S (S (S n))) decl captured_env args st0 = Some (Ok v, st1)).
Proof.
  intros try_stmt Htry.
  assert (Htransfer :
            r = Raise Break \/ r = Raise Continue
            \/ (exists v, r = Raise (Return v)) ->
            _visit_stmt (S n) try_stmt env st = Some (r, env1, st1)).
  { intros Hr. simpl. rewrite Htry.
    destruct Hr as [->|[->|[v ->]]]; reflexivity. }
  split; [exact Htransfer|]. split.
  - intros msg ->. simpl. rewrite Htry. reflexivity.
  - intros decl captured_env args st0 rest v Hbody Harity Hparams ->.
    cbn [compiled]. rewrite Harity, Nat.eqb_refl. cbn [negb].
    assert (Hcall :
              call_body (_visit_block_stmt (S (S n))) decl args
                (enter (copy captured_env)) st0
              = Some (Ok v, env1, st1)).
    { unfold call_body. rewrite Hparams. cbn [sbind]. rewrite Hbody.
      cbn [_visit_block_stmt]. rewrite Htransfer by eauto. reflexivity. }
    rewrite (enter_scope_run _ _ _ _ _ _
               (call_body_frame _ (visit_block_keeps_frame _) decl args) Hcall).
    reflexivity.
Qed.

(** C4, as the code has it: a try statement in the body of a for loop that
    has a post expression.  [_rewrite_continue_stmts] rebuilds the node with
    the catch block in the field of the error variable, and the name of the
    variable, a string or [None], in the field of the catch block.  When the
    try block, run in its scope, ends with a runtime error, the handler
    binds the error to a variable that the block names, and raises
    AttributeError on the name that it is to run as the catch block: no
    statement of the catch block runs, whatever the block is. *)
Theorem rewritten_try_raises_instead_of_catching
    n try_block catch_block name post env st msg env1 st1 :
  let try_stmt := TryStmt try_block (ANode catch_block) name in
  let rewritten := _rewrite_continue_stmts try_stmt post in
  let moved := ANode (_rewrite_continue_stmts catch_block post) in
  name = ANone \/ (exists text, name = AStr text) ->
  enter_scope (_visit_block_stmt n (_rewrite_continue_stmts try_block post))
    env st
  = Some (Raise (Exc (RuntimeError msg)), env1, st1) ->
  rewritten = TryStmt (_rewrite_continue_stmts try_block post) name moved
  /\ _visit_stmt (S n) rewritten env st
     = Some (Raise AttributeError, env1,
             snd (push moved (VExc (RuntimeError msg)) (enter env1) st1)).
Proof.
  intros try_stmt rewritten moved Hname Htry.
  split; [reflexivity|].
  unfold rewritten, try_stmt. cbn [_rewrite_continue_stmts _visit_stmt].
  rewrite Htry. cbn [try_except].
  unfold enter_scope, catch_clause. fold moved.
  pose proof (frame_push moved (VExc (RuntimeError msg)) (enter env1) st1)
    as Hframe.
  destruct (push moved (VExc (RuntimeError msg)) (enter env1) st1)
    as [env2 st2].
  cbn [fst snd] in *.
  change (attr_truthy moved) with true.
  destruct Hname as [->|[text ->]]; cbv beta iota;
    now rewrite (leave_frame _ _ Hframe).
Qed.

Lemma evaluate_exprs_in_order n exprs env st r st1 :
  evaluate_exprs n exprs env st = Some (r, st1) ->
  Reference.in_order env exprs st r st1.
Proof.
  revert exprs st r st1. induction n as [|n IH]; intros exprs st r st1;
    [discriminate|]. simpl.
  destruct exprs as [|expr exprs].
  - intros [= <- <-]. constructor.
  - intros Hrun.
    apply ebind_Some in Hrun as [(x & Hexpr & ->)|(v & st2 & Hexpr & Hrun)].
    + eapply Reference.in_order_raise, Hexpr.
    + apply ebind_Some in Hrun as [(x & Hrest & ->)|(vs & st3 & Hrest & Hrun)].
      * apply (Reference.in_order_cons env n expr exprs st v st2 (Raise x) st1
                 Hexpr (IH _ _ _ _ Hrest)).
      * injection Hrun as <- <-.
        apply (Reference.in_order_cons env n expr exprs st v st2 (Ok vs) st3
                 Hexpr (IH _ _ _ _ Hrest)).
Qed.

(** C6, as the code has it: a call evaluates the argument expressions from
    left to right first; when none of them raises, it evaluates the callee
    in the state the last argument left, and then calls the value of the
    callee on the values of the arguments.  An exception of an argument or
    of the callee is the outcome of the call expression. *)
Theorem call_evaluates_arguments_then_callee n callee args env st r st' :
  _evaluate_expr n (CallExpr callee args) env st = Some (r, st') ->
  exists ra st1,
    Reference.in_order env args st ra st1
    /\ match ra with
       | Raise x => r = Raise x /\ st' = st1
       | Ok vs =>
           exists m rf st2,
             _evaluate_expr m callee env st1 = Some (rf, st2)
             /\ match rf with
                | Raise x => r = Raise x /\ st' = st2
                | Ok fn => call_fn (compiled m) fn vs st2 = Some (r, st')
                end
       end.
Proof.
  destruct n as [|n]; [discriminate|]. simpl. intros Hrun.
  apply ebind_Some in Hrun as [(x & Hargs & ->)|(vs & st1 & Hargs & Hrun)].
  - exists (Raise x), st'. split; [|auto].
    eapply evaluate_exprs_in_order, Hargs.
  - exists (Ok vs), st1. split; [eapply evaluate_exprs_in_order, Hargs|].
    apply ebind_Some in Hrun as [(x & Hcallee & ->)|(fn & st2 & Hcallee & Hrun)].
    + exists n, (Raise x), st'. auto.
    + exists n, (Ok fn), st2. auto.
Qed.

End WithHost.

(** [fn f() { try { return 42; } catch (e) { return -1; } }], called. *)
Lemma try_propagates_transfers_and_catches_errors_witness :
  let try_block := BlockStmt [ReturnStmt (Some (IntLitExpr 42))] in
  let catch_block := BlockStmt [ReturnStmt (Some (IntLitExpr (-1)))] in
  let decl :=
    mkFn "f" [] (BlockStmt [TryStmt try_block (ANode catch_block) (AStr "e")]) in
  let env := RuntimeEnv_init [] [] [] in
  compiled 6 decl env [] SmallHost.empty_state
  = Some (Ok (VInt 42), SmallHost.empty_state).
Proof.
  intros try_block catch_block decl env.
  refine (proj2 (proj2
    (try_propagates_transfers_and_catches_errors 3 try_block catch_block
       (AStr "e") (enter (copy env)) SmallHost.empty_state
       (Raise (Return (VInt 42))) (enter (copy env)) SmallHost.empty_state _))
    decl env [] SmallHost.empty_state [] (VInt 42) _ _ _ _);
    reflexivity.
Defined.

(** The try statement of [for (...; ...; i = add(i, 1)) { try { missing; }
    catch { n = add(n, 1); } }], after the built-in functions and
    [let n = 0;]. *)
Lemma rewritten_try_raises_instead_of_catching_witness :
  let moved := ANode (_rewrite_continue_stmts (BlockStmt [count]) loop_post) in
  _visit_stmt 4 (_rewrite_continue_stmts counted_failure loop_post)
    counting.1 counting.2
  = Some (Raise AttributeError, counting.1,
          snd (push moved (VExc (RuntimeError (undefined_variable "missing")))
                 (enter counting.1) counting.2)).
Proof.
  intros moved.
  refine (proj2 (rewritten_try_raises_instead_of_catching 3
                   (BlockStmt [ExprStmt (AccessExpr "missing")])
                   (BlockStmt [count]) ANone loop_post counting.1 counting.2
                   (undefined_variable "missing") counting.1 counting.2
                   (or_introl eq_refl) _)).
  vm_compute. reflexivity.
Defined.

(** C6 as stated fails: if the callee were evaluated first, [x] would hold
    2 after the call; the interpreter leaves 1 in it, because the callee is
    evaluated last. *)
Lemma call_callee_first_counterexample :
  let env := fst (push (AStr "x") VNone (RuntimeEnv_init [] [] [])
                    SmallHost.empty_state) in
  let st := snd (push (AStr "x") VNone (RuntimeEnv_init [] [] [])
                   SmallHost.empty_state) in
  x_after (_evaluate_expr 4 assigning_call env st) env = Some (Ok (VInt 1))
  /\ x_after (Reference.call_callee_first 3
                (AssignmentExpr "x" (IntLitExpr 1))
                [AssignmentExpr "x" (IntLitExpr 2)] env st) env
     = Some (Ok (VInt 2))
  /\ _evaluate_expr 4 assigning_call env st
     <> Reference.call_callee_first 3 (AssignmentExpr "x" (IntLitExpr 1))
          [AssignmentExpr "x" (IntLitExpr 2)] env st.
Proof.
  intros env st.
  assert (Hcode : x_after (_evaluate_expr 4 assigning_call env st) env
                  = Some (Ok (VInt 1))) by (vm_compute; reflexivity).
  assert (Hspec : x_after (Reference.call_callee_first 3
                             (AssignmentExpr "x" (IntLitExpr 1))
                             [AssignmentExpr "x" (IntLitExpr 2)] env st) env
                  = Some (Ok (VInt 2))) by (vm_compute; reflexivity).
  split; [exact Hcode|]. split; [exact Hspec|].
  intros Heq. rewrite Heq, Hspec in Hcode. discriminate.
Qed.

(** The same call, read with the theorem: the argument is evaluated from
    the initial state, the callee from the state the argument left. *)
Lemma call_evaluates_arguments_then_callee_witness :
  let env := fst (push (AStr "x") VNone (RuntimeEnv_init [] [] [])
                    SmallHost.empty_state) in
  let st := snd (push (AStr "x") VNone (RuntimeEnv_init [] [] [])
                   SmallHost.empty_state) in
  exists ra st1,
    Reference.in_order env [AssignmentExpr "x" (IntLitExpr 2)] st ra st1
    /\ match ra with
       | Raise x => False
       | Ok vs =>
           exists m rf st2,
             _evaluate_expr m (AssignmentExpr "x" (IntLitExpr 1)) env st1
             = Some (rf, st2)
       end.
Proof.
  intros env st.
  destruct (_evaluate_expr 4 assigning_call env st) as [[r st']|] eqn:Hrun;
    [|vm_compute in Hrun; discriminate].
  destruct (call_evaluates_arguments_then_callee 4 _ _ env st r st' Hrun)
    as (ra & st1 & Hargs & Hrest).
  exists ra, st1. split; [exact Hargs|].
  destruct ra as [vs|x].
  - destruct Hrest as (m & rf & st2 & Hcallee & _). eauto.
  - inversion Hargs as [|n expr exprs st0 x0 st2 Hexpr
                        |n expr exprs st0 v st2 r0 st3 Hexpr Hrest' Hr]; subst.
    + destruct n as [|[|n]]; discriminate.
    + destruct r0; [discriminate|]. inversion Hrest'.
Defined.

End ControlFacts.

(** ** Closures *)

Module ClosureFacts.
Import Nodes Runtime Interpreter Scopes Examples EnvFacts VarFacts.

Section WithHost.
Context `{Host}.

Lemma cells_of_none name stack :
  (forall var, var ∈ stack -> Runtime.name var <> AStr name) ->
  cells_of name stack = [].
Proof.
  intros Hnone. destruct (cells_of name stack) as [|c cs] eqn:Hcs; [reflexivity|].
  assert (Hc : c ∈ cells_of name stack) by (rewrite Hcs; left).
  apply elem_of_cells_of in Hc as (var & Hin & Hname & _).
  now apply Hnone in Hin.
Qed.

Lemma declare_Ok name v env st env' st' :
  declare name v env st = (Ok tt, env', st') ->
  _stack env' = _stack env ++ [mkVar (AStr name) (next_cell st)]
  /\ next_cell st' = S (next_cell st)
  /\ host st' = host st
  /\ cells st' = <[next_cell st := v]> (cells st).
Proof.
  unfold declare. destruct (last (_decl_variables_in_scope env)); [|discriminate].
  destruct (bool_decide _); [discriminate|]. simpl.
  intros [= <- <-]. simpl. auto.
Qed.

Lemma declare_params_Ok params env st env' st' :
  declare_params params env st = (Ok tt, env', st') ->
  (exists ext, _stack env' = _stack env ++ ext
      /\ forall var, var ∈ ext -> exists p, p ∈ params.*1 /\ Runtime.name var = AStr p)
  /\ next_cell st <= next_cell st'
  /\ host st' = host st
  /\ forall c, c < next_cell st -> cells st' !!! c = cells st !!! c.
Proof.
  revert env st. induction params as [|[param arg] params IH]; intros env st; simpl.
  - intros [= <- <-]. repeat split; auto. exists []. rewrite app_nil_r. split; [reflexivity|].
    intros var Hin. inversion Hin.
  - destruct (declare param arg env st) as [[[[]|x] env1] st1] eqn:Hd; [|discriminate].
    intros Hrest. apply declare_Ok in Hd as (Hs & Hn & Hh & Hc).
    apply IH in Hrest as ((ext & Hs' & Hext) & Hn' & Hh' & Hc').
    split; [|split; [lia|split; [congruence|]]].
    + exists (mkVar (AStr param) (next_cell st) :: ext). split.
      * rewrite Hs', Hs. now rewrite <- app_assoc.
      * intros var [->|Hin]%elem_of_cons.
        -- exists param. split; [left|reflexivity].
        -- apply Hext in Hin as (p & Hp & Hname). exists p. split; [now right|assumption].
    + intros c Hlt. rewrite Hc' by lia. rewrite Hc. apply lookup_total_insert_ne. lia.
Qed.

(** C1, as the code has it.  Let [f] be the closure that [_compile_fn]
    builds from [decl] in the environment [env], and [call_env] the
    environment in which a later call of [f] runs its body, from a state
    [st] whose fresh cells are above those of [env].

    - The body runs in [call_env], and a name that is not a parameter is
      bound there to the very cells it was bound to in [env] at definition
      time: what is declared in, or removed from, the original environment
      afterwards does not appear in the call.
    - These cells are shared: the call reads in them the values they hold
      at the time of the call, so an assignment made after the definition
      to a variable bound in [env] is visible in the call; and an assignment
      made in the call to such a variable is visible through [env].
    - A statement that evaluates an expression, calls included, leaves the
      three stacks of its environment as they were: what a call declares
      is not visible in the caller's environment. *)
Theorem closure_copies_stacks_and_shares_cells decl env args st call_env st1 :
  (forall var, var ∈ _stack env -> cell var < next_cell st) ->
  exists captured_env,
    _compile_fn decl env = VFn decl captured_env
    /\ (declare_params (zip (param_names decl) args)
          (enter (copy captured_env)) st = (Ok tt, call_env, st1) ->
        (forall n,
            call_body (_visit_block_stmt n) decl args
              (enter (copy captured_env)) st
            = catch_return (_visit_block_stmt n (body_block decl) call_env st1))
        /\ (forall x, x ∉ param_names decl ->
              cells_of x (_stack call_env) = cells_of x (_stack env)
              /\ lookup x call_env st1 = lookup x env st
              /\ forall v st2,
                  assign x v call_env st1 = (Ok tt, st2) ->
                  lookup x env st2 = Ok v))
    /\ (forall n expr r env' st',
          _visit_stmt n (ExprStmt expr) env st = Some (r, env', st') ->
          env' = env).
Proof.
  intros Hfresh. exists (copy env). split; [reflexivity|]. split.
  - intros Hparams. split.
    { intros n. unfold call_body. now rewrite Hparams. }
    intros x Hx.
    apply declare_params_Ok in Hparams
      as ((ext & Hstack & Hext) & Hnext & Hhost & Hcells).
    simpl in Hstack.
    assert (Hsame : cells_of x (_stack call_env) = cells_of x (_stack env)).
    { rewrite Hstack, cells_of_app, cells_of_none; [reflexivity|].
      intros var Hin Hname. apply Hext in Hin as (p & Hp & Hname').
      assert (p = x) by congruence. subst p.
      apply Hx. apply list_elem_of_fmap in Hp as ([p a] & -> & Hp).
      eapply elem_of_zip_l, Hp. }
    split; [exact Hsame|]. split.
    + unfold lookup. rewrite Hsame.
      destruct (cells_of x (_stack env)) as [|c cs] eqn:Hcs; [reflexivity|].
      f_equal. apply Hcells.
      assert (Hc : c ∈ cells_of x (_stack env)) by (rewrite Hcs; left).
      apply elem_of_cells_of in Hc as (var & Hin & _ & <-). now apply Hfresh.
    + intros v st2. unfold assign, lookup. rewrite Hsame.
      destruct (cells_of x (_stack env)) as [|c cs] eqn:Hcs; [discriminate|].
      intros [= <-]. f_equal.
      destruct (foldl_set_cell v (c :: cs) st1) as (_ & _ & Hset).
      rewrite Hset. now rewrite bool_decide_eq_true_2 by left.
  - intros n expr r env' st'. destruct n as [|n]; [discriminate|]. simpl.
    intros Hrun.
    apply sbind_Some in Hrun as [(x & Hev & ->)|(a & env1 & st2 & Hev & Hrun)];
      apply in_env_Some in Hev as [_ ->]; [reflexivity|].
    now injection Hrun as <- <- <-.
Qed.

End WithHost.

(** C1 as stated fails on the program that the specification gives for it:
    the closure prints 99, the value assigned after its definition, and not
    the 1 that the variable held when the closure was built; and an
    assignment made during a call is seen by the caller afterwards. *)
Lemma closure_sees_later_assignment_counterexample :
  printed_by (evaluate 8 later_assignment SmallHost.BUILT_IN_FNS
                SmallHost.empty_state) = Some [[VInt 99]]
  /\ printed_by (evaluate 8 later_assignment SmallHost.BUILT_IN_FNS
                   SmallHost.empty_state) <> Some [[VInt 1]]
  /\ printed_by (evaluate 8 assignment_in_call SmallHost.BUILT_IN_FNS
                   SmallHost.empty_state) = Some [[VInt 5]].
Proof.
  assert (Hprinted :
            printed_by (evaluate 8 later_assignment SmallHost.BUILT_IN_FNS
                          SmallHost.empty_state) = Some [[VInt 99]])
    by (vm_compute; reflexivity).
  split; [exact Hprinted|]. split.
  - rewrite Hprinted. discriminate.
  - vm_compute. reflexivity.
Qed.

(** [fn f(a) { ... }] defined where [x] is bound, and called with one
    argument: in the call, [x] is the cell of the definition. *)
Lemma closure_copies_stacks_and_shares_cells_witness :
  let defined :=
    push (AStr "x") (VInt 1) (RuntimeEnv_init [] [] []) SmallHost.empty_state in
  let decl := mkFn "f" ["a"] (BlockStmt []) in
  let called :=
    declare_params [("a", VInt 7)] (enter (copy (fst defined))) (snd defined) in
  cells_of "x" (_stack (snd (fst called))) = [0]
  /\ lookup "x" (snd (fst called)) (snd called) = Ok (VInt 1).
Proof.
  intros defined decl called.
  assert (Hfresh : forall var, var ∈ _stack (fst defined) ->
                               cell var < next_cell (snd defined)).
  { intros var Hin. apply list_elem_of_In in Hin.
    destruct Hin as [<-|[]]. simpl. lia. }
  destruct (closure_copies_stacks_and_shares_cells decl (fst defined)
              [VInt 7] (snd defined) (snd (fst called)) (snd called) Hfresh)
    as (captured_env & [= <-] & Hcall & _).
  destruct (Hcall eq_refl) as (_ & Hnames).
  destruct (Hnames "x") as (Hcells & Hlookup & _).
  { intros Hin. apply list_elem_of_In in Hin. destruct Hin as [Heq|[]].
    discriminate. }
  split.
  - rewrite Hcells. reflexivity.
  - rewrite Hlookup. reflexivity.
Defined.

End ClosureFacts.

(** ** Fuel: a run that ends keeps its outcome with more fuel *)

Module FuelFacts.
Import Nodes Runtime Interpreter Scopes EnvFacts.

Section WithHost.
Context `{Host}.

Lemma le_res_refl {A} (x : option A) : le_res x x.
Proof. now intros r. Qed.

Lemma le_res_None {A} (y : option A) : le_res None y.
Proof. intros r. discriminate. Qed.

Lemma ebind_mono {A B} (m m' : eval_result A) (k k' : A -> State -> eval_result B) :
  le_res m m' -> (forall a st, le_res (k a st) (k' a st)) ->
  le_res (ebind m k) (ebind m' k').
Proof.
  intros Hm Hk r. unfold ebind. destruct m as [[[a|x] st]|]; [| |discriminate].
  - rewrite (Hm _ eq_refl). apply Hk.
  - now rewrite (Hm _ eq_refl).
Qed.

Lemma sbind_mono {A B} (m m' : exec_result A)
    (k k' : A -> RuntimeEnv -> State -> exec_result B) :
  le_res m m' -> (forall a env st, le_res (k a env st) (k' a env st)) ->
  le_res (sbind m k) (sbind m' k').
Proof.
  intros Hm Hk r. unfold sbind. destruct m as [[[[a|x] env] st]|]; [| |discriminate].
  - rewrite (Hm _ eq_refl). apply Hk.
  - now rewrite (Hm _ eq_refl).
Qed.

Lemma in_env_mono {A} env (m m' : eval_result A) :
  le_res m m' -> le_res (in_env env m) (in_env env m').
Proof.
  intros Hm r. unfold in_env. destruct m as [[a st]|]; [|discriminate].
  now rewrite (Hm _ eq_refl).
Qed.

Lemma drop_env_mono {A} (m m' : exec_result A) :
  le_res m m' -> le_res (drop_env m) (drop_env m').
Proof.
  intros Hm r. unfold drop_env. destruct m as [[[a env] st]|]; [|discriminate].
  now rewrite (Hm _ eq_refl).
Qed.

Lemma wrap_call_errors_mono (m m' : eval_result val) :
  le_res m m' -> le_res (wrap_call_errors m) (wrap_call_errors m').
Proof.
  intros Hm r. unfold wrap_call_errors. destruct m as [[a st]|]; [|discriminate].
  now rewrite (Hm _ eq_refl).
Qed.

Lemma catch_return_mono (m m' : exec_result unit) :
  le_res m m' -> le_res (catch_return m) (catch_return m').
Proof.
  intros Hm r. unfold catch_return. destruct m as [[[a env] st]|]; [|discriminate].
  now rewrite (Hm _ eq_refl).
Qed.

Lemma loop_step_mono (m m' : exec_result unit) next next' :
  le_res m m' -> (forall env st, le_res (next env st) (next' env st)) ->
  le_res (loop_step m next) (loop_step m' next').
Proof.
  intros Hm Hnext r. unfold loop_step.
  destruct m as [[[[[]|x] env] st]|]; [| |discriminate]; rewrite (Hm _ eq_refl).
  - apply Hnext.
  - destruct x; auto. apply Hnext.
Qed.

Lemma try_except_mono (m m' : exec_result unit) handler handler' :
  le_res m m' -> (forall e env st, le_res (handler e env st) (handler' e env st)) ->
  le_res (try_except m handler) (try_except m' handler').
Proof.
  intros Hm Hh r. unfold try_except.
  destruct m as [[[[[]|x] env] st]|]; [| |discriminate]; rewrite (Hm _ eq_refl).
  - auto.
  - destruct x as [| | |[]]; auto; apply Hh.
Qed.

Lemma enter_scope_mono {A} (body body' : RuntimeEnv -> State -> exec_result A) env st :
  (forall env st, le_res (body env st) (body' env st)) ->
  le_res (enter_scope body env st) (enter_scope body' env st).
Proof.
  intros Hbody r. unfold enter_scope.
  destruct (body (enter env) st) as [[[a env1] st1]|] eqn:Hrun; [|discriminate].
  now rewrite (Hbody _ _ _ Hrun).
Qed.

Lemma call_fn_mono compiled compiled' fn args st :
  (forall decl env args st, le_res (compiled decl env args st) (compiled' decl env args st)) ->
  le_res (call_fn compiled fn args st) (call_fn compiled' fn args st).
Proof.
  intros Hc. unfold call_fn.
  destruct fn; try apply le_res_refl.
  destruct (callable _ _); [|apply le_res_refl].
  apply wrap_call_errors_mono, Hc.
Qed.

Section Bodies.
Variables visit visit' : block_visitor.
Hypothesis Hvisit : forall block env st, le_res (visit block env st) (visit' block env st).

Lemma if_branches_mono cond a b env st :
  le_res (if_branches visit cond a b env st) (if_branches visit' cond a b env st).
Proof.
  unfold if_branches. destruct (truthy _ _); [apply Hvisit|].
  destruct b; [apply Hvisit|apply le_res_refl].
Qed.

Lemma bind_item_mono name item body env st :
  le_res (bind_item visit name item body env st) (bind_item visit' name item body env st).
Proof. unfold bind_item. destruct (push _ _ _ _). apply Hvisit. Qed.

Lemma catch_clause_mono err e catch_block env st :
  le_res (catch_clause visit err e catch_block env st)
         (catch_clause visit' err e catch_block env st).
Proof.
  unfold catch_clause. destruct (if attr_truthy err then _ else _).
  destruct catch_block; try apply le_res_refl. apply Hvisit.
Qed.

Lemma call_body_mono decl args env st :
  le_res (call_body visit decl args env st) (call_body visit' decl args env st).
Proof.
  unfold call_body. apply sbind_mono; [apply le_res_refl|].
  intros _ env1 st1. apply catch_return_mono, Hvisit.
Qed.
End Bodies.

Ltac mono_step :=
  first
    [ apply le_res_refl
    | apply le_res_None
    | apply call_fn_mono; intros
    | apply if_branches_mono; intros
    | apply bind_item_mono; intros
    | apply catch_clause_mono; intros
    | apply call_body_mono; intros
    | apply ebind_mono; [|intros]
    | apply sbind_mono; [|intros]
    | apply in_env_mono
    | apply drop_env_mono
    | apply catch_return_mono
    | apply wrap_call_errors_mono
    | apply loop_step_mono; [|intros]
    | apply try_except_mono; [|intros]
    | apply enter_scope_mono; intros
    | match goal with
      | |- le_res (match ?x with _ => _ end) (match ?x with _ => _ end) =>
          destruct x
      | |- le_res (if ?x then _ else _) (if ?x then _ else _) => destruct x
      end ].

Lemma fuel_mono n : forall m, n <= m ->
  (forall e env st, le_res (_evaluate_expr n e env st) (_evaluate_expr m e env st))
  /\ (forall es env st, le_res (evaluate_exprs n es env st) (evaluate_exprs m es env st))
  /\ (forall d es env st, le_res (evaluate_entries n d es env st) (evaluate_entries m d es env st))
  /\ (forall decl cenv args st, le_res (compiled n decl cenv args st) (compiled m decl cenv args st))
  /\ (forall s env st, le_res (_visit_stmt n s env st) (_visit_stmt m s env st))
  /\ (forall b env st, le_res (_visit_block_stmt n b env st) (_visit_block_stmt m b env st))
  /\ (forall c b env st, le_res (_visit_while_loop_stmt n c b env st) (_visit_while_loop_stmt m c b env st))
  /\ (forall x it b env st, le_res (for_items n x it b env st) (for_items m x it b env st)).
Proof.
  induction n as [|n IH]; intros m Hle.
  { repeat split; intros; apply le_res_None. }
  destruct m as [|m]; [lia|].
  destruct (IH m ltac:(lia)) as (IHe & IHes & IHd & IHc & IHs & IHb & IHw & IHf).
  split; [|split; [|split; [|split; [|split; [|split; [|split]]]]]].
  - intros e env st. cbn [_evaluate_expr]. destruct e; repeat first [solve [auto] | mono_step].
  - intros es env st. cbn [evaluate_exprs]. destruct es; repeat first [solve [auto] | mono_step].
  - intros d es env st. cbn [evaluate_entries]. destruct es as [|[k v] es]; repeat first [solve [auto] | mono_step].
  - intros decl cenv args st. cbn [compiled]. cbv zeta. repeat first [solve [auto] | mono_step].
  - intros s env st. cbn [_visit_stmt]. destruct s; repeat first [solve [auto] | mono_step].
  - intros b env st. cbn [_visit_block_stmt]. destruct b as [[|s l]| | | | | | | | |]; repeat first [solve [auto] | mono_step].
  - intros c b env st. cbn [_visit_while_loop_stmt]. repeat first [solve [auto] | mono_step].
  - intros x it b env st. cbn [for_items]. repeat first [solve [auto] | mono_step].
Qed.

Lemma evaluate_expr_mono n m expr env st r :
  n <= m -> _evaluate_expr n expr env st = Some r ->
  _evaluate_expr m expr env st = Some r.
Proof. intros Hle. now apply (fuel_mono n m Hle). Qed.

Lemma visit_stmt_mono n m stmt env st r :
  n <= m -> _visit_stmt n stmt env st = Some r ->
  _visit_stmt m stmt env st = Some r.
Proof. intros Hle. now apply (fuel_mono n m Hle). Qed.

Lemma visit_block_mono n m block env st r :
  n <= m -> _visit_block_stmt n block env st = Some r ->
  _visit_block_stmt m block env st = Some r.
Proof. intros Hle. now apply (fuel_mono n m Hle). Qed.

Lemma visit_while_mono n m cond body env st r :
  n <= m -> _visit_while_loop_stmt n cond body env st = Some r ->
  _visit_while_loop_stmt m cond body env st = Some r.
Proof. intros Hle. now apply (fuel_mono n m Hle). Qed.

End WithHost.
End FuelFacts.

(** ** The lowering of the C-style for loop *)

Module LoweringFacts.
Import Nodes Runtime Interpreter Parser Scopes Lowering Examples.
Import EnvFacts VarFacts ClosureFacts FuelFacts.

Section WithHost.
Context `{Host}.

(** *** Expressions raise exceptions, never sentinels *)

Lemma ebind_raises_exc {A B} (m : eval_result A) (k : A -> State -> eval_result B) :
  raises_exc m -> (forall a st, raises_exc (k a st)) -> raises_exc (ebind m k).
Proof.
  intros Hm Hk x st Hrun.
  apply ebind_Some in Hrun as [(x' & Hrun & [= ->])|(a & st1 & _ & Hrun)].
  - eapply Hm, Hrun.
  - eapply Hk, Hrun.
Qed.

Lemma from_host_raises_exc {A} handler (r : host_result A * heap) st :
  raises_exc (from_host handler r st).
Proof.
  intros x st'. unfold from_host. destruct (fst r); [discriminate|].
  destruct (handler cls); intros [= <- <-]; eauto.
Qed.

Lemma call_fn_raises_exc compiled fn args st :
  raises_exc (call_fn compiled fn args st).
Proof.
  intros x st'. unfold call_fn, raise, wrap_call_errors.
  destruct fn; try (destruct (callable _ _));
    try apply from_host_raises_exc; try (intros [= <- <-]; eauto).
  destruct (compiled decl captured_env args st) as [[[v|y] st1]|];
    intros [= <- <-]; eauto.
Qed.

Lemma evaluate_raises_exc n :
  (forall e env st, raises_exc (_evaluate_expr n e env st))
  /\ (forall es env st, raises_exc (evaluate_exprs n es env st))
  /\ (forall d es env st, raises_exc (evaluate_entries n d es env st)).
Proof.
  induction n as [|n (IHe & IHes & IHd)].
  { repeat split; intros; intros x st' Hrun; discriminate. }
  assert (Hret : forall A (a : A) st, raises_exc (Some (Ok a, st))).
  { intros A a st x st' Hrun. discriminate. }
  split; [|split].
  - intros e env st. cbn [_evaluate_expr]. destruct e;
      repeat first
        [ apply Hret | apply IHe | apply IHes | apply IHd
        | apply from_host_raises_exc | apply call_fn_raises_exc
        | apply ebind_raises_exc; [|intros] ].
    + unfold assign. destruct (cells_of _ _); intros x st' [= <- <-]; eauto.
    + unfold lookup. destruct (cells_of _ _); intros x st' [= <- <-]; eauto.
  - intros es env st. cbn [evaluate_exprs]. destruct es;
      repeat first [ apply Hret | apply IHe | apply IHes
                   | apply ebind_raises_exc; [|intros] ].
  - intros d es env st. cbn [evaluate_entries]. destruct es as [|[k v] es];
      repeat first [ apply Hret | apply IHe | apply IHd
                   | apply from_host_raises_exc
                   | apply ebind_raises_exc; [|intros] ].
Qed.

Lemma evaluate_expr_raises n e env st x st' :
  _evaluate_expr n e env st = Some (Raise x, st') -> exists e, x = Exc e.
Proof. apply evaluate_raises_exc. Qed.

(** *** Agreement *)

Lemma ebind_ext {A B} (m m' : eval_result A) (k k' : A -> State -> eval_result B) :
  m = m' -> (forall a st, k a st = k' a st) -> ebind m k = ebind m' k'.
Proof.
  intros <- Hk. unfold ebind. destruct m as [[[a|x] st]|]; auto.
Qed.

Lemma agree_app_l X Y env env' : agree (X ++ Y) env env' -> agree X env env'.
Proof. intros Hag x Hx. apply Hag, elem_of_app. now left. Qed.

Lemma agree_app_r X Y env env' : agree (X ++ Y) env env' -> agree Y env env'.
Proof. intros Hag x Hx. apply Hag, elem_of_app. now right. Qed.

Lemma agree_cons x X env env' :
  agree (x :: X) env env' ->
  cells_of x (_stack env) = cells_of x (_stack env') /\ agree X env env'.
Proof.
  intros Hag. split; [apply Hag; left|].
  intros y Hy. apply Hag. now right.
Qed.

Lemma evaluate_agree n :
  (forall e env env' st, agree (names e) env env' ->
      _evaluate_expr n e env st = _evaluate_expr n e env' st)
  /\ (forall es env env' st, agree (flat_map names es) env env' ->
      evaluate_exprs n es env st = evaluate_exprs n es env' st)
  /\ (forall d es env env' st,
      agree (flat_map (fun entry => names (fst entry) ++ names (snd entry)) es) env env' ->
      evaluate_entries n d es env st = evaluate_entries n d es env' st).
Proof.
  induction n as [|n (IHe & IHes & IHd)]; [repeat split|].
  split; [|split].
  - intros e env env' st Hag. cbn [_evaluate_expr]. destruct e; cbn [names] in Hag;
      try reflexivity.
    + apply ebind_ext; [apply IHes; eapply agree_app_r, Hag|]. intros args' st1.
      apply ebind_ext; [apply IHe; eapply agree_app_l, Hag|]. reflexivity.
    + apply ebind_ext; [now apply IHe|]. reflexivity.
    + apply ebind_ext; [apply IHe; eapply agree_app_l, Hag|]. intros o st1.
      apply ebind_ext; [apply IHe; eapply agree_app_r, Hag|]. reflexivity.
    + apply ebind_ext; [apply IHe; eapply agree_app_l, Hag|]. intros o st1.
      apply ebind_ext; [apply IHe; eapply agree_app_r, Hag|]. reflexivity.
    + apply ebind_ext; [apply IHe; eapply agree_app_l, Hag|]. intros o st1.
      apply ebind_ext; [apply IHe; eapply agree_app_l, agree_app_r, Hag|].
      intros k st2.
      apply ebind_ext; [apply IHe; eapply agree_app_r, agree_app_r, Hag|].
      reflexivity.
    + apply ebind_ext; [now apply IHes|]. reflexivity.
    + apply ebind_ext; [reflexivity|]. intros d st1.
      apply ebind_ext; [now apply IHd|]. reflexivity.
    + apply agree_cons in Hag as [Hname Hag].
      apply ebind_ext; [now apply IHe|]. intros v st1.
      unfold assign. now rewrite Hname.
    + unfold lookup. erewrite Hag; [reflexivity|left].
  - intros es env env' st Hag. cbn [evaluate_exprs]. destruct es as [|e es];
      [reflexivity|]. cbn [flat_map] in Hag.
    apply ebind_ext; [apply IHe; eapply agree_app_l, Hag|]. intros v st1.
    apply ebind_ext; [apply IHes; eapply agree_app_r, Hag|]. reflexivity.
  - intros d es env env' st Hag. cbn [evaluate_entries].
    destruct es as [|[k v] es]; [reflexivity|]. cbn [flat_map fst snd] in Hag.
    apply ebind_ext; [apply IHe; eapply agree_app_l, agree_app_l, Hag|].
    intros k' st1.
    apply ebind_ext; [apply IHe; eapply agree_app_r, agree_app_l, Hag|].
    intros v' st2.
    apply ebind_ext; [reflexivity|]. intros _ st3.
    apply IHd. eapply agree_app_r, Hag.
Qed.

Lemma evaluate_expr_agree n e env env' st :
  agree (names e) env env' ->
  _evaluate_expr n e env st = _evaluate_expr n e env' st.
Proof. apply evaluate_agree. Qed.


(** *** Runs with enough fuel *)

Lemma eventually_runs {A} (run : nat -> option A) r :
  eventually run r -> runs run r.
Proof. intros [m Hm]. exists m. now apply Hm. Qed.

Lemma eventually_const {A} (r : A) : eventually (fun _ => Some r) r.
Proof. now exists 0. Qed.

Lemma eventually_step {A} (f g : nat -> option A) r :
  (forall m, f (S m) = g m) -> eventually g r -> eventually f r.
Proof.
  intros Hstep [m Hm]. exists (S m). intros [|m'] Hle; [lia|].
  rewrite Hstep. apply Hm. lia.
Qed.

Lemma eventually_both {A B} (f : nat -> option A) (g : nat -> option B) a b :
  eventually f a -> eventually g b ->
  exists m, forall m', m <= m' -> f m' = Some a /\ g m' = Some b.
Proof.
  intros [m1 H1] [m2 H2]. exists (max m1 m2). intros m' Hle.
  split; [apply H1|apply H2]; lia.
Qed.

Lemma eventually_ext {A} (f g : nat -> option A) r :
  (forall m, f m = g m) -> eventually g r -> eventually f r.
Proof. intros Hfg [m Hm]. exists m. intros m' Hle. rewrite Hfg. now apply Hm. Qed.

Lemma evaluate_expr_eventually n e env st r :
  _evaluate_expr n e env st = Some r ->
  eventually (fun m => _evaluate_expr m e env st) r.
Proof. intros Hrun. exists n. intros m Hle. eapply evaluate_expr_mono; eauto. Qed.

Lemma visit_stmt_eventually n s env st r :
  _visit_stmt n s env st = Some r ->
  eventually (fun m => _visit_stmt m s env st) r.
Proof. intros Hrun. exists n. intros m Hle. eapply visit_stmt_mono; eauto. Qed.

Lemma visit_block_eventually n b env st r :
  _visit_block_stmt n b env st = Some r ->
  eventually (fun m => _visit_block_stmt m b env st) r.
Proof. intros Hrun. exists n. intros m Hle. eapply visit_block_mono; eauto. Qed.

Lemma visit_while_eventually n c b env st r :
  _visit_while_loop_stmt n c b env st = Some r ->
  eventually (fun m => _visit_while_loop_stmt m c b env st) r.
Proof. intros Hrun. exists n. intros m Hle. eapply visit_while_mono; eauto. Qed.

Lemma eventually_sbind {A B} (f : nat -> exec_result A)
    (k : nat -> A -> RuntimeEnv -> State -> exec_result B) a env1 st1 R :
  eventually f (Ok a, env1, st1) ->
  eventually (fun m => k m a env1 st1) R ->
  eventually (fun m => sbind (f m) (k m)) R.
Proof.
  intros Hf Hk. destruct (eventually_both _ _ _ _ Hf Hk) as [m Hm].
  exists m. intros m' Hle. destruct (Hm m' Hle) as [-> Hk']. exact Hk'.
Qed.

Lemma eventually_sbind_raise {A B} (f : nat -> exec_result A)
    (k : nat -> A -> RuntimeEnv -> State -> exec_result B) x env1 st1 :
  eventually f (Raise x, env1, st1) ->
  eventually (fun m => sbind (f m) (k m)) (Raise x, env1, st1).
Proof. intros [m Hm]. exists m. intros m' Hle. now rewrite Hm. Qed.

Lemma eventually_in_env {A} (f : nat -> eval_result A) env r st :
  eventually f (r, st) -> eventually (fun m => in_env env (f m)) (r, env, st).
Proof. intros [m Hm]. exists m. intros m' Hle. now rewrite Hm. Qed.

Lemma eventually_scope {A}
    (body : nat -> RuntimeEnv -> State -> exec_result A) env st r env1 st' :
  (forall m, keeps_frame (body m)) ->
  eventually (fun m => body m (enter env) st) (r, env1, st') ->
  eventually (fun m => enter_scope (body m) env st) (r, env, st').
Proof.
  intros Hframe [m Hm]. exists m. intros m' Hle.
  eapply enter_scope_run; [apply Hframe|]. now apply Hm.
Qed.

(** *** Statements other than declarations leave the environment as it is *)

Lemma loops_env n :
  (forall c b env st r env' st',
      _visit_while_loop_stmt n c b env st = Some (r, env', st') -> env' = env)
  /\ (forall x it b env st r env' st',
      for_items n x it b env st = Some (r, env', st') -> env' = env).
Proof.
  induction n as [|n [IHw IHf]]; [split; intros; discriminate|].
  assert (Hloop : forall body next env st r env' st',
             loop_step (enter_scope body env st) next = Some (r, env', st') ->
             keeps_frame body ->
             (forall env st r env' st', next env st = Some (r, env', st') -> env' = env) ->
             env' = env).
  { intros body next env st r env' st' Hstep Hframe Hnext.
    apply loop_step_Some in Hstep
      as [(r1 & env1 & st1 & Hrun & _ & Hrest)|[[Hrun _]|(x & Hrun & _)]];
      apply enter_scope_Some in Hrun as [Henv _]; try assumption.
    subst env1. eapply Hnext, Hrest. }
  split.
  - intros c b env st r env' st'. cbn [_visit_while_loop_stmt]. intros Hrun.
    apply sbind_Some in Hrun as [(x & Hev & ->)|(a & env1 & st1 & Hev & Hrun)];
      apply in_env_Some in Hev as [_ ->]; [reflexivity|].
    destruct (truthy a (host st1)).
    + eapply Hloop; [exact Hrun|apply visit_block_keeps_frame|apply IHw].
    + now injection Hrun as <- <- <-.
  - intros x it b env st r env' st'. cbn [for_items]. intros Hrun.
    apply sbind_Some in Hrun as [(y & Hev & ->)|(a & env1 & st1 & Hev & Hrun)];
      apply in_env_Some in Hev as [_ ->]; [reflexivity|].
    destruct a as [item|].
    + eapply Hloop; [exact Hrun| |apply IHf].
      apply bind_item_frame, visit_block_keeps_frame.
    + now injection Hrun as <- <- <-.
Qed.

Lemma visit_stmt_env n s env st r env' st' :
  _visit_stmt n s env st = Some (r, env', st') ->
  match s with VarDeclStmt _ _ => True | _ => env' = env end.
Proof.
  destruct n as [|n]; [discriminate|]. cbn [_visit_stmt]. destruct s.
  - intros Hrun. now apply enter_scope_Some in Hrun as [-> _];
      [|apply visit_block_keeps_frame].
  - trivial.
  - intros Hrun.
    apply sbind_Some in Hrun as [(x & Hev & ->)|(a & env1 & st1 & Hev & Hrun)];
      apply in_env_Some in Hev as [_ ->]; [reflexivity|].
    now apply enter_scope_Some in Hrun as [-> _];
      [|apply if_branches_frame, visit_block_keeps_frame].
  - destruct return_val as [e|].
    + intros Hrun.
      apply sbind_Some in Hrun as [(x & Hev & ->)|(a & env1 & st1 & Hev & Hrun)];
        apply in_env_Some in Hev as [_ ->]; [reflexivity|].
      now injection Hrun as <- <- <-.
    + now intros [= <- <- <-].
  - apply loops_env.
  - intros Hrun.
    apply sbind_Some in Hrun as [(x & Hev & ->)|(a & env1 & st1 & Hev & Hrun)];
      apply in_env_Some in Hev as [_ ->]; [reflexivity|].
    apply sbind_Some in Hrun as [(x & Hev & ->)|(b & env2 & st2 & Hev & Hrun)];
      apply in_env_Some in Hev as [_ ->]; [reflexivity|].
    eapply loops_env, Hrun.
  - now intros [= <- <- <-].
  - now intros [= <- <- <-].
  - intros Hrun.
    apply try_except_Some in Hrun
      as [(e & env1 & st1 & Htry & _ & Hcatch)|[Htry _]];
      apply enter_scope_Some in Htry as [-> _];
      try apply visit_block_keeps_frame; [|reflexivity].
    now apply enter_scope_Some in Hcatch as [-> _];
      [|apply catch_clause_frame, visit_block_keeps_frame].
  - intros Hrun.
    apply sbind_Some in Hrun as [(x & Hev & ->)|(a & env1 & st1 & Hev & Hrun)];
      apply in_env_Some in Hev as [_ ->]; [reflexivity|].
    now injection Hrun as <- <- <-.
Qed.

(** *** Which statements can end in a continue transfer *)

Lemma loops_no_continue n :
  (forall c b env st r env' st',
      _visit_while_loop_stmt n c b env st = Some (r, env', st') ->
      r <> Raise Continue /\ r <> Raise Break)
  /\ (forall x it b env st r env' st',
      for_items n x it b env st = Some (r, env', st') ->
      r <> Raise Continue /\ r <> Raise Break).
Proof.
  induction n as [|n [IHw IHf]]; [split; intros; discriminate|].
  assert (Hexc : forall A (m : eval_result A) env x env' st' ,
             raises_exc m -> in_env env m = Some (Raise x, env', st') ->
             @Raise unit x <> Raise Continue /\ @Raise unit x <> Raise Break).
  { intros A m env x env' st' Hm Hrun. apply in_env_Some in Hrun as [Hrun _].
    apply Hm in Hrun as [e ->]. split; discriminate. }
  assert (Hloop : forall m next r env' st',
             loop_step m next = Some (r, env', st') ->
             (forall env st r env' st', next env st = Some (r, env', st') ->
                 r <> Raise Continue /\ r <> Raise Break) ->
             r <> Raise Continue /\ r <> Raise Break).
  { intros m next r env' st' Hstep Hnext.
    apply loop_step_Some in Hstep
      as [(r1 & env1 & st1 & Hrun & _ & Hrest)|[[Hrun ->]|(x & Hrun & -> & Hb & Hc)]].
    - eapply Hnext, Hrest.
    - split; discriminate.
    - split; congruence. }
  split.
  - intros c b env st r env' st'. cbn [_visit_while_loop_stmt]. intros Hrun.
    apply sbind_Some in Hrun as [(x & Hev & ->)|(a & env1 & st1 & Hev & Hrun)].
    + eapply Hexc, Hev. apply evaluate_raises_exc.
    + destruct (truthy a (host st1)).
      * eapply Hloop; [exact Hrun|apply IHw].
      * injection Hrun as <- <- <-. split; discriminate.
  - intros x it b env st r env' st'. cbn [for_items]. intros Hrun.
    apply sbind_Some in Hrun as [(y & Hev & ->)|(a & env1 & st1 & Hev & Hrun)].
    + eapply Hexc, Hev. apply from_host_raises_exc.
    + destruct a as [item|].
      * eapply Hloop; [exact Hrun|apply IHf].
      * injection Hrun as <- <- <-. split; discriminate.
Qed.

Lemma declare_raises name v env st x env' st' :
  declare name v env st = (Raise x, env', st') -> exists e, x = Exc e.
Proof.
  unfold declare. destruct (last _); [|intros [= <- <- <-]; unfold IndexError; eauto].
  destruct (bool_decide _); [intros [= <- <- <-]; eauto|].
  destruct (push _ _ _ _). discriminate.
Qed.

(** A statement that [_rewrite_continue_stmts] leaves as it is does not end
    in a continue transfer. *)
Lemma visit_stmt_continue n s env st env' st' :
  _visit_stmt n s env st = Some (Raise Continue, env', st') ->
  match s with
  | BlockStmt _ | IfStmt _ _ _ | ContinueStmt | TryStmt _ _ _ => True
  | _ => False
  end.
Proof.
  destruct n as [|n]; [discriminate|]. cbn [_visit_stmt]. destruct s; trivial.
  - intros Hrun.
    apply sbind_Some in Hrun as [(x & Hev & [= <-])|(a & env1 & st1 & Hev & Hrun)].
    + apply in_env_Some in Hev as [Hev _].
      apply evaluate_expr_raises in Hev as [e [=]].
    + injection Hrun as Hrun. apply declare_raises in Hrun as [e [=]].
  - destruct return_val as [e|]; [|discriminate]. intros Hrun.
    apply sbind_Some in Hrun as [(x & Hev & [= <-])|(a & env1 & st1 & Hev & Hrun)].
    + apply in_env_Some in Hev as [Hev _].
      apply evaluate_expr_raises in Hev as [e' [=]].
    + discriminate.
  - intros Hrun. apply loops_no_continue in Hrun as [Hc _]. congruence.
  - intros Hrun.
    apply sbind_Some in Hrun as [(x & Hev & [= <-])|(a & env1 & st1 & Hev & Hrun)].
    { apply in_env_Some in Hev as [Hev _].
      apply evaluate_expr_raises in Hev as [e' [=]]. }
    apply sbind_Some in Hrun as [(x & Hev' & [= <-])|(b & env2 & st2 & Hev' & Hrun)].
    { apply in_env_Some in Hev' as [Hev' _].
      apply from_host_raises_exc in Hev' as [e' [=]]. }
    apply loops_no_continue in Hrun as [Hc _]. congruence.
  - discriminate.
  - intros Hrun.
    apply sbind_Some in Hrun as [(x & Hev & [= <-])|(a & env1 & st1 & Hev & Hrun)].
    + apply in_env_Some in Hev as [Hev _].
      apply evaluate_expr_raises in Hev as [e' [=]].
    + discriminate.
Qed.


(** *** The rewritten body against the body *)

Section Simulation.

Variable post : ExprNode.
Variable env0 : RuntimeEnv.

Local Abbreviation X := (names post).
Local Abbreviation rw := (fun stmt => _rewrite_continue_stmts stmt post).
Local Abbreviation lowered := (Lowering.lowered post env0).

Lemma agree_refl Y env : agree Y env env.
Proof. now intros x _. Qed.

Lemma agree_trans Y env1 env2 env3 :
  agree Y env1 env2 -> agree Y env2 env3 -> agree Y env1 env3.
Proof. intros H12 H23 x Hx. now rewrite H12, H23. Qed.

Lemma agree_enter Y env : agree Y (enter env) env.
Proof. now intros x _. Qed.

Lemma declare_agree name v env st r env' st' :
  name ∉ X ->
  declare name v env st = (r, env', st') -> agree X env' env.
Proof.
  intros Hname. unfold declare.
  destruct (last _); [|intros [= <- <- <-]; apply agree_refl].
  destruct (bool_decide _); [intros [= <- <- <-]; apply agree_refl|].
  simpl. intros [= <- <- <-] x Hx. simpl.
  rewrite cells_of_app, cells_of_none; [reflexivity|].
  intros var Hin%list_elem_of_In Hvar. destruct Hin as [<-|[]].
  simpl in Hvar. congruence.
Qed.

Lemma visit_stmt_agree n s env st r env' st' :
  admissible X s = true ->
  _visit_stmt n s env st = Some (r, env', st') -> agree X env' env.
Proof.
  intros Hadm Hrun. pose proof (visit_stmt_env _ _ _ _ _ _ _ Hrun) as Henv.
  destruct s; try (rewrite Henv; apply agree_refl).
  destruct n as [|n]; [discriminate|]. cbn [_visit_stmt] in Hrun.
  cbn [admissible] in Hadm. apply negb_true_iff, bool_decide_eq_false in Hadm.
  apply sbind_Some in Hrun as [(x & Hev & ->)|(a & env1 & st1 & Hev & Hrun)];
    apply in_env_Some in Hev as [_ ->]; [apply agree_refl|].
  injection Hrun as Hrun. eapply declare_agree; eauto.
Qed.

Lemma visit_block_agree n l env st r env' st' :
  forallb (admissible X) l = true ->
  _visit_block_stmt n (BlockStmt l) env st = Some (r, env', st') ->
  agree X env' env.
Proof.
  revert l env st. induction n as [|n IH]; intros l env st Hadm;
    [discriminate|]. cbn [_visit_block_stmt].
  destruct l as [|s l]; [intros [= <- <- <-]; apply agree_refl|].
  cbn [forallb] in Hadm. apply andb_prop in Hadm as [Hs Hl]. intros Hrun.
  apply sbind_Some in Hrun as [(x & Hev & ->)|(a & env1 & st1 & Hev & Hrun)].
  - eapply visit_stmt_agree; eauto.
  - eapply agree_trans; [eapply IH; eauto|eapply visit_stmt_agree; eauto].
Qed.

Lemma lowered_same r st' : r <> Raise Continue -> lowered r st' (r, st').
Proof. intros Hr. now left. Qed.

Lemma lowered_not_continue r st' R :
  r <> Raise Continue -> lowered r st' R -> R = (r, st').
Proof. intros Hr [[_ ->]|[-> _]]; [reflexivity|contradiction]. Qed.

Lemma lowered_raise x st' R :
  lowered (Raise x) st' R -> exists y, R.1 = Raise y.
Proof.
  intros [[_ ->]|[_ (k & pr & st'' & _ & ->)]]; [now exists x|].
  destruct pr as [v|y]; simpl; eauto.
Qed.

Lemma lowered_Ok r st' st'' :
  lowered r st' (Ok tt, st'') -> r = Ok tt /\ st' = st''.
Proof.
  intros [[_ [= <- <-]]|[_ (k & pr & st1 & _ & [= Hr _])]]; [auto|].
  destruct pr; discriminate.
Qed.

Lemma visit_not_block n s env st :
  is_block s = false ->
  _visit_block_stmt (S n) s env st = Some (Raise AttributeError, env, st).
Proof. destruct s; [discriminate|reflexivity..]. Qed.

Lemma rewrite_not_block s :
  is_block s = false -> s <> ContinueStmt -> is_block (rw s) = false.
Proof. destruct s; try reflexivity; [discriminate|congruence]. Qed.

Lemma admissible_branch_cases b :
  admissible_branch (admissible X) b = true ->
  (exists l, b = BlockStmt l /\ forallb (admissible X) l = true)
  \/ (is_block b = false /\ b <> ContinueStmt).
Proof.
  destruct b; cbn; intros Hadm; try (right; split; [reflexivity|discriminate]).
  left. eauto.
Qed.

Lemma sim_forward n :
  (forall s env st r env' st' R,
      admissible X s = true -> agree X env env0 ->
      _visit_stmt n s env st = Some (r, env', st') ->
      lowered r st' R ->
      eventually (fun m => _visit_stmt m (rw s) env st) (R.1, env', R.2))
  /\ (forall l env st r env' st' R,
      forallb (admissible X) l = true -> agree X env env0 ->
      _visit_block_stmt n (BlockStmt l) env st = Some (r, env', st') ->
      lowered r st' R ->
      eventually (fun m => _visit_block_stmt m (BlockStmt (map rw l)) env st)
        (R.1, env', R.2)).
Proof.
  induction n as [|n [IHs IHb]]; [split; intros; discriminate|].
  assert (Hbranch : forall b env st r env' st' R,
             admissible_branch (admissible X) b = true -> agree X env env0 ->
             _visit_block_stmt n b env st = Some (r, env', st') ->
             lowered r st' R ->
             eventually (fun m => _visit_block_stmt m (rw b) env st)
               (R.1, env', R.2)).
  { intros b env st r env' st' R Hadm Hag Hrun Hlow.
    apply admissible_branch_cases in Hadm as [(l & -> & Hl)|[Hnb Hnc]].
    - eapply IHb; eauto.
    - destruct n as [|n']; [discriminate|].
      rewrite visit_not_block in Hrun by assumption.
      injection Hrun as <- <- <-.
      apply lowered_not_continue in Hlow as ->; [|discriminate].
      apply eventually_step with (g := fun _ => Some (Raise AttributeError, env, st));
        [|apply eventually_const].
      intros m. apply visit_not_block. now apply rewrite_not_block. }
  assert (Hsame : forall s env st r env' st' R,
             rw s = s ->
             match s with
             | BlockStmt _ | IfStmt _ _ _ | ContinueStmt | TryStmt _ _ _ => False
             | _ => True
             end ->
             _visit_stmt (S n) s env st = Some (r, env', st') ->
             lowered r st' R ->
             eventually (fun m => _visit_stmt m (rw s) env st) (R.1, env', R.2)).
  { intros s env st r env' st' R Hrw Hs Hrun Hlow. rewrite Hrw.
    apply lowered_not_continue in Hlow as ->.
    - eapply visit_stmt_eventually, Hrun.
    - intros ->. apply visit_stmt_continue in Hrun. destruct s; contradiction. }
  split.
  - intros s env st r env' st' R Hadm Hag Hrun Hlow.
    destruct s; try (now eapply Hsame; eauto).
    + (* block *)
      cbn [_visit_stmt] in Hrun. cbn [admissible] in Hadm.
      apply enter_scope_Some in Hrun as [-> [env1 Hrun]];
        [|apply visit_block_keeps_frame].
      apply eventually_step
        with (g := fun m => enter_scope
                             (_visit_block_stmt m (BlockStmt (map rw stmts)))
                             env st); [reflexivity|].
      apply eventually_scope with (env1 := env1);
        [intros m; apply visit_block_keeps_frame|].
      eapply IHb; [exact Hadm| |exact Hrun|exact Hlow].
      eapply agree_trans; [apply agree_enter|exact Hag].
    + (* if *)
      cbn [_visit_stmt] in Hrun. cbn [admissible] in Hadm.
      apply andb_prop in Hadm as [Hif Helse].
      apply eventually_step
        with (g := fun m =>
                sbind (in_env env (_evaluate_expr m cond env st))
                  (fun c env st =>
                     enter_scope
                       (if_branches (_visit_block_stmt m) c (rw s)
                          (match else_branch with
                           | Some e => Some (rw e)
                           | None => None
                           end)) env st)); [reflexivity|].
      apply sbind_Some in Hrun as [(x & Hev & ->)|(c & env1 & st1 & Hev & Hrun)];
        apply in_env_Some in Hev as [Hev ->].
      * pose proof (evaluate_expr_raises _ _ _ _ _ _ Hev) as [e ->].
        apply lowered_not_continue in Hlow as ->; [|discriminate].
        apply eventually_sbind_raise, eventually_in_env.
        eapply evaluate_expr_eventually, Hev.
      * apply enter_scope_Some in Hrun as [-> [env2 Hrun]];
          [|apply if_branches_frame, visit_block_keeps_frame].
        eapply eventually_sbind.
        { apply eventually_in_env. eapply evaluate_expr_eventually, Hev. }
        apply eventually_scope with (env1 := env2);
          [intros m; apply if_branches_frame, visit_block_keeps_frame|].
        assert (Hag' : agree X (enter env) env0)
          by (eapply agree_trans; [apply agree_enter|exact Hag]).
        unfold if_branches in *. destruct (truthy c (host st1)).
        -- eapply Hbranch; [exact Hif|exact Hag'|exact Hrun|exact Hlow].
        -- destruct else_branch as [e|].
           ++ eapply Hbranch; [exact Helse|exact Hag'|exact Hrun|exact Hlow].
           ++ injection Hrun as <- <- <-.
              apply lowered_not_continue in Hlow as ->; [|discriminate].
              apply eventually_const.
    + (* continue *)
      cbn [_visit_stmt] in Hrun. injection Hrun as <- <- <-.
      destruct Hlow as [[Hr _]|[_ (k & pr & st'' & Hpost & ->)]];
        [contradiction|]. cbn [fst snd].
      assert (Hag' : agree X (enter env) env0)
        by (eapply agree_trans; [apply agree_enter|exact Hag]).
      rewrite <- (evaluate_expr_agree k post (enter env) env0 st Hag') in Hpost.
      apply evaluate_expr_eventually in Hpost.
      apply eventually_step
        with (g := fun m => enter_scope
                             (_visit_block_stmt m
                                (BlockStmt [ExprStmt post; ContinueStmt]))
                             env st); [reflexivity|].
      apply eventually_scope with (env1 := enter env);
        [intros m; apply visit_block_keeps_frame|].
      apply eventually_step
        with (g := fun m =>
                sbind (_visit_stmt m (ExprStmt post) (enter env) st)
                  (fun _ env st =>
                     _visit_block_stmt m (BlockStmt [ContinueStmt]) env st));
        [reflexivity|].
      assert (Hexpr :
                 eventually
                   (fun m => _visit_stmt m (ExprStmt post) (enter env) st)
                   (match pr with Ok _ => Ok tt | Raise x => Raise x end,
                    enter env, st'')).
      { apply eventually_step
          with (g := fun m =>
                  sbind (in_env (enter env)
                           (_evaluate_expr m post (enter env) st))
                    (fun _ env st => Some (Ok tt, env, st))); [reflexivity|].
        destruct pr as [v|x].
        - eapply eventually_sbind; [apply eventually_in_env, Hpost|].
          apply eventually_const.
        - apply eventually_sbind_raise, eventually_in_env, Hpost. }
      destruct pr as [v|x]; cbn [after_post].
      * eapply eventually_sbind; [exact Hexpr|].
        apply eventually_step
          with (g := fun m =>
                  sbind (_visit_stmt m ContinueStmt (enter env) st'')
                    (fun _ env st =>
                       _visit_block_stmt m (BlockStmt []) env st));
          [reflexivity|].
        apply eventually_sbind_raise.
        apply eventually_step
          with (g := fun _ => Some (Raise Continue, enter env, st''));
          [reflexivity|apply eventually_const].
      * apply eventually_sbind_raise, Hexpr.
  - intros l env st r env' st' R Hadm Hag Hrun Hlow.
    cbn [_visit_block_stmt] in Hrun. destruct l as [|s l].
    + injection Hrun as <- <- <-.
      apply lowered_not_continue in Hlow as ->; [|discriminate].
      apply eventually_step with (g := fun _ => Some (Ok tt, env, st));
        [reflexivity|apply eventually_const].
    + cbn [forallb] in Hadm. apply andb_prop in Hadm as [Hs Hl].
      apply eventually_step
        with (g := fun m =>
                sbind (_visit_stmt m (rw s) env st)
                  (fun _ env st =>
                     _visit_block_stmt m (BlockStmt (map rw l)) env st));
        [reflexivity|].
      apply sbind_Some in Hrun as [(x & Hev & ->)|([] & env1 & st1 & Hev & Hrun)].
      * destruct (lowered_raise _ _ _ Hlow) as [y Hy].
        pose proof (IHs _ _ _ _ _ _ _ Hs Hag Hev Hlow) as Hrw.
        destruct R as [R1 R2]. simpl in *. subst R1.
        apply eventually_sbind_raise, Hrw.
      * eapply eventually_sbind.
        { apply (IHs _ _ _ _ _ _ (Ok tt, st1) Hs Hag Hev).
          apply lowered_same. discriminate. }
        eapply IHb; [exact Hl| |exact Hrun|exact Hlow].
        eapply agree_trans; [eapply visit_stmt_agree; eauto|exact Hag].
Qed.

Lemma lowered_raise_inv r st' y st'' :
  lowered r st' (Raise y, st'') -> exists x, r = Raise x.
Proof. intros [[_ [= <- _]]|[-> _]]; eauto. Qed.

Lemma eventually_agree s env st r env' st' :
  admissible X s = true ->
  eventually (fun m => _visit_stmt m s env st) (r, env', st') ->
  agree X env' env.
Proof.
  intros Hadm [m Hm]. eapply visit_stmt_agree; [exact Hadm|].
  apply (Hm m). lia.
Qed.

Lemma sim_backward n :
  (forall s env st r' env' st'',
      admissible X s = true -> agree X env env0 ->
      _visit_stmt n (rw s) env st = Some (r', env', st'') ->
      exists r st',
        eventually (fun m => _visit_stmt m s env st) (r, env', st')
        /\ lowered r st' (r', st''))
  /\ (forall l env st r' env' st'',
      forallb (admissible X) l = true -> agree X env env0 ->
      _visit_block_stmt n (BlockStmt (map rw l)) env st = Some (r', env', st'') ->
      exists r st',
        eventually (fun m => _visit_block_stmt m (BlockStmt l) env st)
          (r, env', st')
        /\ lowered r st' (r', st'')).
Proof.
  induction n as [|n [IHs IHb]]; [split; intros; discriminate|].
  assert (Hbranch : forall b env st r' env' st'',
             admissible_branch (admissible X) b = true -> agree X env env0 ->
             _visit_block_stmt n (rw b) env st = Some (r', env', st'') ->
             exists r st',
               eventually (fun m => _visit_block_stmt m b env st) (r, env', st')
               /\ lowered r st' (r', st'')).
  { intros b env st r' env' st'' Hadm Hag Hrun.
    apply admissible_branch_cases in Hadm as [(l & -> & Hl)|[Hnb Hnc]].
    - eapply IHb; [exact Hl|exact Hag|exact Hrun].
    - destruct n as [|n']; [discriminate|].
      rewrite visit_not_block in Hrun by now apply rewrite_not_block.
      injection Hrun as <- <- <-.
      exists (Raise AttributeError), st. split.
      + apply eventually_step
          with (g := fun _ => Some (Raise AttributeError, env, st));
          [|apply eventually_const].
        intros m. now apply visit_not_block.
      + apply lowered_same. discriminate. }
  assert (Hsame : forall s env st r' env' st'',
             rw s = s ->
             match s with
             | BlockStmt _ | IfStmt _ _ _ | ContinueStmt | TryStmt _ _ _ => False
             | _ => True
             end ->
             _visit_stmt (S n) (rw s) env st = Some (r', env', st'') ->
             exists r st',
               eventually (fun m => _visit_stmt m s env st) (r, env', st')
               /\ lowered r st' (r', st'')).
  { intros s env st r' env' st'' Hrw Hs Hrun. rewrite Hrw in Hrun.
    exists r', st''. split; [eapply visit_stmt_eventually, Hrun|].
    apply lowered_same. intros ->.
    apply visit_stmt_continue in Hrun. destruct s; contradiction. }
  split.
  - intros s env st r' env' st'' Hadm Hag Hrun.
    destruct s; try (now eapply Hsame; eauto).
    + (* block *)
      change (enter_scope (_visit_block_stmt n (BlockStmt (map rw stmts)))
                env st = Some (r', env', st'')) in Hrun.
      cbn [admissible] in Hadm.
      apply enter_scope_Some in Hrun as [-> [env1 Hrun]];
        [|apply visit_block_keeps_frame].
      destruct (IHb stmts (enter env) st r' env1 st'' Hadm) as (r & st' & Hl & Hlow);
        [eapply agree_trans; [apply agree_enter|exact Hag]|exact Hrun|].
      exists r, st'. split; [|exact Hlow].
      apply eventually_step
        with (g := fun m => enter_scope (_visit_block_stmt m (BlockStmt stmts))
                             env st); [reflexivity|].
      apply eventually_scope with (env1 := env1);
        [intros m; apply visit_block_keeps_frame|exact Hl].
    + (* if *)
      change (sbind (in_env env (_evaluate_expr n cond env st))
                (fun c env st =>
                   enter_scope
                     (if_branches (_visit_block_stmt n) c (rw s)
                        (match else_branch with
                         | Some e => Some (rw e)
                         | None => None
                         end)) env st) = Some (r', env', st'')) in Hrun.
      cbn [admissible] in Hadm. apply andb_prop in Hadm as [Hif Helse].
      assert (Hstep : forall m,
                 _visit_stmt (S m) (IfStmt cond s else_branch) env st
                 = sbind (in_env env (_evaluate_expr m cond env st))
                     (fun c env st =>
                        enter_scope
                          (if_branches (_visit_block_stmt m) c s else_branch)
                          env st)) by reflexivity.
      apply sbind_Some in Hrun as [(x & Hev & ->)|(c & env1 & st1 & Hev & Hrun)];
        apply in_env_Some in Hev as [Hev ->].
      * pose proof (evaluate_expr_raises _ _ _ _ _ _ Hev) as [e ->].
        exists (Raise (Exc e)), st''. split; [|apply lowered_same; discriminate].
        eapply eventually_step; [exact Hstep|].
        apply eventually_sbind_raise, eventually_in_env.
        eapply evaluate_expr_eventually, Hev.
      * apply enter_scope_Some in Hrun as [-> [env2 Hrun]];
          [|apply if_branches_frame, visit_block_keeps_frame].
        assert (Hag' : agree X (enter env) env0)
          by (eapply agree_trans; [apply agree_enter|exact Hag]).
        assert (Hbody : exists r st',
                   eventually
                     (fun m => if_branches (_visit_block_stmt m) c s else_branch
                                 (enter env) st1) (r, env2, st')
                   /\ lowered r st' (r', st'')).
        { unfold if_branches in *. destruct (truthy c (host st1)).
          - eapply Hbranch; [exact Hif|exact Hag'|exact Hrun].
          - destruct else_branch as [e|].
            + eapply Hbranch; [exact Helse|exact Hag'|exact Hrun].
            + injection Hrun as <- <- <-. exists (Ok tt), st1.
              split; [apply eventually_const|apply lowered_same; discriminate]. }
        destruct Hbody as (r & st' & Hbody & Hlow).
        exists r, st'. split; [|exact Hlow].
        eapply eventually_step; [exact Hstep|].
        eapply eventually_sbind.
        { apply eventually_in_env. eapply evaluate_expr_eventually, Hev. }
        apply eventually_scope with (env1 := env2);
          [intros m; apply if_branches_frame, visit_block_keeps_frame|].
        exact Hbody.
    + (* continue *)
      change (enter_scope
                (_visit_block_stmt n (BlockStmt [ExprStmt post; ContinueStmt]))
                env st = Some (r', env', st'')) in Hrun.
      apply enter_scope_Some in Hrun as [-> [env1 Hrun]];
        [|apply visit_block_keeps_frame].
      assert (Hag' : agree X (enter env) env0)
        by (eapply agree_trans; [apply agree_enter|exact Hag]).
      exists (Raise Continue), st. split.
      { apply eventually_step
          with (g := fun _ => Some (Raise Continue, env, st));
          [reflexivity|apply eventually_const]. }
      right. split; [reflexivity|].
      destruct n as [|n1]; [discriminate|]. cbn [_visit_block_stmt] in Hrun.
      apply sbind_Some in Hrun as [(x & Hev & ->)|([] & env2 & st1 & Hev & Hrun)].
      * destruct n1 as [|n2]; [discriminate|]. cbn [_visit_stmt] in Hev.
        apply sbind_Some in Hev as [(y & Hev & [= <-])|(a & env3 & st3 & _ & [=])].
        apply in_env_Some in Hev as [Hev _].
        rewrite (evaluate_expr_agree n2 post (enter env) env0 st Hag') in Hev.
        exists n2, (Raise x), st''. split; [exact Hev|reflexivity].
      * destruct n1 as [|n2]; [discriminate|]. cbn [_visit_stmt] in Hev.
        apply sbind_Some in Hev as [(y & _ & [=])|(v & env3 & st3 & Hev & [= -> ->])].
        apply in_env_Some in Hev as [Hev _].
        rewrite (evaluate_expr_agree n2 post (enter env) env0 st Hag') in Hev.
        cbn [_visit_block_stmt] in Hrun.
        destruct n2 as [|n3]; [discriminate|]. cbn [_visit_stmt sbind] in Hrun.
        injection Hrun as <- <- <-.
        exists (S n3), (Ok v), st1. split; [exact Hev|reflexivity].
  - intros l env st r' env' st'' Hadm Hag Hrun.
    destruct l as [|s l].
    + cbn in Hrun. injection Hrun as <- <- <-. exists (Ok tt), st. split.
      * apply eventually_step with (g := fun _ => Some (Ok tt, env, st));
          [reflexivity|apply eventually_const].
      * apply lowered_same. discriminate.
    + change (sbind (_visit_stmt n (rw s) env st)
                (fun _ env st =>
                   _visit_block_stmt n (BlockStmt (map rw l)) env st)
              = Some (r', env', st'')) in Hrun.
      cbn [forallb] in Hadm. apply andb_prop in Hadm as [Hs Hl].
      assert (Hstep : forall m,
                 _visit_block_stmt (S m) (BlockStmt (s :: l)) env st
                 = sbind (_visit_stmt m s env st)
                     (fun _ env st => _visit_block_stmt m (BlockStmt l) env st))
        by reflexivity.
      apply sbind_Some in Hrun as [(y & Hev & ->)|([] & env1 & st1 & Hev & Hrun)].
      * destruct (IHs _ _ _ _ _ _ Hs Hag Hev) as (r & st' & Hrun & Hlow).
        destruct (lowered_raise_inv _ _ _ _ Hlow) as [x ->].
        exists (Raise x), st'. split; [|exact Hlow].
        eapply eventually_step; [exact Hstep|].
        apply eventually_sbind_raise, Hrun.
      * destruct (IHs _ _ _ _ _ _ Hs Hag Hev) as (r1 & st1' & Hrun1 & Hlow1).
        apply lowered_Ok in Hlow1 as [-> ->].
        destruct (IHb l env1 st1 r' env' st'' Hl) as (r & st' & Hrest & Hlow);
          [|exact Hrun|].
        { eapply agree_trans; [eapply eventually_agree; eauto|exact Hag]. }
        exists r, st'. split; [|exact Hlow].
        eapply eventually_step; [exact Hstep|].
        eapply eventually_sbind; [exact Hrun1|exact Hrest].
Qed.

End Simulation.


(** *** The body with its trailing continue *)

Lemma block_snoc_continue_forward l : forall n env st r env' st',
  _visit_block_stmt n (BlockStmt l) env st = Some (r, env', st') ->
  eventually
    (fun m => _visit_block_stmt m (BlockStmt (l ++ [ContinueStmt])) env st)
    (then_continue r, env', st').
Proof.
  induction l as [|s l IH]; intros [|n] env st r env' st'; try discriminate;
    cbn [_visit_block_stmt]; intros Hrun.
  - injection Hrun as <- <- <-.
    apply eventually_step
      with (g := fun m =>
              sbind (_visit_stmt m ContinueStmt env st)
                (fun _ env st => _visit_block_stmt m (BlockStmt []) env st));
      [reflexivity|].
    apply eventually_sbind_raise.
    apply eventually_step with (g := fun _ => Some (Raise Continue, env, st));
      [reflexivity|apply eventually_const].
  - apply eventually_step
      with (g := fun m =>
              sbind (_visit_stmt m s env st)
                (fun _ env st =>
                   _visit_block_stmt m (BlockStmt (l ++ [ContinueStmt])) env st));
      [reflexivity|].
    apply sbind_Some in Hrun as [(x & Hev & ->)|([] & env1 & st1 & Hev & Hrun)].
    + apply eventually_sbind_raise. eapply visit_stmt_eventually, Hev.
    + eapply eventually_sbind; [eapply visit_stmt_eventually, Hev|].
      eapply IH, Hrun.
Qed.

Lemma block_snoc_continue_backward l : forall n env st r' env' st',
  _visit_block_stmt n (BlockStmt (l ++ [ContinueStmt])) env st
  = Some (r', env', st') ->
  exists r,
    eventually (fun m => _visit_block_stmt m (BlockStmt l) env st) (r, env', st')
    /\ r' = then_continue r.
Proof.
  induction l as [|s l IH]; intros [|n] env st r' env' st'; try discriminate;
    cbn [app _visit_block_stmt]; intros Hrun.
  - apply sbind_Some in Hrun as [(x & Hev & ->)|([] & env1 & st1 & Hev & Hrun)];
      (destruct n as [|n]; [discriminate|]); cbn [_visit_stmt] in Hev;
      [|discriminate].
    injection Hev as <- <- <-. exists (Ok tt). split; [|reflexivity].
    apply eventually_step with (g := fun _ => Some (Ok tt, env, st));
      [reflexivity|apply eventually_const].
  - assert (Hstep : forall m,
               _visit_block_stmt (S m) (BlockStmt (s :: l)) env st
               = sbind (_visit_stmt m s env st)
                   (fun _ env st => _visit_block_stmt m (BlockStmt l) env st))
      by reflexivity.
    apply sbind_Some in Hrun as [(x & Hev & ->)|([] & env1 & st1 & Hev & Hrun)].
    + exists (Raise x). split; [|reflexivity].
      eapply eventually_step; [exact Hstep|].
      apply eventually_sbind_raise. eapply visit_stmt_eventually, Hev.
    + destruct (IH _ _ _ _ _ _ Hrun) as (r & Hrest & ->).
      exists r. split; [|reflexivity].
      eapply eventually_step; [exact Hstep|].
      eapply eventually_sbind; [eapply visit_stmt_eventually, Hev|exact Hrest].
Qed.

Lemma then_continue_idem r : then_continue (then_continue r) = then_continue r.
Proof. now destruct r. Qed.

Lemma add_trailing_continue_cases l :
  l <> [] ->
  add_trailing_continue l = l ++ [ContinueStmt]
  \/ (add_trailing_continue l = l /\ exists l0, l = l0 ++ [ContinueStmt]).
Proof.
  intros Hl. unfold add_trailing_continue.
  destruct (last l) as [s|] eqn:Hlast.
  - destruct s; cbn; auto.
    right. split; [reflexivity|]. now apply last_Some in Hlast.
  - now apply last_None in Hlast.
Qed.

Lemma trailing_continue_forward l n env st r env' st' :
  l <> [] ->
  _visit_block_stmt n (BlockStmt l) env st = Some (r, env', st') ->
  eventually
    (fun m => _visit_block_stmt m (BlockStmt (add_trailing_continue l)) env st)
    (then_continue r, env', st').
Proof.
  intros Hl Hrun.
  destruct (add_trailing_continue_cases l Hl) as [->|[-> [l0 ->]]].
  - eapply block_snoc_continue_forward, Hrun.
  - destruct (block_snoc_continue_backward _ _ _ _ _ _ _ Hrun) as (r0 & _ & ->).
    rewrite then_continue_idem. eapply visit_block_eventually, Hrun.
Qed.

Lemma trailing_continue_backward l n env st r' env' st' :
  l <> [] ->
  _visit_block_stmt n (BlockStmt (add_trailing_continue l)) env st
  = Some (r', env', st') ->
  exists r,
    eventually (fun m => _visit_block_stmt m (BlockStmt l) env st) (r, env', st')
    /\ r' = then_continue r.
Proof.
  intros Hl Hrun.
  destruct (add_trailing_continue_cases l Hl) as [Heq|[Heq [l0 ->]]];
    rewrite Heq in Hrun.
  - eapply block_snoc_continue_backward, Hrun.
  - exists r'. split; [eapply visit_block_eventually, Hrun|].
    destruct (block_snoc_continue_backward _ _ _ _ _ _ _ Hrun) as (r0 & _ & ->).
    now rewrite then_continue_idem.
Qed.

Lemma add_trailing_continue_admissible Y l :
  forallb (admissible Y) l = true ->
  forallb (admissible Y) (add_trailing_continue l) = true.
Proof.
  intros Hadm. unfold add_trailing_continue.
  destruct (last l) as [s|]; [|exact Hadm].
  destruct (negb (is_continue s)); [|exact Hadm].
  rewrite forallb_app, Hadm. reflexivity.
Qed.

(** *** The loops *)

Lemma eventually_loop_next (f : nat -> exec_result unit) next r1 env1 st1 R :
  eventually f (r1, env1, st1) ->
  r1 = Ok tt \/ r1 = Raise Continue ->
  eventually (fun m => next m env1 st1) R ->
  eventually (fun m => loop_step (f m) (next m)) R.
Proof.
  intros Hf Hr Hnext. destruct (eventually_both _ _ _ _ Hf Hnext) as [m Hm].
  exists m. intros m' Hle. destruct (Hm m' Hle) as [-> Hn].
  destruct Hr as [-> | ->]; exact Hn.
Qed.

Lemma eventually_loop_break (f : nat -> exec_result unit) next env1 st1 :
  eventually f (Raise Break, env1, st1) ->
  eventually (fun m => loop_step (f m) (next m)) (Ok tt, env1, st1).
Proof. intros [m Hm]. exists m. intros m' Hle. now rewrite Hm. Qed.

Lemma eventually_loop_raise (f : nat -> exec_result unit) next x env1 st1 :
  eventually f (Raise x, env1, st1) ->
  x <> Break -> x <> Continue ->
  eventually (fun m => loop_step (f m) (next m)) (Raise x, env1, st1).
Proof.
  intros [m Hm] Hb Hc. exists m. intros m' Hle. rewrite Hm by assumption.
  destruct x; try reflexivity; contradiction.
Qed.

Lemma for_iterations_env n cond post l env st r env' st' :
  Reference.for_iterations n cond post l env st = Some (r, env', st') ->
  env' = env.
Proof.
  revert env st. induction n as [|n IH]; intros env st; [discriminate|].
  cbn [Reference.for_iterations]. intros Hrun.
  apply sbind_Some in Hrun as [(x & Hev & ->)|(c & env1 & st1 & Hev & Hrun)];
    apply in_env_Some in Hev as [_ ->]; [reflexivity|].
  destruct (truthy c (host st1)); [|now injection Hrun as <- <- <-].
  apply loop_step_Some in Hrun
    as [(r1 & env1 & st2 & Hbody & _ & Hrest)|[[Hbody _]|(x & Hbody & _)]];
    apply enter_scope_Some in Hbody as [Henv _];
    try apply visit_block_keeps_frame; try exact Henv.
  subst env1. destruct post as [post|].
  - apply sbind_Some in Hrest as [(x & Hev & ->)|(v & env2 & st3 & Hev & Hrest)];
      apply in_env_Some in Hev as [_ ->]; [reflexivity|].
    eapply IH, Hrest.
  - eapply IH, Hrest.
Qed.

Section Loop.

Variables (cond post : ExprNode) (l : list StmtNode).
Hypothesis l_not_empty : l <> [].
Hypothesis l_admissible : forallb (admissible (names post)) l = true.

Local Abbreviation body' :=
  (_rewrite_continue_stmts (BlockStmt (add_trailing_continue l)) post).

Lemma while_step m env st :
  _visit_while_loop_stmt (S m) cond body' env st
  = sbind (in_env env (_evaluate_expr m cond env st)) (fun c env st =>
      if truthy c (host st) then
        loop_step (enter_scope (_visit_block_stmt m body') env st)
          (_visit_while_loop_stmt m cond body')
      else Some (Ok tt, env, st)).
Proof. reflexivity. Qed.

Lemma for_iterations_step m env st :
  Reference.for_iterations (S m) cond (Some post) l env st
  = sbind (in_env env (_evaluate_expr m cond env st)) (fun c env st =>
      if truthy c (host st) then
        loop_step (enter_scope (_visit_block_stmt m (BlockStmt l)) env st)
          (fun env st =>
             sbind (in_env env (_evaluate_expr m post env st))
               (fun _ env st =>
                  Reference.for_iterations m cond (Some post) l env st))
      else Some (Ok tt, env, st)).
Proof. reflexivity. Qed.

(** The rewritten body in its scope, from the body in its scope. *)
Lemma body_forward n env st r env1 st' R :
  _visit_block_stmt n (BlockStmt l) (enter env) st = Some (r, env1, st') ->
  lowered post env (then_continue r) st' R ->
  eventually (fun m => enter_scope (_visit_block_stmt m body') env st)
    (R.1, env, R.2).
Proof.
  intros Hrun Hlow.
  apply trailing_continue_forward in Hrun as [m Hm]; [|exact l_not_empty].
  apply (eventually_scope (fun m => _visit_block_stmt m body'))
    with (env1 := env1); [intros m'; apply visit_block_keeps_frame|].
  eapply (proj2 (sim_forward post env m));
    [apply add_trailing_continue_admissible, l_admissible
    |apply agree_enter|apply (Hm m); lia|exact Hlow].
Qed.

Lemma body_backward n env st r' st'' env' :
  enter_scope (_visit_block_stmt n body') env st = Some (r', env', st'') ->
  env' = env
  /\ exists r st' env1,
      eventually (fun m => _visit_block_stmt m (BlockStmt l) (enter env) st)
        (r, env1, st')
      /\ lowered post env (then_continue r) st' (r', st'').
Proof.
  intros Hrun.
  apply enter_scope_Some in Hrun as [-> [env1 Hrun]];
    [|apply visit_block_keeps_frame].
  split; [reflexivity|].
  destruct (proj2 (sim_backward post env n) _ _ _ _ _ _
              (add_trailing_continue_admissible _ _ l_admissible)
              (agree_enter _ env) Hrun) as (r1 & st' & [m Hm] & Hlow).
  destruct (trailing_continue_backward l m (enter env) st r1 env1 st'
              l_not_empty (Hm m ltac:(lia))) as (r & Hl & ->).
  exists r, st', env1. split; [exact Hl|exact Hlow].
Qed.

Lemma loop_forward n : forall env st R,
  Reference.for_iterations n cond (Some post) l env st = Some R ->
  eventually (fun m => _visit_while_loop_stmt m cond body' env st) R.
Proof.
  induction n as [|n IH]; intros env st R; [discriminate|].
  rewrite for_iterations_step. intros Hrun.
  eapply eventually_step; [exact (fun m => while_step m env st)|].
  destruct R as [[r env'] st'].
  apply sbind_Some in Hrun as [(x & Hev & ->)|(c & env1 & st1 & Hev & Hrun)];
    apply in_env_Some in Hev as [Hev ->].
  { apply eventually_sbind_raise, eventually_in_env.
    eapply evaluate_expr_eventually, Hev. }
  eapply eventually_sbind.
  { apply eventually_in_env. eapply evaluate_expr_eventually, Hev. }
  destruct (truthy c (host st1));
    [|injection Hrun as <- <- <-; apply eventually_const].
  apply loop_step_Some in Hrun
    as [(r1 & env1 & st2 & Hbody & Hr1 & Hrest)|[[Hbody ->]|(x & Hbody & -> & Hb & Hc)]];
    apply enter_scope_Some in Hbody as [Henv [env2 Hbody]];
    try apply visit_block_keeps_frame; subst.
  - assert (Hthen : then_continue r1 = Raise Continue)
      by (destruct Hr1 as [-> | ->]; reflexivity).
    apply sbind_Some in Hrest as [(x & Hev' & ->)|(v & env3 & st3 & Hev' & Hrest)];
      apply in_env_Some in Hev' as [Hev' ->].
    + pose proof (evaluate_expr_raises _ _ _ _ _ _ Hev') as [e ->].
      eapply eventually_loop_raise; [|discriminate|discriminate].
      apply (body_forward _ _ _ _ _ _ (Raise (Exc e), st') Hbody).
      right. split; [exact Hthen|]. eauto 10.
    + eapply eventually_loop_next; [|right; reflexivity|eapply IH, Hrest].
      apply (body_forward _ _ _ _ _ _ (Raise Continue, st3) Hbody).
      right. split; [exact Hthen|]. exists n, (Ok v), st3. auto.
  - eapply eventually_loop_break.
    apply (body_forward _ _ _ _ _ _ (Raise Break, st') Hbody).
    apply lowered_same. discriminate.
  - eapply eventually_loop_raise; [|exact Hb|exact Hc].
    apply (body_forward _ _ _ _ _ _ (Raise x, st') Hbody).
    apply lowered_same. cbn. congruence.
Qed.

Lemma loop_backward n : forall env st R,
  _visit_while_loop_stmt n cond body' env st = Some R ->
  eventually (fun m => Reference.for_iterations m cond (Some post) l env st) R.
Proof.
  induction n as [|n IH]; intros env st R; [discriminate|].
  rewrite while_step. intros Hrun.
  eapply eventually_step; [exact (fun m => for_iterations_step m env st)|].
  destruct R as [[r env'] st'].
  apply sbind_Some in Hrun as [(x & Hev & ->)|(c & env1 & st1 & Hev & Hrun)];
    apply in_env_Some in Hev as [Hev ->].
  { apply eventually_sbind_raise, eventually_in_env.
    eapply evaluate_expr_eventually, Hev. }
  eapply eventually_sbind.
  { apply eventually_in_env. eapply evaluate_expr_eventually, Hev. }
  destruct (truthy c (host st1));
    [|injection Hrun as <- <- <-; apply eventually_const].
  assert (Hscope : forall r0 env2 st2,
             eventually
               (fun m => _visit_block_stmt m (BlockStmt l) (enter env) st1)
               (r0, env2, st2) ->
             eventually
               (fun m => enter_scope (_visit_block_stmt m (BlockStmt l)) env st1)
               (r0, env, st2)).
  { intros r0 env2 st2.
    apply (eventually_scope (fun m => _visit_block_stmt m (BlockStmt l))).
    intros m. apply visit_block_keeps_frame. }
  apply loop_step_Some in Hrun
    as [(r1 & env1 & st2 & Hbody & Hr1 & Hrest)|[[Hbody ->]|(x & Hbody & -> & Hb & Hc)]];
    apply body_backward in Hbody as [-> (r0 & st0 & env2 & Hl & Hlow)].
  - destruct Hlow as [[Hnc [= Hr Hst]]|[Hthen (k & pr & st3 & Hpost & [= Hr Hst])]].
    { destruct Hr1 as [-> | ->]; [destruct r0; discriminate|congruence]. }
    subst st3.
    assert (Hpr : exists v, pr = Ok v).
    { destruct pr as [v|y]; [eauto|]. cbn in Hr.
      destruct Hr1 as [-> | ->]; [discriminate|]. injection Hr as <-.
      apply evaluate_expr_raises in Hpost as [e [=]]. }
    destruct Hpr as [v ->].
    eapply eventually_loop_next; [eapply Hscope, Hl| |].
    { destruct r0 as [[]|[]]; try discriminate; auto. }
    eapply eventually_sbind.
    { apply eventually_in_env. eapply evaluate_expr_eventually, Hpost. }
    eapply IH, Hrest.
  - destruct Hlow as [[Hnc [= Hr Hst]]|[Hthen (k & pr & st3 & Hpost & [= Hr Hst])]].
    + subst st0. assert (r0 = Raise Break) as -> by (destruct r0; [discriminate|now symmetry]).
      eapply eventually_loop_break, Hscope, Hl.
    + destruct pr as [v|y]; [discriminate|]. injection Hr as <-.
      apply evaluate_expr_raises in Hpost as [e [=]].
  - destruct Hlow as [[Hnc [= Hr Hst]]|[Hthen (k & pr & st3 & Hpost & [= Hr Hst])]].
    + subst st0. assert (r0 = Raise x) as ->.
      { destruct r0 as [[]|y]; cbn in Hr; [|now symmetry].
        injection Hr as ->. contradiction. }
      apply eventually_loop_raise; [eapply Hscope, Hl|exact Hb|exact Hc].
    + subst st3. destruct pr as [v|y]; cbn in Hr.
      { injection Hr as ->. contradiction. }
      injection Hr as ->.
      eapply eventually_loop_next; [eapply Hscope, Hl| |].
      { destruct r0 as [[]|[]]; try discriminate; auto. }
      apply eventually_sbind_raise, eventually_in_env.
      eapply evaluate_expr_eventually, Hpost.
Qed.

End Loop.


(** *** The whole loop *)

Lemma while_block_runs n c b env st R :
  _visit_block_stmt n (BlockStmt [WhileLoopStmt c b]) env st = Some R ->
  runs (fun k => _visit_while_loop_stmt k c b env st) R.
Proof.
  destruct n as [|n]; [discriminate|]. cbn [_visit_block_stmt].
  intros Hrun. destruct R as [[r env'] st'].
  apply sbind_Some in Hrun as [(x & Hev & ->)|([] & env1 & st1 & Hev & Hrun)];
    (destruct n as [|n]; [discriminate|]); cbn [_visit_stmt] in Hev.
  - now exists n.
  - cbn in Hrun. injection Hrun as <- <- <-. now exists n.
Qed.

Lemma while_block_eventually c b env st R :
  eventually (fun m => _visit_while_loop_stmt m c b env st) R ->
  eventually
    (fun m => _visit_block_stmt m (BlockStmt [WhileLoopStmt c b]) env st) R.
Proof.
  intros Hloop.
  assert (Hstmt : eventually (fun m => _visit_stmt m (WhileLoopStmt c b) env st) R)
    by (eapply eventually_step; [|exact Hloop]; reflexivity).
  apply eventually_step
    with (g := fun m =>
            sbind (_visit_stmt m (WhileLoopStmt c b) env st)
              (fun _ env st => _visit_block_stmt m (BlockStmt []) env st));
    [reflexivity|].
  destruct R as [[[[]|x] env'] st'].
  - eapply eventually_sbind; [exact Hstmt|].
    apply eventually_step with (g := fun _ => Some (Ok tt, env', st'));
      [reflexivity|apply eventually_const].
  - apply eventually_sbind_raise, Hstmt.
Qed.

Section ForLoop.

Variables (init : option StmtNode) (cond post : ExprNode).
Variable body : list StmtNode.
Hypothesis body_not_empty : body <> [].
Hypothesis body_admissible : forallb (admissible (names post)) body = true.

Lemma for_loop_keeps_frame n :
  keeps_frame (fun env st =>
    sbind (match init with
           | Some init => _visit_stmt n init env st
           | None => Some (Ok tt, env, st)
           end) (fun _ env st =>
    Reference.for_iterations n cond (Some post) body env st)).
Proof.
  intros env st r env' st' Hrun.
  assert (Hinit : forall r1 env1 st1,
             match init with
             | Some init => _visit_stmt n init env st
             | None => Some (Ok tt, env, st)
             end = Some (r1, env1, st1) -> frame env env1).
  { intros r1 env1 st1. destruct init as [i|].
    - apply visit_stmt_keeps_frame.
    - intros [= <- <- <-]. apply frame_refl. }
  apply sbind_Some in Hrun as [(x & Hev & ->)|(u & env1 & st1 & Hev & Hrun)].
  - eapply Hinit, Hev.
  - apply for_iterations_env in Hrun as ->. eapply Hinit, Hev.
Qed.

Lemma lowering_step m env st :
  _visit_stmt (S m) (_parse_for_loop_stmt init cond (Some post) body) env st
  = enter_scope
      (_visit_block_stmt m
         (BlockStmt
            (match init with Some i => [i] | None => [] end
             ++ [WhileLoopStmt cond
                   (_rewrite_continue_stmts
                      (BlockStmt (add_trailing_continue body)) post)])))
      env st.
Proof. reflexivity. Qed.

Lemma for_loop_forward n env st R :
  Reference.for_loop n init cond (Some post) body env st = Some R ->
  eventually
    (fun m =>
       _visit_stmt m (_parse_for_loop_stmt init cond (Some post) body) env st) R.
Proof.
  unfold Reference.for_loop. destruct R as [[r env'] st']. intros Hrun.
  apply enter_scope_Some in Hrun as [-> [env1 Hrun]];
    [|apply for_loop_keeps_frame].
  eapply eventually_step; [exact (fun m => lowering_step m env st)|].
  apply (eventually_scope
           (fun m => _visit_block_stmt m
              (BlockStmt
                 (match init with Some i => [i] | None => [] end
                  ++ [WhileLoopStmt cond
                        (_rewrite_continue_stmts
                           (BlockStmt (add_trailing_continue body)) post)]))))
    with (env1 := env1); [intros m; apply visit_block_keeps_frame|].
  destruct init as [i|]; cbn [app].
  - apply eventually_step
      with (g := fun m =>
              sbind (_visit_stmt m i (enter env) st)
                (fun _ env st =>
                   _visit_block_stmt m
                     (BlockStmt
                        [WhileLoopStmt cond
                           (_rewrite_continue_stmts
                              (BlockStmt (add_trailing_continue body)) post)])
                     env st));
      [reflexivity|].
    apply sbind_Some in Hrun as [(x & Hev & ->)|([] & env2 & st2 & Hev & Hrun)].
    + apply eventually_sbind_raise. eapply visit_stmt_eventually, Hev.
    + eapply eventually_sbind; [eapply visit_stmt_eventually, Hev|].
      eapply while_block_eventually, loop_forward; eassumption.
  - cbn [sbind] in Hrun.
    eapply while_block_eventually, loop_forward; eassumption.
Qed.

Lemma for_loop_backward n env st R :
  _visit_stmt n (_parse_for_loop_stmt init cond (Some post) body) env st
  = Some R ->
  eventually
    (fun m => Reference.for_loop m init cond (Some post) body env st) R.
Proof.
  destruct n as [|n]; [discriminate|]. rewrite lowering_step.
  destruct R as [[r env'] st']. intros Hrun.
  apply enter_scope_Some in Hrun as [-> [env1 Hrun]];
    [|apply visit_block_keeps_frame].
  apply (eventually_scope
           (fun m env st =>
              sbind (match init with
                     | Some init => _visit_stmt m init env st
                     | None => Some (Ok tt, env, st)
                     end) (fun _ env st =>
              Reference.for_iterations m cond (Some post) body env st)))
    with (env1 := env1); [intros m; apply for_loop_keeps_frame|].
  destruct init as [i|]; cbn [app] in Hrun.
  - destruct n as [|n]; [discriminate|]. cbn [_visit_block_stmt] in Hrun.
    apply sbind_Some in Hrun as [(x & Hev & ->)|([] & env2 & st2 & Hev & Hrun)].
    + apply eventually_sbind_raise. eapply visit_stmt_eventually, Hev.
    + eapply eventually_sbind; [eapply visit_stmt_eventually, Hev|].
      apply while_block_runs in Hrun as [k Hrun].
      eapply loop_backward; eassumption.
  - apply while_block_runs in Hrun as [k Hrun].
    apply eventually_ext
      with (g := fun m =>
                   Reference.for_iterations m cond (Some post) body
                     (enter env) st); [reflexivity|].
    eapply loop_backward; eassumption.
Qed.

End ForLoop.

(** *** A loop whose lowering never ends *)

Lemma evaluate_expr_unique n k expr env st r r' :
  _evaluate_expr n expr env st = Some r ->
  _evaluate_expr k expr env st = Some r' -> r = r'.
Proof.
  intros Hn Hk.
  apply (evaluate_expr_mono n (n `max` k)) in Hn; [|lia].
  apply (evaluate_expr_mono k (n `max` k)) in Hk; [|lia]. congruence.
Qed.

Lemma visit_stmt_unique n k stmt env st r r' :
  _visit_stmt n stmt env st = Some r ->
  _visit_stmt k stmt env st = Some r' -> r = r'.
Proof.
  intros Hn Hk.
  apply (visit_stmt_mono n (n `max` k)) in Hn; [|lia].
  apply (visit_stmt_mono k (n `max` k)) in Hk; [|lia]. congruence.
Qed.

(** [while (cond) {}] with a condition that holds and leaves the state as
    it is. *)
Lemma while_true_empty_diverges k cond c env st :
  _evaluate_expr k cond env st = Some (Ok c, st) ->
  truthy c (host st) = true ->
  forall n, _visit_while_loop_stmt n cond (BlockStmt []) env st = None.
Proof.
  intros Hcond Htrue. induction n as [|n IH]; [reflexivity|].
  cbn [_visit_while_loop_stmt].
  destruct (_evaluate_expr n cond env st) as [r|] eqn:Hev; [|reflexivity].
  rewrite (evaluate_expr_unique _ _ _ _ _ _ _ Hev Hcond).
  cbn [in_env sbind]. rewrite Htrue.
  destruct n as [|n]; [reflexivity|].
  rewrite (enter_scope_run _ env st (Ok tt) (enter env) st);
    [exact IH|apply visit_block_keeps_frame|reflexivity].
Qed.

End WithHost.

(** *** The lowering against the reference loop *)

(** C2, as the code has it: for a loop [for (INIT; COND; POST) BODY] whose
    body is not empty and is admissible for POST (outside nested loops it
    holds no try statement and declares no name that POST reads or
    assigns), the parser's lowering runs to an outcome (the result, the
    environment and the state, with everything the host has seen) exactly
    when the loop of the reference semantics does, in which POST is
    evaluated, in the scope of the loop, after every iteration that ends
    normally or by continue. *)
Theorem for_loop_lowering_equivalent `{Host} (init : option StmtNode)
    (cond post : ExprNode) (body : list StmtNode) (env : RuntimeEnv)
    (st : State) (R : result unit * RuntimeEnv * State) :
  body <> [] ->
  forallb (admissible (names post)) body = true ->
  runs (fun n =>
          _visit_stmt n (_parse_for_loop_stmt init cond (Some post) body) env st)
    R
  <-> runs (fun n => Reference.for_loop n init cond (Some post) body env st) R.
Proof.
  intros Hbody Hadm. split; intros [n Hrun].
  - eapply eventually_runs, for_loop_backward; eassumption.
  - eapply eventually_runs, for_loop_forward; eassumption.
Qed.

(** The loop [for (let i = 0; lt(i, 3); i = add(i, 1)) { n = add(n, 1); }]:
    the reference loop ends with 3 in [n], and so the lowered loop ends in
    the same state. *)
Lemma for_loop_lowering_equivalent_witness :
  exists R,
    Reference.for_loop 12 (Some loop_init) loop_cond (Some loop_post) [count]
      counting.1 counting.2 = Some R
    /\ runs (fun n =>
               _visit_stmt n
                 (_parse_for_loop_stmt (Some loop_init) loop_cond
                    (Some loop_post) [count]) counting.1 counting.2) R
    /\ n_after (Some R) = Some (Ok (VInt 3)).
Proof.
  destruct (Reference.for_loop 12 (Some loop_init) loop_cond (Some loop_post)
              [count] counting.1 counting.2) as [R|] eqn:Hrun.
  - exists R. split; [reflexivity|]. split.
    + apply (for_loop_lowering_equivalent (Some loop_init) loop_cond loop_post
               [count] counting.1 counting.2 R);
        [intros Hnil; discriminate Hnil|reflexivity|exists 12; exact Hrun].
    + vm_compute in Hrun. injection Hrun as <-. vm_compute. reflexivity.
  - vm_compute in Hrun. discriminate Hrun.
Defined.

(** C2 as stated fails on
    [for (let i = 0; lt(i, 3); i = add(i, 1)) { let i = 10; n = add(n, 1); }]:
    in the lowered loop the post expression runs inside the scope of the
    body, where [i] is the body's own variable (and the assignment writes
    every binding of the name), so the loop ends after one iteration; with
    the post expression evaluated after the iteration, in the scope of the
    loop, there are three. *)
Lemma for_loop_shadowing_counterexample :
  forallb (admissible (names loop_post)) shadowing_body = false
  /\ n_after (_visit_stmt 20
                (_parse_for_loop_stmt (Some loop_init) loop_cond
                   (Some loop_post) shadowing_body) counting.1 counting.2)
     = Some (Ok (VInt 1))
  /\ n_after (Reference.for_loop 12 (Some loop_init) loop_cond (Some loop_post)
                shadowing_body counting.1 counting.2)
     = Some (Ok (VInt 3))
  /\ ~ (forall R,
          runs (fun n =>
                  _visit_stmt n
                    (_parse_for_loop_stmt (Some loop_init) loop_cond
                       (Some loop_post) shadowing_body) counting.1 counting.2)
            R
          <-> runs (fun n =>
                      Reference.for_loop n (Some loop_init) loop_cond
                        (Some loop_post) shadowing_body counting.1 counting.2)
                R).
Proof.
  assert (Hcode : n_after (_visit_stmt 20
                    (_parse_for_loop_stmt (Some loop_init) loop_cond
                       (Some loop_post) shadowing_body) counting.1 counting.2)
                  = Some (Ok (VInt 1))) by (vm_compute; reflexivity).
  assert (Hspec : n_after (Reference.for_loop 12 (Some loop_init) loop_cond
                    (Some loop_post) shadowing_body counting.1 counting.2)
                  = Some (Ok (VInt 3))) by (vm_compute; reflexivity).
  split; [vm_compute; reflexivity|]. split; [exact Hcode|]. split; [exact Hspec|].
  intros Hiff.
  destruct (Reference.for_loop 12 (Some loop_init) loop_cond (Some loop_post)
              shadowing_body counting.1 counting.2) as [R2|] eqn:H2;
    [|discriminate Hspec].
  destruct (proj2 (Hiff R2) (ex_intro _ 12 H2)) as [k Hlow].
  destruct (_visit_stmt 20
              (_parse_for_loop_stmt (Some loop_init) loop_cond (Some loop_post)
                 shadowing_body) counting.1 counting.2) as [R1|] eqn:H1;
    [|discriminate Hcode].
  rewrite (visit_stmt_unique _ _ _ _ _ _ _ Hlow H1) in Hspec.
  rewrite Hcode in Hspec. discriminate Hspec.
Qed.

(** [for (let i = 0; lt(i, 3); i = add(i, 1)) {}]: the lowering appends no
    [continue] to an empty body, so the post expression is never evaluated
    and the loop does not end; the reference loop ends after three
    iterations. *)
Lemma empty_body_lowering_diverges :
  (forall n,
      _visit_stmt n
        (_parse_for_loop_stmt (Some loop_init) loop_cond (Some loop_post) [])
        counting.1 counting.2 = None)
  /\ outcome (Reference.for_loop 12 (Some loop_init) loop_cond (Some loop_post)
                [] counting.1 counting.2) = Some (Ok tt).
Proof.
  split; [|vm_compute; reflexivity].
  intros n.
  destruct (_visit_stmt n _ _ _) as [[[r env'] st']|] eqn:Hrun;
    [exfalso|reflexivity].
  destruct n as [|n]; [discriminate Hrun|]. rewrite lowering_step in Hrun.
  apply enter_scope_Some in Hrun as [-> [env1 Hrun]];
    [|apply visit_block_keeps_frame].
  destruct n as [|n]; [discriminate Hrun|].
  cbn [app _visit_block_stmt] in Hrun.
  assert (Hinit : _visit_stmt 2 loop_init (enter counting.1) counting.2
                  = Some (Ok tt, in_loop.1, in_loop.2))
    by (vm_compute; reflexivity).
  assert (Hcond : _evaluate_expr 4 loop_cond in_loop.1 in_loop.2
                  = Some (Ok (VBool true), in_loop.2))
    by (vm_compute; reflexivity).
  assert (Htrue : forall h, truthy (VBool true) h = true) by reflexivity.
  pose proof (while_true_empty_diverges 4 loop_cond (VBool true) in_loop.1
                in_loop.2 Hcond (Htrue _)) as Hloop.
  apply sbind_Some in Hrun as [(x & Hev & ->)|([] & env2 & st2 & Hev & Hrun)];
    pose proof (visit_stmt_unique _ _ _ _ _ _ _ Hev Hinit) as Heq;
    [discriminate Heq|].
  remember in_loop.1 as env_i eqn:Henv. remember in_loop.2 as st_i eqn:Hst.
  injection Heq as -> ->.
  apply while_block_runs in Hrun as [k Hrun].
  cbn [add_trailing_continue last _rewrite_continue_stmts map] in Hrun.
  rewrite Hloop in Hrun. discriminate Hrun.
Qed.

(** [for (let i = 0; lt(i, 3); i = add(i, 1)) { try { missing; } catch {}
    n = add(n, 1); }]: in the try statement that [_rewrite_continue_stmts]
    rebuilds, the catch block and the name of the error variable have
    changed places, and the handler fails on the first error it is to
    handle; the reference loop runs to its end. *)
Lemma rewritten_try_handler_raises_attribute_error :
  outcome (_visit_stmt 20
             (_parse_for_loop_stmt (Some loop_init) loop_cond (Some loop_post)
                [failing; count]) counting.1 counting.2)
  = Some (Raise AttributeError)
  /\ outcome (Reference.for_loop 12 (Some loop_init) loop_cond (Some loop_post)
                [failing; count] counting.1 counting.2)
     = Some (Ok tt).
Proof. split; vm_compute; reflexivity. Qed.

(** [for (let i = 0; lt(i, 3); i = add(i, 1)) { try { missing; } catch
    { n = add(n, 1); } }]: the loop ends with AttributeError in its first
    iteration and [n] is still 0, the catch block has not run; the
    reference loop runs the catch block three times. *)
Lemma for_loop_try_never_runs_catch_block :
  let code :=
    _visit_stmt 20
      (_parse_for_loop_stmt (Some loop_init) loop_cond (Some loop_post)
         [counted_failure]) counting.1 counting.2 in
  let reference :=
    Reference.for_loop 14 (Some loop_init) loop_cond (Some loop_post)
      [counted_failure] counting.1 counting.2 in
  outcome code = Some (Raise AttributeError)
  /\ n_after code = Some (Ok (VInt 0))
  /\ outcome reference = Some (Ok tt)
  /\ n_after reference = Some (Ok (VInt 3)).
Proof. repeat split; vm_compute; reflexivity. Qed.

End LoweringFacts.

(** ** The lexer: termination and the shape of the tokens *)

Module LexerRuns.
Import Lexer Tokens.

Section WithSource.
Variable src : string.
Local Abbreviation L := (String.length src).

Lemma get_Some_lt n (s : string) c : String.get n s = Some c -> n < String.length s.
Proof.
  revert n. induction s as [|a s IH]; intros [|n] Hget; simpl in *;
    try discriminate; try lia.
  apply IH in Hget. lia.
Qed.

Lemma get_lt_Some n (s : string) : n < String.length s -> exists c, String.get n s = Some c.
Proof.
  revert n. induction s as [|a s IH]; intros [|n] Hlt; simpl in *; try lia; eauto.
  apply IH. lia.
Qed.

Lemma is_done_false s : _is_done src s = false <-> pos s < L.
Proof. unfold _is_done. rewrite Nat.leb_gt. reflexivity. Qed.

Lemma is_done_true s : _is_done src s = true <-> L <= pos s.
Proof. unfold _is_done. rewrite Nat.leb_le. reflexivity. Qed.

Lemma next_Done s c s' :
  _next src s = Done c s' ->
  String.get (pos s) src = Some c /\ pos s' = S (pos s) /\ pos s < L.
Proof.
  unfold _next. destruct (String.get (pos s) src) as [a|] eqn:Hget; [|discriminate].
  pose proof (get_Some_lt _ _ _ Hget).
  destruct (Ascii.eqb a newline); intros [= <- <-]; auto.
Qed.

Lemma next_not_done s :
  pos s < L -> exists c s', _next src s = Done c s' /\ pos s' = S (pos s).
Proof.
  intros Hlt. destruct (get_lt_Some _ _ Hlt) as [c Hget].
  unfold _next. rewrite Hget. destruct (Ascii.eqb c newline); eauto.
Qed.

Lemma next_finished s : finished (_next src s) = true.
Proof. unfold _next. destruct (String.get _ _); [destruct (Ascii.eqb _ _)|]; reflexivity. Qed.

Lemma peek_Done s c s' :
  _peek src s = Done c s' -> s' = s /\ String.get (pos s) src = Some c.
Proof.
  unfold _peek. destruct (_next src s) as [a s1| |] eqn:Hnext; try discriminate.
  simpl. intros [= <- <-]. apply next_Done in Hnext. tauto.
Qed.

Lemma peek_not_done s :
  pos s < L -> exists c, _peek src s = Done c s /\ String.get (pos s) src = Some c.
Proof.
  intros Hlt. destruct (next_not_done s Hlt) as (c & s' & Hnext & _).
  exists c. unfold _peek. rewrite Hnext. split; [reflexivity|].
  now apply next_Done in Hnext.
Qed.


Lemma substring_get n m c :
  String.get n src = Some c ->
  substring n (S m) src = String c (substring (S n) m src).
Proof.
  generalize src. intros s. revert n.
  induction s as [|a s IH]; intros [|n] Hget; simpl in *; try discriminate.
  - now injection Hget as ->.
  - now apply IH.
Qed.

Lemma substring_0 n (s : string) : substring n 0 s = EmptyString.
Proof. revert n. induction s as [|a s IH]; intros [|n]; simpl; auto. Qed.

(** What a run accepts: the characters from the position on that satisfy
    the predicate, up to the first that does not or to the end. *)
Lemma accept_run_Done pred fuel : forall s chars s',
  _accept_run src fuel pred s = Done chars s' ->
  pos s' = pos s + String.length chars
  /\ chars = substring (pos s) (String.length chars) src
  /\ all_chars pred chars = true
  /\ match String.get (pos s') src with
     | Some c => pred c = false
     | None => True
     end.
Proof.
  induction fuel as [|fuel IH]; intros s chars s'; [discriminate|].
  cbn [_accept_run]. destruct (_is_done src s) eqn:Hdone.
  - intros [= <- <-]. simpl. rewrite substring_0, Nat.add_0_r.
    repeat split. apply is_done_true in Hdone.
    destruct (String.get (pos s) src) as [c|] eqn:Hget; [|exact I].
    apply get_Some_lt in Hget. lia.
  - apply is_done_false in Hdone.
    destruct (peek_not_done s Hdone) as (c & -> & Hget). cbn [bind].
    destruct (pred c) eqn:Hpred.
    + destruct (next_not_done s Hdone) as (c' & s1 & Hnext & Hpos).
      rewrite Hnext. cbn [bind].
      destruct (_accept_run src fuel pred s1) as [chars1 s2| |] eqn:Hrun;
        try discriminate.
      cbn [bind]. intros [= <- <-].
      destruct (IH _ _ _ Hrun) as (Hp & Hsub & Hall & Hstop).
      simpl String.length. rewrite (substring_get _ _ _ Hget), <- Hpos, <- Hsub.
      repeat split; [lia| |exact Hstop].
      unfold all_chars. simpl. now rewrite Hpred.
    + intros [= <- <-]. simpl. rewrite substring_0, Nat.add_0_r, Hget.
      repeat split. exact Hpred.
Qed.

Lemma accept_run_total pred fuel : forall s,
  L - pos s < fuel ->
  exists chars s', _accept_run src fuel pred s = Done chars s'.
Proof.
  induction fuel as [|fuel IH]; intros s Hfuel; [lia|].
  cbn [_accept_run]. destruct (_is_done src s) eqn:Hdone; [eauto|].
  apply is_done_false in Hdone.
  destruct (peek_not_done s Hdone) as (c & -> & Hget). cbn [bind].
  destruct (pred c); [|eauto].
  destruct (next_not_done s Hdone) as (c' & s1 & -> & Hpos). cbn [bind].
  destruct (IH s1 ltac:(lia)) as (chars & s2 & ->). cbn [bind]. eauto.
Qed.


Lemma bind_finished {A B} (m : res A) (k : A -> LexerState -> res B) :
  finished m = true ->
  (forall a s, m = Done a s -> finished (k a s) = true) ->
  finished (bind m k) = true.
Proof. destruct m; simpl; auto; discriminate. Qed.

Lemma line_comment_Done fuel : forall s u s',
  _lex_line_comment src fuel s = Done u s' -> pos s <= pos s'.
Proof.
  induction fuel as [|fuel IH]; intros s u s'; [discriminate|].
  cbn [_lex_line_comment]. destruct (_is_done src s); [intros [= _ <-]; lia|].
  destruct (_next src s) as [c s1| |] eqn:Hnext; try discriminate. cbn [bind].
  apply next_Done in Hnext as (_ & Hpos & _).
  destruct (negb _); [intros Hrun; apply IH in Hrun; lia|intros [= _ <-]; lia].
Qed.

Lemma line_comment_finished fuel : forall s,
  L - pos s < fuel -> finished (_lex_line_comment src fuel s) = true.
Proof.
  induction fuel as [|fuel IH]; intros s Hfuel; [lia|].
  cbn [_lex_line_comment]. destruct (_is_done src s) eqn:Hdone; [reflexivity|].
  apply is_done_false in Hdone.
  destruct (next_not_done s Hdone) as (c & s1 & -> & Hpos). cbn [bind].
  destruct (negb _); [apply IH; lia|reflexivity].
Qed.

Lemma multiline_comment_loop_Done fuel : forall c1 c2 s cs s',
  multiline_comment_loop src fuel c1 c2 s = Done cs s' -> pos s <= pos s'.
Proof.
  induction fuel as [|fuel IH]; intros c1 c2 s cs s'; [discriminate|].
  cbn [multiline_comment_loop]. destruct (_ || _); [|intros [= _ <-]; lia].
  destruct (_next src s) as [c s1| |] eqn:Hnext; try discriminate. cbn [bind].
  apply next_Done in Hnext as (_ & Hpos & _).
  intros Hrun. apply IH in Hrun. lia.
Qed.

Lemma multiline_comment_loop_finished fuel : forall c1 c2 s,
  L - pos s < fuel -> finished (multiline_comment_loop src fuel c1 c2 s) = true.
Proof.
  induction fuel as [|fuel IH]; intros c1 c2 s Hfuel; [lia|].
  cbn [multiline_comment_loop]. destruct (_ || _); [|reflexivity].
  destruct (_next src s) as [c s1| |] eqn:Hnext; try reflexivity.
  - cbn [bind]. apply next_Done in Hnext as (_ & Hpos & Hlt). apply IH. lia.
  - pose proof (next_finished s) as Hfin. now rewrite Hnext in Hfin.
Qed.

Lemma lex_multiline_comment_Done fuel s u s' :
  _lex_multiline_comment src fuel s = Done u s' -> pos s + 2 <= pos s'.
Proof.
  unfold _lex_multiline_comment.
  destruct (_next src s) as [c1 s1| |] eqn:Hn1; try discriminate. cbn [bind].
  destruct (_next src s1) as [c2 s2| |] eqn:Hn2; try discriminate. cbn [bind].
  destruct (multiline_comment_loop src fuel c1 c2 s2) as [cs s3| |] eqn:Hloop;
    try discriminate.
  cbn [bind]. destruct (_ || _); [discriminate|]. intros [= _ <-].
  apply next_Done in Hn1 as (_ & Hp1 & _). apply next_Done in Hn2 as (_ & Hp2 & _).
  apply multiline_comment_loop_Done in Hloop. lia.
Qed.

Lemma lex_multiline_comment_finished fuel s :
  L - pos s < fuel -> finished (_lex_multiline_comment src fuel s) = true.
Proof.
  intros Hfuel. unfold _lex_multiline_comment.
  apply bind_finished; [apply next_finished|]. intros c1 s1 Hn1.
  apply bind_finished; [apply next_finished|]. intros c2 s2 Hn2.
  apply next_Done in Hn1 as (_ & Hp1 & Hl1).
  apply next_Done in Hn2 as (_ & Hp2 & Hl2).
  apply bind_finished; [apply multiline_comment_loop_finished; lia|].
  intros cs s3 _. now destruct (_ || _).
Qed.

(** The loop of a string literal stops right after an unescaped quote, or
    at the end of the input. *)
Lemma str_lit_loop_Done fuel : forall in_escape s flags s',
  str_lit_loop src fuel in_escape s = Done flags s' ->
  pos s <= pos s'
  /\ (snd flags = true ->
      pos s < pos s' /\ String.get (pred (pos s')) src = Some dquote).
Proof.
  induction fuel as [|fuel IH]; intros in_escape s flags s'; [discriminate|].
  cbn [str_lit_loop]. destruct (_is_done src s).
  { intros [= <- <-]. split; [lia|discriminate]. }
  destruct (_next src s) as [c s1| |] eqn:Hnext; try discriminate. cbn [bind].
  apply next_Done in Hnext as (Hget & Hpos & _).
  assert (Hrec : forall e, str_lit_loop src fuel e s1 = Done flags s' ->
            pos s <= pos s'
            /\ (snd flags = true ->
                pos s < pos s' /\ String.get (pred (pos s')) src = Some dquote)).
  { intros e Hrun. destruct (IH _ _ _ _ Hrun) as [Hle Hq].
    split; [lia|]. intros Hclose. destruct (Hq Hclose). split; [lia|assumption]. }
  destruct in_escape; [apply Hrec|].
  destruct (Ascii.eqb c backslash); [apply Hrec|].
  destruct (Ascii.eqb c dquote) eqn:Hq; [|apply Hrec].
  intros [= <- <-]. apply Ascii.eqb_eq in Hq as ->.
  split; [lia|]. intros _. rewrite Hpos. simpl. split; [lia|exact Hget].
Qed.

Lemma str_lit_loop_finished fuel : forall in_escape s,
  L - pos s < fuel -> finished (str_lit_loop src fuel in_escape s) = true.
Proof.
  induction fuel as [|fuel IH]; intros in_escape s Hfuel; [lia|].
  cbn [str_lit_loop]. destruct (_is_done src s) eqn:Hdone; [reflexivity|].
  apply is_done_false in Hdone.
  destruct (next_not_done s Hdone) as (c & s1 & -> & Hpos). cbn [bind].
  destruct in_escape; [apply IH; lia|].
  destruct (Ascii.eqb c backslash); [apply IH; lia|].
  destruct (Ascii.eqb c dquote); [reflexivity|apply IH; lia].
Qed.


Lemma substring_length n m (s : string) :
  n + m <= String.length s -> String.length (substring n m s) = m.
Proof.
  revert n m. induction s as [|a s IH]; intros [|n] [|m] Hle; simpl in *;
    try lia; try reflexivity.
  - f_equal. apply (IH 0 m). lia.
  - apply (IH n 0). lia.
  - apply (IH n (S m)). lia.
Qed.

Lemma substring_get_at n m i (s : string) :
  i < m -> String.get i (substring n m s) = String.get (n + i) s.
Proof.
  revert n m i. induction s as [|a s IH]; intros n m i Hlt.
  - destruct n, m, i; simpl; reflexivity || lia.
  - destruct n as [|n]; destruct m as [|m]; try lia; simpl.
    + destruct i as [|i]; [reflexivity|]. apply (IH 0 m i). lia.
    + apply (IH n (S m) i). lia.
Qed.

(** A run that starts on a character of the class is not empty. *)
Lemma accept_run_first pred fuel s chars s' c :
  _accept_run src fuel pred s = Done chars s' ->
  String.get (pos s) src = Some c -> pred c = true ->
  exists rest, chars = String c rest.
Proof.
  intros Hrun Hget Hpred.
  destruct (accept_run_Done _ _ _ _ _ Hrun) as (Hpos & Hsub & _ & Hstop).
  destruct chars as [|a rest].
  - simpl in Hpos. rewrite Nat.add_0_r in Hpos. rewrite Hpos, Hget in Hstop.
    congruence.
  - simpl in Hsub. rewrite (substring_get _ _ _ Hget) in Hsub.
    injection Hsub as -> _. eauto.
Qed.

Lemma keywords_kind w k t :
  KEYWORDS w = Some k -> tok_kind t = k -> tok_val t = w -> token_ok t.
Proof.
  intros Hk Hkind Hval. unfold token_ok. rewrite Hkind, Hval. cbv zeta.
  pose proof Hk as Hk'. unfold KEYWORDS in Hk'.
  repeat (destruct (String.eqb w _) in Hk'; [injection Hk' as <-; exact Hk|]).
  discriminate.
Qed.

Lemma syntax_kind c k t :
  SYNTAX c = Some k -> tok_kind t = k -> tok_val t = String c EmptyString ->
  token_ok t.
Proof.
  intros Hk Hkind Hval. unfold token_ok. rewrite Hkind, Hval. cbv zeta.
  assert (Hc : exists c0, String c EmptyString = String c0 EmptyString
                          /\ SYNTAX c0 = Some k) by eauto.
  pose proof Hk as Hk'. unfold SYNTAX in Hk'.
  repeat (destruct (Ascii.eqb c _) in Hk'; [injection Hk' as <-; exact Hc|]).
  discriminate.
Qed.

Lemma lex_identifier_Done fuel s tok s' c :
  _lex_identifier src fuel s = Done tok s' ->
  String.get (pos s) src = Some c -> (isalpha c || Ascii.eqb c "_") = true ->
  pos s < pos s' /\ token_ok tok.
Proof.
  unfold _lex_identifier. intros Hrun Hget Hc.
  destruct (_accept_run src fuel is_word_char s) as [w s1| |] eqn:Hw;
    try discriminate.
  cbn [bind] in Hrun.
  assert (Hwc : is_word_char c = true).
  { unfold is_word_char, isalnum. apply orb_true_iff in Hc as [-> | ->];
      [reflexivity|apply orb_true_r]. }
  destruct (accept_run_first _ _ _ _ _ _ Hw Hget Hwc) as [rest ->].
  destruct (accept_run_Done _ _ _ _ _ Hw) as (Hpos & _ & Hall & _).
  simpl in Hpos.
  assert (Hword : word (String c rest)) by (split; eauto).
  destruct (KEYWORDS (String c rest)) as [kind|] eqn:Hk.
  { injection Hrun as <- <-. split; [lia|].
    now apply (keywords_kind (String c rest) kind). }
  destruct (_ || _) eqn:Hbool.
  { injection Hrun as <- <-. split; [lia|]. unfold token_ok. simpl.
    apply orb_true_iff in Hbool as [Hb|Hb]; apply String.eqb_eq in Hb; auto. }
  apply orb_false_iff in Hbool as [Ht Hf].
  destruct (String.eqb (String c rest) "null") eqn:Hnull.
  { injection Hrun as <- <-. split; [lia|]. unfold token_ok. simpl.
    now apply String.eqb_eq in Hnull. }
  injection Hrun as <- <-. split; [lia|]. unfold token_ok. simpl.
  apply String.eqb_neq in Ht, Hf, Hnull. auto.
Qed.

Lemma lex_identifier_finished fuel s :
  L - pos s < fuel -> finished (_lex_identifier src fuel s) = true.
Proof.
  intros Hfuel. unfold _lex_identifier.
  destruct (accept_run_total is_word_char fuel s Hfuel) as (w & s1 & ->).
  cbn [bind]. destruct (KEYWORDS w); [reflexivity|].
  destruct (_ || _); [reflexivity|]. now destruct (String.eqb w "null").
Qed.

Lemma lex_num_lit_Done fuel s tok s' :
  _lex_num_lit src fuel s = Done tok s' ->
  exists whole,
    digits whole
    /\ (whole = EmptyString ->
        forall c, String.get (pos s) src = Some c -> isdigit c = false)
    /\ ((tok_kind tok = INT_LIT /\ tok_val tok = whole
         /\ pos s' = pos s + String.length whole
         /\ exists c, String.get (pos s') src = Some c
                      /\ Ascii.eqb c "." = false)
        \/ (tok_kind tok = FLOAT_LIT /\ pos s < pos s'
            /\ exists frac,
                tok_val tok = (whole ++ "." ++ frac)%string /\ digits frac)).
Proof.
  unfold _lex_num_lit.
  destruct (_accept_run src fuel isdigit s) as [whole s1| |] eqn:Hw;
    try discriminate.
  cbn [bind].
  destruct (accept_run_Done _ _ _ _ _ Hw) as (Hpos & _ & Hall & Hstop).
  assert (Hempty : whole = EmptyString ->
            forall c, String.get (pos s) src = Some c -> isdigit c = false).
  { intros -> c Hget. simpl in Hpos. rewrite Nat.add_0_r in Hpos.
    now rewrite Hpos, Hget in Hstop. }
  destruct (_peek src s1) as [c s2| |] eqn:Hpeek; try discriminate. cbn [bind].
  apply peek_Done in Hpeek as [-> Hget].
  destruct (Ascii.eqb c ".") eqn:Hdot.
  - unfold _ignore.
    destruct (_next src s1) as [c' s2| |] eqn:Hnext; try discriminate.
    cbn [bind]. apply next_Done in Hnext as (_ & Hp2 & _).
    destruct (_accept_run src fuel isdigit s2) as [frac s3| |] eqn:Hf;
      try discriminate.
    cbn [bind]. intros [= <- <-].
    destruct (accept_run_Done _ _ _ _ _ Hf) as (Hp3 & _ & Hallf & _).
    exists whole. split; [exact Hall|]. split; [exact Hempty|]. right. simpl.
    split; [reflexivity|]. split; [lia|]. eauto.
  - intros [= <- <-]. exists whole. split; [exact Hall|].
    split; [exact Hempty|]. left. simpl. eauto 10.
Qed.

Lemma lex_num_lit_finished fuel s :
  L - pos s < fuel -> finished (_lex_num_lit src fuel s) = true.
Proof.
  intros Hfuel. unfold _lex_num_lit.
  destruct (accept_run_total isdigit fuel s Hfuel) as (whole & s1 & Hw).
  rewrite Hw. cbn [bind].
  destruct (accept_run_Done _ _ _ _ _ Hw) as (Hpos & _).
  destruct (_peek src s1) as [c s2| |] eqn:Hpeek; try reflexivity.
  - cbn [bind]. apply peek_Done in Hpeek as [-> Hget].
    destruct (Ascii.eqb c "."); [|reflexivity]. unfold _ignore.
    destruct (_next src s1) as [c' s2| |] eqn:Hnext; try reflexivity.
    + cbn [bind]. apply next_Done in Hnext as (_ & Hp2 & Hlt).
      destruct (accept_run_total isdigit fuel s2 ltac:(lia)) as (frac & s3 & ->).
      reflexivity.
    + pose proof (next_finished s1) as Hfin. now rewrite Hnext in Hfin.
  - unfold _peek in Hpeek. pose proof (next_finished s1) as Hfin.
    destruct (_next src s1); try discriminate.
Qed.

Lemma lex_str_lit_Done fuel s tok s' :
  _lex_str_lit src fuel s = Done tok s' ->
  String.get (pos s) src = Some dquote ->
  pos s < pos s' /\ token_ok tok.
Proof.
  unfold _lex_str_lit, _ignore. intros Hrun Hget.
  destruct (_next src s) as [c s1| |] eqn:Hnext; try discriminate.
  cbn [bind] in Hrun. apply next_Done in Hnext as (_ & Hp1 & _).
  destruct (str_lit_loop src fuel false s1) as [[in_escape found_close] s2| |]
    eqn:Hloop; try discriminate.
  cbn [bind] in Hrun. destruct found_close; [|discriminate].
  destruct in_escape; [discriminate|]. cbn [negb] in Hrun.
  injection Hrun as <- <-.
  destruct (str_lit_loop_Done _ _ _ _ _ Hloop) as [_ Hclose].
  destruct (Hclose eq_refl) as [Hlt Hq]. pose proof (get_Some_lt _ _ _ Hq) as HL.
  split; [lia|]. unfold token_ok. simpl.
  rewrite substring_length by lia.
  split; [lia|]. split.
  - rewrite substring_get_at by lia. now rewrite Nat.add_0_r.
  - rewrite substring_get_at by lia.
    replace (pos s + (pos s2 - pos s - 1)) with (pred (pos s2)) by lia.
    exact Hq.
Qed.

Lemma lex_str_lit_finished fuel s :
  L - pos s < fuel -> finished (_lex_str_lit src fuel s) = true.
Proof.
  intros Hfuel. unfold _lex_str_lit, _ignore.
  apply bind_finished; [apply next_finished|]. intros c s1 Hnext.
  apply next_Done in Hnext as (_ & Hp1 & Hlt).
  apply bind_finished; [apply str_lit_loop_finished; lia|].
  intros [in_escape found_close] s2 _.
  destruct found_close; [|reflexivity]. now destruct in_escape.
Qed.


(** A number literal that starts on a digit or on a dot. *)
Lemma lex_num_lit_token fuel s tok s' c :
  _lex_num_lit src fuel s = Done tok s' ->
  String.get (pos s) src = Some c ->
  isdigit c = true \/ Ascii.eqb c "." = true ->
  pos s < pos s' /\ token_ok tok.
Proof.
  intros Hrun Hget Hc.
  destruct (lex_num_lit_Done _ _ _ _ Hrun)
    as (whole & Hdigits & Hempty
        & [(Hkind & Hval & Hpos & c' & Hget' & Hdot)
          |(Hkind & Hlt & frac & Hval & Hfrac)]).
  - assert (Hne : whole <> EmptyString).
    { intros ->. simpl in Hpos. rewrite Nat.add_0_r in Hpos.
      rewrite Hpos, Hget in Hget'. injection Hget' as <-.
      specialize (Hempty eq_refl c Hget). destruct Hc; congruence. }
    split.
    + destruct whole; [congruence|]. simpl in Hpos. lia.
    + unfold token_ok. rewrite Hkind, Hval. now split.
  - split; [exact Hlt|]. unfold token_ok. rewrite Hkind, Hval. eauto.
Qed.

Lemma lex_any_Done fuel : forall s r s',
  _lex_any src fuel s = Done r s' ->
  pos s <= pos s'
  /\ match r with
     | Some tok => pos s < pos s' /\ token_ok tok
     | None => L <= pos s'
     end.
Proof.
  induction fuel as [|fuel IH]; intros s r s'; [discriminate|].
  cbn [_lex_any].
  destruct (_accept_run src (S fuel) isspace s) as [ws s0| |] eqn:Hws;
    try discriminate.
  cbn [bind]. destruct (accept_run_Done _ _ _ _ _ Hws) as (Hp0 & _).
  destruct (_is_done src s0) eqn:Hdone.
  { intros [= <- <-]. apply is_done_true in Hdone. split; lia. }
  destruct (_next src s0) as [c s1| |] eqn:Hnext; try discriminate.
  cbn [bind]. apply next_Done in Hnext as (Hget & Hp1 & Hlt).
  assert (Hfrom : forall tok,
             pos s0 < pos s' /\ token_ok tok ->
             pos s <= pos s' /\ (pos s < pos s' /\ token_ok tok))
    by (intros tok [? ?]; repeat split; try lia; assumption).
  destruct (isalpha c || Ascii.eqb c "_") eqn:Halpha.
  { destruct (_lex_identifier src (S fuel) s0) as [t s2| |] eqn:Hid;
      try discriminate.
    cbn [bind]. intros [= <- <-]. apply Hfrom.
    eapply lex_identifier_Done; eassumption. }
  destruct (SYNTAX c) as [kind|] eqn:Hsyn.
  { intros [= <- <-]. apply Hfrom. split; [lia|].
    now apply (syntax_kind c kind). }
  destruct (Ascii.eqb c "/") eqn:Hslash.
  { destruct (_is_done src s1); [discriminate|].
    destruct (_peek src s1) as [nxt s2| |] eqn:Hpeek; try discriminate.
    cbn [bind]. apply peek_Done in Hpeek as [-> _].
    assert (Hrest : forall s2,
               pos s1 <= pos s2 ->
               (if _is_done src s2 then Done None s2 else _lex_any src fuel s2)
               = Done r s' ->
               pos s <= pos s'
               /\ match r with
                  | Some tok => pos s < pos s' /\ token_ok tok
                  | None => L <= pos s'
                  end).
    { intros s2 Hle. destruct (_is_done src s2) eqn:Hdone2.
      - intros [= <- <-]. apply is_done_true in Hdone2. split; lia.
      - intros Hrun. destruct (IH _ _ _ Hrun) as [Hle' Hr].
        split; [lia|]. destruct r; [|exact Hr]. destruct Hr. split; [lia|assumption]. }
    destruct (Ascii.eqb nxt "*").
    - destruct (_lex_multiline_comment src (S fuel) s1) as [u s2| |] eqn:Hc;
        try discriminate.
      cbn [bind]. apply lex_multiline_comment_Done in Hc. apply Hrest. lia.
    - destruct (Ascii.eqb nxt "/"); [|discriminate].
      destruct (_lex_line_comment src (S fuel) s1) as [u s2| |] eqn:Hc;
        try discriminate.
      cbn [bind]. apply line_comment_Done in Hc. apply Hrest. lia. }
  destruct (Ascii.eqb c ".") eqn:Hdot.
  { destruct (_is_done src s1); [discriminate|].
    destruct (_peek src s1) as [p s2| |] eqn:Hpeek; try discriminate.
    cbn [bind]. apply peek_Done in Hpeek as [-> Hgetp].
    destruct (isalpha p || Ascii.eqb p "_") eqn:Hp.
    - destruct (_accept_run src (S fuel) is_word_char s1) as [attr s2| |]
        eqn:Hattr; try discriminate.
      cbn [bind]. intros [= <- <-]. apply Hfrom.
      destruct (accept_run_Done _ _ _ _ _ Hattr) as (Hp2 & _ & Hall & _).
      split; [lia|]. unfold token_ok. simpl. exists attr. split; [reflexivity|].
      assert (Hwc : is_word_char p = true).
      { unfold is_word_char, isalnum. apply orb_true_iff in Hp as [-> | ->];
          [reflexivity|apply orb_true_r]. }
      destruct (accept_run_first _ _ _ _ _ _ Hattr Hgetp Hwc) as [rest ->].
      split; eauto.
    - destruct (_lex_num_lit src (S fuel) s0) as [t s2| |] eqn:Hnum;
        try discriminate.
      cbn [bind]. intros [= <- <-]. apply Hfrom.
      eapply lex_num_lit_token; eauto. }
  destruct (Ascii.eqb c dquote) eqn:Hquote.
  { destruct (_lex_str_lit src (S fuel) s0) as [t s2| |] eqn:Hstr;
      try discriminate.
    cbn [bind]. intros [= <- <-]. apply Hfrom.
    apply Ascii.eqb_eq in Hquote as ->. eapply lex_str_lit_Done; eassumption. }
  destruct (isdigit c) eqn:Hdigit; [|discriminate].
  destruct (_lex_num_lit src (S fuel) s0) as [t s2| |] eqn:Hnum;
    try discriminate.
  cbn [bind]. intros [= <- <-]. apply Hfrom.
  eapply lex_num_lit_token; eauto.
Qed.

Lemma lex_any_Some fuel s tok s' :
  _lex_any src fuel s = Done (Some tok) s' -> pos s < L.
Proof.
  destruct fuel as [|fuel]; [discriminate|]. cbn [_lex_any].
  destruct (_accept_run src (S fuel) isspace s) as [ws s0| |] eqn:Hws;
    try discriminate.
  cbn [bind]. destruct (accept_run_Done _ _ _ _ _ Hws) as (Hp0 & _).
  destruct (_is_done src s0) eqn:Hdone; [discriminate|].
  apply is_done_false in Hdone. intros _. lia.
Qed.

Lemma lex_any_finished fuel : forall s,
  L - pos s < fuel -> finished (_lex_any src fuel s) = true.
Proof.
  induction fuel as [|fuel IH]; intros s Hfuel; [lia|].
  cbn [_lex_any].
  destruct (accept_run_total isspace (S fuel) s Hfuel) as (ws & s0 & Hws).
  rewrite Hws. cbn [bind].
  destruct (accept_run_Done _ _ _ _ _ Hws) as (Hp0 & _).
  destruct (_is_done src s0) eqn:Hdone; [reflexivity|].
  apply is_done_false in Hdone.
  destruct (next_not_done s0 Hdone) as (c & s1 & -> & Hp1). cbn [bind].
  destruct (isalpha c || Ascii.eqb c "_").
  { apply bind_finished; [apply lex_identifier_finished; lia|reflexivity]. }
  destruct (SYNTAX c); [reflexivity|].
  destruct (Ascii.eqb c "/").
  { destruct (_is_done src s1) eqn:Hdone1; [reflexivity|].
    apply is_done_false in Hdone1.
    destruct (peek_not_done s1 Hdone1) as (nxt & -> & _). cbn [bind].
    apply bind_finished.
    - destruct (Ascii.eqb nxt "*");
        [apply lex_multiline_comment_finished; lia|].
      destruct (Ascii.eqb nxt "/"); [apply line_comment_finished; lia|reflexivity].
    - intros u s2 Hc.
      assert (Hle : pos s1 <= pos s2).
      { destruct (Ascii.eqb nxt "*").
        - apply lex_multiline_comment_Done in Hc. lia.
        - destruct (Ascii.eqb nxt "/"); [|discriminate].
          now apply line_comment_Done in Hc. }
      destruct (_is_done src s2); [reflexivity|]. apply IH. lia. }
  destruct (Ascii.eqb c ".").
  { destruct (_is_done src s1) eqn:Hdone1; [reflexivity|].
    apply is_done_false in Hdone1.
    destruct (peek_not_done s1 Hdone1) as (p & -> & _). cbn [bind].
    destruct (isalpha p || Ascii.eqb p "_").
    - destruct (accept_run_total is_word_char (S fuel) s1 ltac:(lia))
        as (attr & s2 & ->).
      reflexivity.
    - apply bind_finished; [apply lex_num_lit_finished; lia|reflexivity]. }
  destruct (Ascii.eqb c dquote).
  { apply bind_finished; [apply lex_str_lit_finished; lia|reflexivity]. }
  destruct (isdigit c); [|reflexivity].
  apply bind_finished; [apply lex_num_lit_finished; lia|reflexivity].
Qed.

(** The tokens of a run of the loop of [lex]: tokens that keep the promise
    of their kind, then the EOF token at the position where the lexer
    stopped, which is the end of the input. *)
Lemma lex_loop_Done fuel : forall s toks s',
  lex_loop src fuel s = Done toks s' ->
  exists front,
    toks = front ++ [mkToken EOF EmptyString (line s') (col s')]
    /\ Forall token_ok front
    /\ L <= pos s'.
Proof.
  induction fuel as [|fuel IH]; intros s toks s'; [discriminate|].
  cbn [lex_loop].
  destruct (_lex_any src (S L) s) as [[tok|] s1| |] eqn:Hany; try discriminate;
    cbn [bind]; apply lex_any_Done in Hany as [_ Hr].
  - destruct (lex_loop src fuel s1) as [tokens s2| |] eqn:Hloop;
      try discriminate.
    cbn [bind]. intros [= <- <-].
    destruct (IH _ _ _ Hloop) as (front & -> & Hok & Hend).
    exists (tok :: front). split; [reflexivity|]. split; [|exact Hend].
    constructor; [apply Hr|exact Hok].
  - intros [= <- <-]. exists []. split; [reflexivity|]. split; [constructor|exact Hr].
Qed.

Lemma lex_loop_finished fuel : forall s,
  L - pos s < fuel -> finished (lex_loop src fuel s) = true.
Proof.
  induction fuel as [|fuel IH]; intros s Hfuel; [lia|].
  cbn [lex_loop]. apply bind_finished; [apply lex_any_finished; lia|].
  intros [tok|] s1 Hany; [|reflexivity].
  pose proof (lex_any_Some _ _ _ _ Hany) as HL.
  apply lex_any_Done in Hany as [_ [Hlt _]].
  apply bind_finished; [|reflexivity]. apply IH. lia.
Qed.

End WithSource.

(** X1: [lex] ends on every input, with tokens or with an exception: each
    of its loops reads a character in every iteration, so the fuel of the
    model, the length of the input plus one, is never used up. *)
Theorem lex_terminates src : finished (lex src) = true.
Proof. apply lex_loop_finished. simpl. lia. Qed.

(** X2: when [lex] returns, it has read the whole input, and the tokens
    are tokens that keep the promise of their kind ([token_ok]: no EOF and
    no comment token among them) followed by exactly one EOF token, placed
    at the line and column where the lexer stopped. *)
Theorem lex_tokens_well_formed src toks s :
  lex src = Done toks s ->
  _is_done src s = true
  /\ exists front,
      toks = front ++ [mkToken EOF EmptyString (line s) (col s)]
      /\ Forall token_ok front.
Proof.
  intros Hrun. apply lex_loop_Done in Hrun as (front & -> & Hok & Hend).
  split; [now apply is_done_true|]. eauto.
Qed.


Lemma lex_tokens_well_formed_witness :
  exists toks s,
    lex "let x = f(1.5, y.z);" = Done toks s
    /\ _is_done "let x = f(1.5, y.z);" s = true
    /\ exists front,
        toks = front ++ [mkToken EOF EmptyString (line s) (col s)]
        /\ Forall token_ok front.
Proof.
  destruct (lex "let x = f(1.5, y.z);") as [toks s| |] eqn:Hrun.
  - exists toks, s. split; [reflexivity|].
    exact (lex_tokens_well_formed "let x = f(1.5, y.z);" toks s Hrun).
  - vm_compute in Hrun. discriminate Hrun.
  - vm_compute in Hrun. discriminate Hrun.
Defined.

(** X3: [_accept_run] returns the longest run of characters of the class
    that starts at the position: the slice of the source it has moved
    over, every character of which satisfies the predicate, and it stops at
    the end of the input or before a character that does not satisfy it. *)
Theorem accept_run_longest_run src fuel pred s chars s' :
  _accept_run src fuel pred s = Done chars s' ->
  pos s' = pos s + String.length chars
  /\ chars = substring (pos s) (String.length chars) src
  /\ all_chars pred chars = true
  /\ match String.get (pos s') src with
     | Some c => pred c = false
     | None => True
     end.
Proof. apply accept_run_Done. Qed.

Lemma accept_run_longest_run_witness :
  exists chars s',
    _accept_run "abc1 d" 7 isalpha _reset = Done chars s'
    /\ pos s' = pos _reset + String.length chars
    /\ chars = substring (pos _reset) (String.length chars) "abc1 d"
    /\ all_chars isalpha chars = true
    /\ match String.get (pos s') "abc1 d" with
       | Some c => isalpha c = false
       | None => True
       end.
Proof.
  destruct (_accept_run "abc1 d" 7 isalpha _reset) as [chars s'| |] eqn:Hrun.
  - exists chars, s'. split; [reflexivity|].
    exact (accept_run_longest_run "abc1 d" 7 isalpha _reset chars s' Hrun).
  - vm_compute in Hrun. discriminate Hrun.
  - vm_compute in Hrun. discriminate Hrun.
Defined.

End LexerRuns.

(** ** The lexer: the positions of the tokens *)

Module LexerPlaces.
Import Lexer Tokens LexerRuns.

Section WithSource.
Variable src : string.
Local Abbreviation L := (String.length src).
Local Abbreviation tracked := (Tokens.tracked src).
Local Abbreviation placed := (Tokens.placed src).

Lemma position_from_step : forall (s : string) p line col c,
  String.get p s = Some c ->
  position_from s (S p) line col
  = let '(l, k) := position_from s p line col in
    if Ascii.eqb c newline then (S l, 1) else (l, S k).
Proof.
  induction s as [|a s IH]; intros [|p] line col c Hget; simpl in Hget;
    try discriminate.
  - injection Hget as ->. simpl. destruct (Ascii.eqb c newline); now destruct s.
  - change (position_from (String a s) (S (S p)) line col)
      with (if Ascii.eqb a newline then position_from s (S p) (S line) 1
            else position_from s (S p) line (S col)).
    change (position_from (String a s) (S p) line col)
      with (if Ascii.eqb a newline then position_from s p (S line) 1
            else position_from s p line (S col)).
    destruct (Ascii.eqb a newline); now apply IH.
Qed.

Lemma next_tracked s c s' :
  _next src s = Done c s' -> tracked s -> tracked s'.
Proof.
  unfold _next, tracked, position.
  destruct (String.get (pos s) src) as [a|] eqn:Hget; [|discriminate].
  intros Hrun Htr.
  assert (Hstep := position_from_step src (pos s) 1 1 a Hget).
  rewrite <- Htr in Hstep.
  destruct (Ascii.eqb a newline); injection Hrun as <- <-; simpl; now rewrite Hstep.
Qed.

Lemma accept_run_tracked pred fuel : forall s chars s',
  _accept_run src fuel pred s = Done chars s' -> tracked s -> tracked s'.
Proof.
  induction fuel as [|fuel IH]; intros s chars s'; [discriminate|].
  cbn [_accept_run]. destruct (_is_done src s); [now intros [= _ <-]|].
  destruct (_peek src s) as [c s0| |] eqn:Hpeek; try discriminate.
  apply peek_Done in Hpeek as [-> _]. cbn [bind].
  destruct (pred c); [|now intros [= _ <-]].
  destruct (_next src s) as [c' s1| |] eqn:Hnext; try discriminate. cbn [bind].
  destruct (_accept_run src fuel pred s1) as [chars1 s2| |] eqn:Hrun;
    try discriminate.
  cbn [bind]. intros [= _ <-] Htr. eapply IH; [exact Hrun|].
  eapply next_tracked; eassumption.
Qed.

Lemma line_comment_tracked fuel : forall s u s',
  _lex_line_comment src fuel s = Done u s' -> tracked s -> tracked s'.
Proof.
  induction fuel as [|fuel IH]; intros s u s'; [discriminate|].
  cbn [_lex_line_comment]. destruct (_is_done src s); [now intros [= _ <-]|].
  destruct (_next src s) as [c s1| |] eqn:Hnext; try discriminate. cbn [bind].
  intros Hrun Htr. pose proof (next_tracked _ _ _ Hnext Htr) as Htr1.
  destruct (negb _); [eapply IH; eassumption|now injection Hrun as _ <-].
Qed.

Lemma multiline_comment_loop_tracked fuel : forall c1 c2 s cs s',
  multiline_comment_loop src fuel c1 c2 s = Done cs s' -> tracked s -> tracked s'.
Proof.
  induction fuel as [|fuel IH]; intros c1 c2 s cs s'; [discriminate|].
  cbn [multiline_comment_loop]. destruct (_ || _); [|now intros [= _ <-]].
  destruct (_next src s) as [c s1| |] eqn:Hnext; try discriminate. cbn [bind].
  intros Hrun Htr. eapply IH; [exact Hrun|]. eapply next_tracked; eassumption.
Qed.

Lemma lex_multiline_comment_tracked fuel s u s' :
  _lex_multiline_comment src fuel s = Done u s' -> tracked s -> tracked s'.
Proof.
  unfold _lex_multiline_comment.
  destruct (_next src s) as [c1 s1| |] eqn:Hn1; try discriminate. cbn [bind].
  destruct (_next src s1) as [c2 s2| |] eqn:Hn2; try discriminate. cbn [bind].
  destruct (multiline_comment_loop src fuel c1 c2 s2) as [cs s3| |] eqn:Hloop;
    try discriminate.
  cbn [bind]. destruct (_ || _); [discriminate|]. intros [= _ <-] Htr.
  eapply multiline_comment_loop_tracked; [exact Hloop|].
  eapply next_tracked; [exact Hn2|]. eapply next_tracked; eassumption.
Qed.

Lemma str_lit_loop_tracked fuel : forall in_escape s flags s',
  str_lit_loop src fuel in_escape s = Done flags s' -> tracked s -> tracked s'.
Proof.
  induction fuel as [|fuel IH]; intros in_escape s flags s'; [discriminate|].
  cbn [str_lit_loop]. destruct (_is_done src s); [now intros [= _ <-]|].
  destruct (_next src s) as [c s1| |] eqn:Hnext; try discriminate. cbn [bind].
  intros Hrun Htr. pose proof (next_tracked _ _ _ Hnext Htr) as Htr1.
  destruct in_escape; [eapply IH; eassumption|].
  destruct (Ascii.eqb c backslash); [eapply IH; eassumption|].
  destruct (Ascii.eqb c dquote); [now injection Hrun as _ <-|eapply IH; eassumption].
Qed.

Lemma placed_located s tok s' : placed s tok s' -> tracked s -> located src tok.
Proof.
  intros (Hl & Hc & _ & Hv & Hlen) Htr. exists (pos s).
  rewrite Hl, Hc, Htr, Hlen. now split.
Qed.

Lemma append_cons a (x y : string) :
  (String a x ++ y)%string = String a (x ++ y)%string.
Proof. reflexivity. Qed.

Lemma substring_app n m k :
  n + m + k <= L ->
  substring n (m + k) src = (substring n m src ++ substring (n + m) k src)%string.
Proof.
  generalize src. intros s. revert n m k.
  induction s as [|a s IH]; intros n m k Hle; simpl in Hle.
  - assert (n = 0 /\ m = 0 /\ k = 0) as (-> & -> & ->) by lia. reflexivity.
  - destruct n as [|n].
    + destruct m as [|m]; [reflexivity|]. simpl. rewrite append_cons. f_equal.
      apply (IH 0 m k). lia.
    + simpl. apply (IH n m k). lia.
Qed.

Lemma accept_run_slice pred fuel s chars s' :
  _accept_run src fuel pred s = Done chars s' ->
  pos s <= pos s' /\ pos s' <= Nat.max L (pos s)
  /\ chars = substring (pos s) (pos s' - pos s) src
  /\ String.length chars = pos s' - pos s.
Proof.
  intros Hrun.
  destruct (accept_run_Done _ _ _ _ _ _ Hrun) as (Hpos & Hsub & _ & _).
  replace (pos s' - pos s) with (String.length chars) by lia.
  repeat split; try lia; [|exact Hsub].
  clear Hsub Hpos. revert s chars s' Hrun.
  induction fuel as [|fuel IH]; intros s chars s'; [discriminate|].
  cbn [_accept_run]. destruct (_is_done src s); [intros [= _ <-]; lia|].
  destruct (_peek src s) as [c s0| |] eqn:Hpeek; try discriminate.
  apply peek_Done in Hpeek as [-> _]. cbn [bind].
  destruct (pred c); [|intros [= _ <-]; lia].
  destruct (_next src s) as [c' s1| |] eqn:Hnext; try discriminate. cbn [bind].
  destruct (_accept_run src fuel pred s1) as [chars1 s2| |] eqn:Hrun;
    try discriminate.
  cbn [bind]. intros [= _ <-]. apply IH in Hrun.
  apply next_Done in Hnext as (_ & Hp & Hlt). lia.
Qed.


Lemma length_append (x y : string) :
  String.length (x ++ y)%string = String.length x + String.length y.
Proof. induction x as [|a x IH]; simpl; [reflexivity|]. now rewrite IH. Qed.

Lemma substring_one n c :
  String.get n src = Some c -> substring n 1 src = String c EmptyString.
Proof. intros Hget. now rewrite (substring_get _ _ _ _ Hget), substring_0. Qed.

Lemma lex_identifier_placed fuel s tok s' :
  _lex_identifier src fuel s = Done tok s' ->
  placed s tok s' /\ (tracked s -> tracked s').
Proof.
  unfold _lex_identifier.
  destruct (_accept_run src fuel is_word_char s) as [w s1| |] eqn:Hw;
    try discriminate.
  cbn [bind]. intros Hrun.
  destruct (accept_run_slice _ _ _ _ _ Hw) as (Hle & _ & Hsub & Hlen).
  assert (Hs : s' = s1 /\ tok_val tok = w /\ tok_line tok = line s
               /\ tok_col tok = col s).
  { destruct (KEYWORDS w); [now injection Hrun as <- <-|].
    destruct (_ || _); [now injection Hrun as <- <-|].
    destruct (String.eqb w "null"); now injection Hrun as <- <-. }
  destruct Hs as (-> & Hv & Hl & Hc). split.
  - unfold placed. rewrite Hv. auto.
  - intros Htr. eapply accept_run_tracked; eassumption.
Qed.

Lemma lex_num_lit_placed fuel s tok s' :
  _lex_num_lit src fuel s = Done tok s' ->
  placed s tok s' /\ (tracked s -> tracked s').
Proof.
  unfold _lex_num_lit.
  destruct (_accept_run src fuel isdigit s) as [whole s1| |] eqn:Hw;
    try discriminate.
  cbn [bind].
  destruct (accept_run_slice _ _ _ _ _ Hw) as (Hle & _ & Hsub & Hlen).
  destruct (_peek src s1) as [c s2| |] eqn:Hpeek; try discriminate. cbn [bind].
  apply peek_Done in Hpeek as [-> Hget].
  destruct (Ascii.eqb c ".") eqn:Hdot.
  - unfold _ignore.
    destruct (_next src s1) as [c' s2| |] eqn:Hnext; try discriminate.
    cbn [bind].
    destruct (_accept_run src fuel isdigit s2) as [frac s3| |] eqn:Hf;
      try discriminate.
    cbn [bind]. intros [= <- <-].
    destruct (accept_run_slice _ _ _ _ _ Hf) as (Hle2 & Hmax & Hsubf & Hlenf).
    pose proof (next_Done _ _ _ _ Hnext) as (_ & Hp2 & Hlt).
    apply Ascii.eqb_eq in Hdot as ->.
    split.
    + unfold placed. simpl. repeat split; try lia.
      * replace (pos s3 - pos s)
          with ((pos s1 - pos s) + (1 + (pos s3 - pos s2))) by lia.
        rewrite substring_app by lia.
        replace (pos s + (pos s1 - pos s)) with (pos s1) by lia.
        rewrite (substring_app (pos s1)) by lia.
        rewrite (substring_one _ _ Hget).
        replace (pos s1 + 1) with (pos s2) by lia.
        now rewrite <- Hsub, <- Hsubf.
      * rewrite !length_append. simpl. lia.
    + intros Htr. eapply accept_run_tracked; [exact Hf|].
      eapply next_tracked; [exact Hnext|]. eapply accept_run_tracked; eassumption.
  - intros [= <- <-]. split.
    + unfold placed. simpl. auto.
    + intros Htr. eapply accept_run_tracked; eassumption.
Qed.

Lemma lex_str_lit_placed fuel s tok s' :
  _lex_str_lit src fuel s = Done tok s' ->
  placed s tok s' /\ (tracked s -> tracked s').
Proof.
  unfold _lex_str_lit, _ignore.
  destruct (_next src s) as [c s1| |] eqn:Hnext; try discriminate.
  cbn [bind]. pose proof (next_Done _ _ _ _ Hnext) as (_ & Hp1 & _).
  destruct (str_lit_loop src fuel false s1) as [[in_escape found_close] s2| |]
    eqn:Hloop; try discriminate.
  cbn [bind]. destruct found_close; [|discriminate].
  destruct in_escape; [discriminate|]. cbn [negb]. intros [= <- <-].
  destruct (str_lit_loop_Done _ _ _ _ _ _ Hloop) as [_ Hclose].
  destruct (Hclose eq_refl) as [Hlt Hq]. pose proof (get_Some_lt _ _ _ Hq) as HL.
  split.
  - unfold placed. simpl. repeat split; try lia.
    apply substring_length. lia.
  - intros Htr. eapply str_lit_loop_tracked; [exact Hloop|].
    eapply next_tracked; eassumption.
Qed.

Lemma lex_any_located fuel : forall s r s',
  _lex_any src fuel s = Done r s' -> tracked s ->
  tracked s'
  /\ match r with
     | Some tok => located src tok
     | None => True
     end.
Proof.
  induction fuel as [|fuel IH]; intros s r s'; [discriminate|].
  cbn [_lex_any].
  destruct (_accept_run src (S fuel) isspace s) as [ws s0| |] eqn:Hws;
    try discriminate.
  cbn [bind]. intros Hrun Htr.
  pose proof (accept_run_tracked _ _ _ _ _ Hws Htr) as Htr0. clear Hws Htr.
  destruct (_is_done src s0); [now injection Hrun as <- <-|].
  destruct (_next src s0) as [c s1| |] eqn:Hnext; try discriminate.
  cbn [bind] in Hrun.
  pose proof (next_tracked _ _ _ Hnext Htr0) as Htr1.
  pose proof (next_Done _ _ _ _ Hnext) as (Hget & Hp1 & Hlt).
  assert (Hfrom : forall (f : LexerState -> res Token),
             (forall tok s', f s0 = Done tok s' ->
                             placed s0 tok s' /\ (tracked s0 -> tracked s')) ->
             (let* (t, s) := f s0 in Done (Some t) s) = Done r s' ->
             tracked s'
             /\ match r with Some tok => located src tok | None => True end).
  { intros f Hf Hdone. destruct (f s0) as [t s2| |] eqn:Hrun'; try discriminate.
    cbn [bind] in Hdone. injection Hdone as <- <-.
    destruct (Hf _ _ eq_refl) as [Hplaced Htr']. split; [auto|].
    eapply placed_located; eassumption. }
  destruct (isalpha c || Ascii.eqb c "_").
  { apply (Hfrom (_lex_identifier src (S fuel)));
      [|exact Hrun].
    intros tok s2. apply lex_identifier_placed. }
  destruct (SYNTAX c) as [kind|].
  { injection Hrun as <- <-. split; [exact Htr1|]. exists (pos s0). simpl.
    rewrite (substring_one _ _ Hget). now rewrite Htr0. }
  destruct (Ascii.eqb c "/").
  { destruct (_is_done src s1); [discriminate|].
    destruct (_peek src s1) as [nxt s2| |] eqn:Hpeek; try discriminate.
    cbn [bind] in Hrun. apply peek_Done in Hpeek as [-> _].
    assert (Hrest : forall s2,
               tracked s2 ->
               (if _is_done src s2 then Done None s2 else _lex_any src fuel s2)
               = Done r s' ->
               tracked s'
               /\ match r with Some tok => located src tok | None => True end).
    { intros s2 Htr2. destruct (_is_done src s2).
      - now intros [= <- <-].
      - intros Hrun'. eapply IH; eassumption. }
    destruct (Ascii.eqb nxt "*").
    - destruct (_lex_multiline_comment src (S fuel) s1) as [u s2| |] eqn:Hc;
        try discriminate.
      cbn [bind] in Hrun. eapply Hrest; [|exact Hrun].
      eapply lex_multiline_comment_tracked; eassumption.
    - destruct (Ascii.eqb nxt "/"); [|discriminate].
      destruct (_lex_line_comment src (S fuel) s1) as [u s2| |] eqn:Hc;
        try discriminate.
      cbn [bind] in Hrun. eapply Hrest; [|exact Hrun].
      eapply line_comment_tracked; eassumption. }
  destruct (Ascii.eqb c ".") eqn:Hdot.
  { destruct (_is_done src s1); [discriminate|].
    destruct (_peek src s1) as [p s2| |] eqn:Hpeek; try discriminate.
    cbn [bind] in Hrun. apply peek_Done in Hpeek as [-> Hgetp].
    destruct (isalpha p || Ascii.eqb p "_").
    - destruct (_accept_run src (S fuel) is_word_char s1) as [attr s2| |]
        eqn:Hattr; try discriminate.
      cbn [bind] in Hrun. injection Hrun as <- <-.
      split; [eapply accept_run_tracked; eassumption|].
      destruct (accept_run_slice _ _ _ _ _ Hattr) as (Hle & Hmax & Hsub & Hlen).
      apply Ascii.eqb_eq in Hdot as ->.
      exists (pos s0). cbn [tok_line tok_col tok_val]. rewrite Htr0.
      split; [reflexivity|].
      change ("." ++ attr)%string with (String "."%char attr).
      cbn [String.length]. rewrite Hlen.
      replace (S (pos s2 - pos s1)) with (1 + (pos s2 - pos s1)) by lia.
      rewrite substring_app by lia. rewrite (substring_one _ _ Hget).
      replace (pos s0 + 1) with (pos s1) by lia. rewrite <- Hsub.
      reflexivity.
    - apply (Hfrom (_lex_num_lit src (S fuel)));
        [|exact Hrun].
      intros tok s2. apply lex_num_lit_placed. }
  destruct (Ascii.eqb c dquote).
  { apply (Hfrom (_lex_str_lit src (S fuel)));
      [|exact Hrun].
    intros tok s2. apply lex_str_lit_placed. }
  destruct (isdigit c); [|discriminate].
  apply (Hfrom (_lex_num_lit src (S fuel)));
    [|exact Hrun].
  intros tok s2. apply lex_num_lit_placed.
Qed.

Lemma lex_loop_located fuel : forall s toks s',
  lex_loop src fuel s = Done toks s' -> tracked s -> Forall (located src) toks.
Proof.
  induction fuel as [|fuel IH]; intros s toks s'; [discriminate|].
  cbn [lex_loop].
  destruct (_lex_any src (S L) s) as [[tok|] s1| |] eqn:Hany; try discriminate;
    cbn [bind]; intros Hrun Htr;
    destruct (lex_any_located _ _ _ _ Hany Htr) as [Htr1 Hloc].
  - destruct (lex_loop src fuel s1) as [tokens s2| |] eqn:Hloop;
      try discriminate.
    cbn [bind] in Hrun. injection Hrun as <- <-.
    constructor; [exact Hloc|]. eapply IH; eassumption.
  - injection Hrun as <- <-. constructor; [|constructor].
    exists (pos s1). simpl. rewrite substring_0. now rewrite Htr1.
Qed.

End WithSource.

(** X4: every token that [lex] returns, the EOF token too, carries the line
    and the column (both counted from 1, a newline ending its line) of a
    position of the source at which the text of the token stands. *)
Theorem lex_tokens_located src toks s :
  lex src = Done toks s -> Forall (located src) toks.
Proof.
  intros Hrun. eapply lex_loop_located; [exact Hrun|].
  unfold tracked, position. now destruct src.
Qed.

Lemma lex_tokens_located_witness :
  exists toks s,
    lex (String "a" (String newline " b = 1.5;")) = Done toks s
    /\ Forall (located (String "a" (String newline " b = 1.5;"))) toks.
Proof.
  destruct (lex (String "a" (String newline " b = 1.5;"))) as [toks s| |] eqn:Hrun.
  - exists toks, s. split; [reflexivity|].
    exact (lex_tokens_located _ toks s Hrun).
  - vm_compute in Hrun. discriminate Hrun.
  - vm_compute in Hrun. discriminate Hrun.
Defined.

End LexerPlaces.

(** ** The environment: declarations, scopes and lookups *)

Module BindingFacts.
Import Nodes Runtime Interpreter Scopes Bindings Examples.
Import EnvFacts VarFacts ClosureFacts.

Section WithHost.
Context `{Host}.

Lemma cells_of_snoc name stack var :
  cells_of name (stack ++ [var])
  = (if attr_eqb (Runtime.name var) name then [cell var] else [])
    ++ cells_of name stack.
Proof.
  rewrite cells_of_app. f_equal. unfold cells_of.
  rewrite reverse_singleton, filter_cons, filter_nil.
  destruct (decide _) as [Heq|Hne]; destruct (attr_eqb _ _); simpl;
    congruence.
Qed.

Lemma lookup_insert_fresh x env (st : State) c v n h :
  allocated env st -> next_cell st <= c ->
  lookup x env (mkState (<[c := v]> (cells st)) n h) = lookup x env st.
Proof.
  intros Halloc Hle. unfold lookup.
  destruct (cells_of x (_stack env)) as [|c0 cs] eqn:Hcs; [reflexivity|].
  assert (Hin : c0 ∈ cells_of x (_stack env)) by (rewrite Hcs; left).
  apply elem_of_cells_of in Hin as (var & Hin & _ & <-).
  apply Halloc in Hin. simpl. f_equal. apply lookup_total_insert_ne. lia.
Qed.

Lemma last_insert_last {A} (l : list A) x :
  l <> [] -> last (<[pred (length l) := x]> l) = Some x.
Proof.
  intros Hl. destruct (last l) as [y|] eqn:Hlast.
  - apply last_Some in Hlast as [l' ->].
    rewrite length_app, Nat.add_1_r. simpl.
    replace (length l') with (length l' + 0) at 1 by lia.
    rewrite insert_app_r. simpl. apply last_snoc.
  - now apply last_None in Hlast.
Qed.

(** X5: a successful [declare] binds the name to the value, leaves the
    value of every other name as it was, and all cells stay allocated. *)
Theorem declare_binds name v env st env' st' :
  allocated env st ->
  declare name v env st = (Ok tt, env', st') ->
  lookup name env' st' = Ok v
  /\ (forall other, other <> name -> lookup other env' st' = lookup other env st)
  /\ allocated env' st'.
Proof.
  intros Halloc Hdecl.
  destruct (declare_Ok _ _ _ _ _ _ Hdecl) as (Hstack & Hnext & Hhost & Hcells).
  split; [|split].
  - unfold lookup. rewrite Hstack, cells_of_snoc. simpl.
    rewrite String.eqb_refl. simpl. rewrite Hcells.
    now rewrite lookup_total_insert_eq.
  - intros other Hne. unfold lookup at 1. rewrite Hstack, cells_of_snoc. simpl.
    destruct (String.eqb name other) eqn:Heq;
      [apply String.eqb_eq in Heq; congruence|].
    simpl. rewrite Hcells.
    destruct (cells_of other (_stack env)) as [|c cs] eqn:Hcs;
      unfold lookup; rewrite Hcs; [reflexivity|].
    assert (Hin : c ∈ cells_of other (_stack env)) by (rewrite Hcs; left).
    apply elem_of_cells_of in Hin as (var & Hin & _ & <-).
    apply Halloc in Hin. f_equal. apply lookup_total_insert_ne. lia.
  - intros var Hin. rewrite Hstack in Hin. rewrite Hnext.
    apply elem_of_app in Hin as [Hin|Hin].
    + apply Halloc in Hin. lia.
    + apply list_elem_of_singleton in Hin as ->. simpl. lia.
Qed.

(** X6: after a successful [declare] of a name, declaring the same name
    again in the same scope raises the runtime error of a redeclaration and
    leaves the environment and the store as they are. *)
Theorem redeclare_in_same_scope_raises name v w env st env' st' :
  declare name v env st = (Ok tt, env', st') ->
  declare name w env' st'
  = (Raise (Exc (RuntimeError (cannot_redeclare_variable_in_same_scope name))),
     env', st').
Proof.
  unfold declare at 1.
  destruct (last (_decl_variables_in_scope env)) as [top|] eqn:Hlast;
    [|discriminate].
  destruct (bool_decide (name ∈ top)); [discriminate|].
  simpl. intros [= <- <-]. unfold declare. simpl.
  rewrite last_insert_last.
  - rewrite bool_decide_eq_true_2; [reflexivity|]. set_solver.
  - intros Hnil. now rewrite Hnil in Hlast.
Qed.

(** X7: in a scope just entered, [declare] succeeds for every name, also
    one that an outer scope binds; inside the scope the name has the new
    value, and when the scope is left the environment is the outer one
    again and every name has the value it had before. *)
Theorem inner_scope_shadows name v env st :
  allocated env st ->
  exists env1 st1,
    declare name v (enter env) st = (Ok tt, env1, st1)
    /\ lookup name env1 st1 = Ok v
    /\ leave env1 = (Ok tt, env)
    /\ forall x, lookup x env st1 = lookup x env st.
Proof.
  intros Halloc.
  destruct (declare name v (enter env) st) as [[r env1] st1] eqn:Hdecl.
  assert (Hr : r = Ok tt).
  { revert Hdecl. unfold declare. simpl. rewrite last_snoc.
    rewrite bool_decide_eq_false_2 by set_solver. simpl. now intros [= <- _ _]. }
  subst r. exists env1, st1. split; [reflexivity|].
  assert (Halloc' : allocated (enter env) st) by exact Halloc.
  destruct (declare_binds _ _ _ _ _ _ Halloc' Hdecl) as (Hlook & _ & _).
  split; [exact Hlook|]. split.
  - apply leave_frame. eapply frame_declare, Hdecl.
  - intros x. destruct (declare_Ok _ _ _ _ _ _ Hdecl) as (_ & Hnext & Hhost & Hcells).
    destruct st1 as [cells1 next1 host1]. simpl in *. subst.
    apply lookup_insert_fresh; [exact Halloc|lia].
Qed.

(** X8: [lookup] and [assign] succeed exactly on the names that [has]
    reports; on any other name they raise the runtime errors of an
    undefined and of an undeclared variable, and [assign] leaves the store
    as it is. *)
Theorem bound_names name v env st :
  ((exists w, lookup name env st = Ok w) <-> has name env = true)
  /\ (fst (assign name v env st) = Ok tt <-> has name env = true)
  /\ (has name env = false ->
      lookup name env st
      = Raise (Exc (RuntimeError (undefined_variable name)))
      /\ assign name v env st
         = (Raise (Exc (RuntimeError
                          (cannot_assign_to_undeclared_variable name))), st)).
Proof.
  rewrite has_cells_of. unfold lookup, assign.
  assert (Hfalse : has name env = false -> cells_of name (_stack env) = []).
  { intros Hhas. destruct (cells_of name (_stack env)) eqn:Hcs; [reflexivity|].
    assert (Ht : has name env = true) by (apply has_cells_of; now rewrite Hcs).
    congruence. }
  split; [|split].
  - destruct (cells_of name (_stack env)); split; try congruence; eauto.
    + now intros [w [=]].
  - destruct (cells_of name (_stack env)); split; try congruence; eauto.
  - intros Hhas. now rewrite (Hfalse Hhas).
Qed.

Lemma has_snoc name env var offsets decls :
  has name (mkEnv (_stack env ++ [var]) offsets decls)
  = has name env || attr_eqb (Runtime.name var) name.
Proof. unfold has. simpl. rewrite existsb_app. simpl. now rewrite orb_false_r. Qed.

Lemma declare_fresh name v env st :
  declarable env st -> has name env = false ->
  exists env' st',
    declare name v env st = (Ok tt, env', st')
    /\ declarable env' st'
    /\ lookup name env' st' = Ok v
    /\ (forall other, other <> name ->
        lookup other env' st' = lookup other env st)
    /\ (forall x, has x env' = has x env || String.eqb name x).
Proof.
  intros (Hne & Hdecl & Halloc) Hhas.
  destruct (declare name v env st) as [[r env'] st'] eqn:Hd.
  assert (Hshape : exists top,
             last (_decl_variables_in_scope env) = Some top
             /\ (name ∉ top)
             /\ r = Ok tt
             /\ _decl_variables_in_scope env'
                = <[pred (length (_decl_variables_in_scope env))
                    := ({[name]} ∪ top)]> (_decl_variables_in_scope env)).
  { revert Hd. unfold declare.
    destruct (last (_decl_variables_in_scope env)) as [top|] eqn:Hlast;
      [|now apply last_None in Hlast].
    destruct (decide (name ∈ top)) as [Hin|Hnin].
    { apply (Hdecl top name eq_refl) in Hin. congruence. }
    rewrite (bool_decide_eq_false_2 _ Hnin). simpl. intros [= <- <- <-].
    exists top. auto. }
  destruct Hshape as (top & Hlast & Hnin & -> & Hdecls).
  exists env', st'. split; [reflexivity|].
  destruct (declare_binds _ _ _ _ _ _ Halloc Hd) as (Hlook & Hother & Halloc').
  destruct (declare_Ok _ _ _ _ _ _ Hd) as (Hstack & _).
  assert (Hhas' : forall x, has x env' = has x env || String.eqb name x).
  { intros x. destruct env' as [stack' offsets' decls']. simpl in Hstack.
    subst stack'. now rewrite has_snoc. }
  split; [|auto].
  split; [|split; [|exact Halloc']].
  - rewrite Hdecls. intros Hnil. apply (f_equal length) in Hnil.
    rewrite length_insert in Hnil. now destruct (_decl_variables_in_scope env).
  - intros top' x Hlast' Hx. rewrite Hdecls, last_insert_last in Hlast' by exact Hne.
    injection Hlast' as <-. rewrite Hhas'.
    apply elem_of_union in Hx as [Hx|Hx].
    + apply elem_of_singleton in Hx as ->. rewrite String.eqb_refl. apply orb_true_r.
    + now rewrite (Hdecl top x Hlast Hx).
Qed.

(** X14: the first pass of [evaluate] never fails: from an environment
    where [declare] is safe, [declare_prototypes] ends normally, every
    function of the program is bound afterwards, a function whose name was
    free is bound to the prototype marker, and the names bound before keep
    their values. *)
Theorem prototypes_are_declared ast : forall env st,
  declarable env st ->
  exists env' st',
    declare_prototypes ast env st = (Ok tt, env', st')
    /\ declarable env' st'
    /\ (forall x, has x env = true -> has x env' = true)
    /\ (forall x, has x env = true -> lookup x env' st' = lookup x env st)
    /\ (forall decl, TopFn decl ∈ ast -> has (fn_name decl) env' = true)
    /\ (forall decl, TopFn decl ∈ ast -> has (fn_name decl) env = false ->
        lookup (fn_name decl) env' st' = Ok fn_prototype).
Proof.
  induction ast as [|node ast IH]; intros env st Hinv.
  { exists env, st. split; [reflexivity|]. split; [exact Hinv|].
    split; [auto|]. split; [auto|]. split; intros decl Hin; inversion Hin. }
  destruct node as [decl0|stmt]; cbn [declare_prototypes].
  - destruct (has (fn_name decl0) env) eqn:Hhas; cbn [negb].
    + destruct (IH env st Hinv)
        as (env' & st' & -> & Hinv' & Hmono & Hkeep & Hall & Hproto).
      exists env', st'. split; [reflexivity|]. split; [exact Hinv'|].
      split; [exact Hmono|]. split; [exact Hkeep|]. split.
      * intros decl [Heq|Hin]%elem_of_cons; [|auto].
        injection Heq as ->. auto.
      * intros decl [Heq|Hin]%elem_of_cons Hnot; [|auto].
        injection Heq as ->. congruence.
    + destruct (declare_fresh _ fn_prototype _ _ Hinv Hhas)
        as (env1 & st1 & -> & Hinv1 & Hlook1 & Hother1 & Hhas1).
      destruct (IH env1 st1 Hinv1)
        as (env' & st' & -> & Hinv' & Hmono & Hkeep & Hall & Hproto).
      assert (Hself : has (fn_name decl0) env1 = true)
        by (rewrite Hhas1, String.eqb_refl; apply orb_true_r).
      exists env', st'. split; [reflexivity|]. split; [exact Hinv'|].
      split; [|split; [|split]].
      * intros x Hx. apply Hmono. rewrite Hhas1, Hx. reflexivity.
      * intros x Hx. rewrite Hkeep by (rewrite Hhas1, Hx; reflexivity).
        apply Hother1. intros ->. congruence.
      * intros decl [Heq|Hin]%elem_of_cons; [|auto].
        injection Heq as ->. auto.
      * intros decl Hin Hnot.
        destruct (String.eqb (fn_name decl0) (fn_name decl)) eqn:Heq.
        -- apply String.eqb_eq in Heq. rewrite <- Heq.
           rewrite Hkeep by exact Hself. exact Hlook1.
        -- apply elem_of_cons in Hin as [Hin|Hin].
           { injection Hin as ->. now rewrite String.eqb_refl in Heq. }
           apply Hproto; [exact Hin|]. rewrite Hhas1, Hnot, Heq. reflexivity.
  - destruct (IH env st Hinv)
      as (env' & st' & -> & Hinv' & Hmono & Hkeep & Hall & Hproto).
    exists env', st'. split; [reflexivity|]. split; [exact Hinv'|].
    split; [exact Hmono|]. split; [exact Hkeep|]. split.
    + intros decl [Heq|Hin]%elem_of_cons; [discriminate|auto].
    + intros decl [Heq|Hin]%elem_of_cons; [discriminate|auto].
Qed.


Lemma declarable_init (st : State) : declarable (RuntimeEnv_init [] [] []) st.
Proof.
  split; [discriminate|]. split.
  - intros top name [= <-] Hin. set_solver.
  - intros var Hin. inversion Hin.
Qed.

Lemma push_declarable name v env st :
  declarable env st ->
  declarable (push (AStr name) v env st).1 (push (AStr name) v env st).2
  /\ forall x, has x (push (AStr name) v env st).1
               = has x env || String.eqb name x.
Proof.
  intros (Hne & Hdecl & Halloc). unfold push. simpl.
  assert (Hhas : forall x,
             has x (mkEnv (_stack env ++ [mkVar (AStr name) (next_cell st)])
                      (_stack_offsets env) (_decl_variables_in_scope env))
             = has x env || String.eqb name x)
    by (intros x; now rewrite has_snoc).
  split; [|exact Hhas]. split; [exact Hne|]. split.
  - simpl. intros top x Hlast Hx. rewrite Hhas, (Hdecl top x Hlast Hx). reflexivity.
  - intros var Hin. simpl in *. apply elem_of_app in Hin as [Hin|Hin].
    + apply Halloc in Hin. lia.
    + apply list_elem_of_singleton in Hin as ->. simpl. lia.
Qed.

Lemma push_built_in_fns_declarable fns : forall env st,
  declarable env st ->
  declarable (push_built_in_fns fns env st).1 (push_built_in_fns fns env st).2
  /\ forall x, x ∉ fns.*1 ->
               has x (push_built_in_fns fns env st).1 = has x env.
Proof.
  induction fns as [|[name fn] fns IH]; intros env st Hinv; [auto|].
  cbn [push_built_in_fns].
  destruct (push (AStr name) fn env st) as [env1 st1] eqn:Hpush.
  destruct (push_declarable name fn env st Hinv) as [Hinv1 Hhas1].
  rewrite Hpush in Hinv1, Hhas1. simpl in Hinv1, Hhas1.
  destruct (IH env1 st1 Hinv1) as [Hinv' Hhas']. split; [exact Hinv'|].
  intros x Hx. simpl in Hx. apply not_elem_of_cons in Hx as [Hne Hx].
  rewrite (Hhas' x Hx), Hhas1.
  destruct (String.eqb name x) eqn:Heq;
    [apply String.eqb_eq in Heq; congruence|apply orb_false_r].
Qed.

(** X15: a program that calls one of its functions in its first
    statement, before the definition has been run, ends in the runtime
    error "cannot call fn before it is defined" (for a function that does
    not have the name of a built-in function). *)
Theorem call_before_definition_raises n decl rest built_in_fns st :
  TopFn decl ∈ rest -> fn_name decl ∉ built_in_fns.*1 ->
  exists env' st',
    evaluate (S (S (S n)))
      (TopStmt (ExprStmt (CallExpr (AccessExpr (fn_name decl)) [])) :: rest)
      built_in_fns st
    = Some (Raise (Exc (RuntimeError cannot_call_fn_before_it_is_defined)),
            env', st').
Proof.
  intros Hin Hfresh. unfold evaluate.
  destruct (push_built_in_fns_declarable built_in_fns _ st (declarable_init st))
    as [Hinv0 Hhas0].
  destruct (push_built_in_fns built_in_fns (RuntimeEnv_init [] [] []) st)
    as [env0 st0].
  simpl in Hinv0, Hhas0. cbn [declare_prototypes].
  destruct (prototypes_are_declared rest env0 st0 Hinv0)
    as (env1 & st1 & -> & _ & _ & _ & _ & Hproto).
  specialize (Hproto decl Hin). rewrite (Hhas0 _ Hfresh) in Hproto.
  specialize (Hproto eq_refl).
  exists env1, st1. cbn [sbind visit_top_level_nodes _visit_stmt _evaluate_expr
    evaluate_exprs ebind in_env].
  rewrite Hproto. reflexivity.
Qed.

Lemma allocated_forallb env (st : State) :
  forallb (fun var => (cell var <? next_cell st)%nat) (_stack env) = true ->
  allocated env st.
Proof.
  intros Hall var Hin. rewrite forallb_forall in Hall.
  apply Nat.ltb_lt, Hall. now apply list_elem_of_In.
Qed.

End WithHost.

Lemma counting_allocated : allocated counting.1 counting.2.
Proof. apply allocated_forallb. vm_compute. reflexivity. Qed.

Lemma declare_binds_witness :
  exists env' st',
    declare "x" (VInt 1) counting.1 counting.2 = (Ok tt, env', st')
    /\ lookup "x" env' st' = Ok (VInt 1)
    /\ (forall other, other <> "x" ->
        lookup other env' st' = lookup other counting.1 counting.2)
    /\ allocated env' st'.
Proof.
  destruct (declare "x" (VInt 1) counting.1 counting.2)
    as [[[[]|x] env'] st'] eqn:Hdecl.
  - exists env', st'. split; [reflexivity|].
    exact (declare_binds "x" (VInt 1) counting.1 counting.2 env' st'
             counting_allocated Hdecl).
  - vm_compute in Hdecl. discriminate Hdecl.
Defined.

Lemma redeclare_in_same_scope_raises_witness :
  exists env' st',
    declare "x" (VInt 1) counting.1 counting.2 = (Ok tt, env', st')
    /\ declare "x" (VInt 2) env' st'
       = (Raise (Exc (RuntimeError
                        (cannot_redeclare_variable_in_same_scope "x"))),
          env', st').
Proof.
  destruct (declare "x" (VInt 1) counting.1 counting.2)
    as [[[[]|x] env'] st'] eqn:Hdecl.
  - exists env', st'. split; [reflexivity|].
    exact (redeclare_in_same_scope_raises "x" (VInt 1) (VInt 2) counting.1
             counting.2 env' st' Hdecl).
  - vm_compute in Hdecl. discriminate Hdecl.
Defined.

(** [let n = 5;] in an inner scope, over the [n] of the examples. *)
Lemma inner_scope_shadows_witness :
  exists env1 st1,
    declare "n" (VInt 5) (enter counting.1) counting.2 = (Ok tt, env1, st1)
    /\ lookup "n" env1 st1 = Ok (VInt 5)
    /\ leave env1 = (Ok tt, counting.1)
    /\ forall x, lookup x counting.1 st1 = lookup x counting.1 counting.2.
Proof.
  exact (inner_scope_shadows "n" (VInt 5) counting.1 counting.2
           counting_allocated).
Defined.

Lemma counting_declarable : declarable counting.1 counting.2.
Proof.
  unfold counting.
  pose proof (push_built_in_fns_declarable SmallHost.BUILT_IN_FNS
                (RuntimeEnv_init [] [] []) SmallHost.empty_state
                (declarable_init _)) as [Hd _].
  destruct (push_built_in_fns SmallHost.BUILT_IN_FNS (RuntimeEnv_init [] [] [])
              SmallHost.empty_state) as [env st].
  apply push_declarable. exact Hd.
Qed.

Lemma prototypes_are_declared_witness :
  exists env' st',
    declare_prototypes early_call counting.1 counting.2 = (Ok tt, env', st')
    /\ declarable env' st'
    /\ (forall x, has x counting.1 = true -> has x env' = true)
    /\ (forall x, has x counting.1 = true ->
        lookup x env' st' = lookup x counting.1 counting.2)
    /\ (forall decl, TopFn decl ∈ early_call ->
        has (fn_name decl) env' = true)
    /\ (forall decl, TopFn decl ∈ early_call ->
        has (fn_name decl) counting.1 = false ->
        lookup (fn_name decl) env' st' = Ok fn_prototype).
Proof.
  exact (prototypes_are_declared early_call counting.1 counting.2
           counting_declarable).
Defined.

Lemma call_before_definition_raises_witness :
  exists env' st',
    evaluate 3 early_call SmallHost.BUILT_IN_FNS SmallHost.empty_state
    = Some (Raise (Exc (RuntimeError cannot_call_fn_before_it_is_defined)),
            env', st').
Proof.
  apply (call_before_definition_raises 0 seven [TopFn seven]
           SmallHost.BUILT_IN_FNS SmallHost.empty_state).
  - apply list_elem_of_singleton. reflexivity.
  - apply (bool_decide_unpack _). vm_compute. exact I.
Defined.

End BindingFacts.

(** ** The evaluator: loops, calls and branches *)

Module EvalFacts.
Import Nodes Runtime Interpreter Parser Scopes Lowering Bindings Examples.
Import EnvFacts VarFacts ClosureFacts FuelFacts LoweringFacts.

Section WithHost.
Context `{Host}.

(** X9: a while loop or a for-each loop never ends in a break or continue
    transfer: the loop takes those of its body, and the condition and the
    iterable are expressions. *)
Theorem loops_absorb_break_and_continue n stmt env st r env' st' :
  is_loop stmt = true ->
  _visit_stmt n stmt env st = Some (r, env', st') ->
  r <> Raise Break /\ r <> Raise Continue.
Proof.
  intros Hloop Hrun. destruct n as [|n]; [discriminate|].
  destruct stmt; try discriminate Hloop; cbn [_visit_stmt] in Hrun.
  - apply (proj1 (loops_no_continue n)) in Hrun. tauto.
  - apply sbind_Some in Hrun as [(x & Hev & ->)|(it & env1 & st1 & Hev & Hrun)];
      apply in_env_Some in Hev as [Hev _].
    { apply evaluate_expr_raises in Hev as [e ->]. split; discriminate. }
    apply sbind_Some in Hrun as [(x & Hit & ->)|(it' & env2 & st2 & Hit & Hrun)].
    + apply in_env_Some in Hit as [Hit _].
      apply from_host_raises_exc in Hit as [e ->]. split; discriminate.
    + apply (proj2 (loops_no_continue n)) in Hrun. tauto.
Qed.

(** X10: the evaluation of an expression never ends in a break, continue
    or return transfer: a transfer that leaves the body of a called
    function is turned into a runtime error by the call. *)
Theorem expressions_raise_only_exceptions n expr env st x st' :
  _evaluate_expr n expr env st = Some (Raise x, st') ->
  exists e, x = Exc e.
Proof. apply evaluate_raises_exc. Qed.

(** X11: the call of a closure.  With the wrong number of arguments it
    raises a runtime error and the body is not run; when the parameters are
    declared and the body ends, the call returns null after a body that
    ran to its end, the returned value after a return, and raises a runtime
    error after any other outcome (a break or continue transfer too); when
    a parameter cannot be declared (two parameters of one name), it raises
    a runtime error. *)
Theorem closure_call_outcome n decl captured_env args st :
  (length (param_names decl) <> length args ->
   call_fn (compiled (S n)) (VFn decl captured_env) args st
   = Some (Raise (Exc (RuntimeError error_calling)), st))
  /\ (length (param_names decl) = length args ->
      forall call_env st1,
        declare_params (zip (param_names decl) args)
          (enter (copy captured_env)) st = (Ok tt, call_env, st1) ->
        forall r env2 st2,
          _visit_block_stmt n (body_block decl) call_env st1
          = Some (r, env2, st2) ->
          call_fn (compiled (S n)) (VFn decl captured_env) args st
          = Some (call_result r, st2))
  /\ (length (param_names decl) = length args ->
      forall x call_env st1,
        declare_params (zip (param_names decl) args)
          (enter (copy captured_env)) st = (Raise x, call_env, st1) ->
        call_fn (compiled (S n)) (VFn decl captured_env) args st
        = Some (Raise (Exc (RuntimeError error_calling)), st1)).
Proof.
  unfold call_fn. cbn [callable compiled].
  split; [|split].
  - intros Hlen. apply Nat.eqb_neq in Hlen. rewrite Hlen. reflexivity.
  - intros Hlen call_env st1 Hparams r env2 st2 Hbody.
    apply Nat.eqb_eq in Hlen. rewrite Hlen. cbn [negb].
    assert (Hcall : call_body (_visit_block_stmt n) decl args
                      (enter (copy captured_env)) st
                    = catch_return (Some (r, env2, st2))).
    { unfold call_body. rewrite Hparams. cbn [sbind]. now rewrite Hbody. }
    assert (Hframe : frame (enter (copy captured_env)) env2).
    { eapply frame_trans; [eapply frame_declare_params, Hparams|].
      eapply visit_block_keeps_frame, Hbody. }
    unfold enter_scope. rewrite Hcall.
    destruct r as [[]|[]]; cbn [catch_return call_result];
      rewrite (leave_frame _ _ Hframe); reflexivity.
  - intros Hlen x call_env st1 Hparams.
    apply Nat.eqb_eq in Hlen. rewrite Hlen. cbn [negb].
    unfold enter_scope, call_body. rewrite Hparams. cbn [sbind].
    assert (Hframe : frame (enter (copy captured_env)) call_env)
      by (eapply frame_declare_params, Hparams).
    rewrite (leave_frame _ _ Hframe). reflexivity.
Qed.

(** X12: an if statement whose else branch is not a block (for an
    [else if] the parser puts the inner if statement there) raises
    AttributeError as soon as its condition is falsy, and the else branch
    is not run. *)
Theorem else_branch_that_is_no_block_raises
    n cond if_branch else_branch env st v st1 :
  _evaluate_expr n cond env st = Some (Ok v, st1) ->
  truthy v (host st1) = false ->
  is_block else_branch = false ->
  _visit_stmt (S (S n)) (IfStmt cond if_branch (Some else_branch)) env st
  = Some (Raise AttributeError, env, st1).
Proof.
  intros Hcond Hfalse Hnb. cbn [_visit_stmt].
  rewrite (evaluate_expr_mono n (S n) _ _ _ _ ltac:(lia) Hcond).
  cbn [in_env sbind]. unfold enter_scope, if_branches. rewrite Hfalse.
  rewrite (visit_not_block _ _ _ _ Hnb).
  rewrite (leave_frame env (enter env)); [reflexivity|apply frame_refl].
Qed.

(** X13: [_visit_fn_definition], for a name that is bound: the name now
    holds the closure, in the environment and in the environment that the
    closure has captured, so the function can call itself. *)
Theorem function_definition_binds_closure decl env st :
  has (fn_name decl) env = true ->
  exists st',
    _visit_fn_definition decl env st = (Ok tt, st')
    /\ lookup (fn_name decl) env st' = Ok (VFn decl (copy env))
    /\ lookup (fn_name decl) (copy env) st' = Ok (VFn decl (copy env))
    /\ next_cell st' = next_cell st /\ host st' = host st.
Proof.
  intros Hhas. unfold _visit_fn_definition, _compile_fn, assign, lookup.
  apply has_cells_of in Hhas.
  destruct (cells_of (fn_name decl) (_stack env)) as [|c cs] eqn:Hcs;
    [congruence|].
  eexists. split; [reflexivity|].
  destruct (foldl_set_cell (VFn decl (copy env)) (c :: cs) st)
    as (Hn & Hh & Hc).
  assert (Hstack : _stack (copy env) = _stack env) by reflexivity.
  rewrite Hstack, Hcs. rewrite Hc, bool_decide_eq_true_2 by left. auto.
Qed.

End WithHost.

Lemma loops_absorb_break_and_continue_witness :
  exists r env' st',
    _visit_stmt 5 (WhileLoopStmt (BoolLitExpr true) (BlockStmt [BreakStmt]))
      counting.1 counting.2 = Some (r, env', st')
    /\ r <> Raise Break /\ r <> Raise Continue.
Proof.
  destruct (_visit_stmt 5
              (WhileLoopStmt (BoolLitExpr true) (BlockStmt [BreakStmt]))
              counting.1 counting.2) as [[[r env'] st']|] eqn:Hrun.
  - exists r, env', st'. split; [reflexivity|].
    exact (loops_absorb_break_and_continue 5
             (WhileLoopStmt (BoolLitExpr true) (BlockStmt [BreakStmt]))
             counting.1 counting.2 r env' st' eq_refl Hrun).
  - vm_compute in Hrun. discriminate Hrun.
Defined.

(** The call [stop()] of a function whose body is a break statement. *)
Lemma expressions_raise_only_exceptions_witness :
  let env := (push (AStr "stop") (VFn stop counting.1) counting.1 counting.2).1 in
  let st := (push (AStr "stop") (VFn stop counting.1) counting.1 counting.2).2 in
  _evaluate_expr 6 (CallExpr (AccessExpr "stop") []) env st
  = Some (Raise (Exc (RuntimeError error_calling)), st)
  /\ exists e, Exc (RuntimeError error_calling) = Exc e.
Proof.
  intros env st.
  assert (Hrun : _evaluate_expr 6 (CallExpr (AccessExpr "stop") []) env st
                 = Some (Raise (Exc (RuntimeError error_calling)), st))
    by (vm_compute; reflexivity).
  split; [exact Hrun|].
  exact (expressions_raise_only_exceptions 6 _ env st _ st Hrun).
Defined.

(** The call [seven()] returns 7. *)
Lemma closure_call_outcome_witness :
  call_fn (compiled 5) (VFn seven counting.1) [] counting.2
  = Some (Ok (VInt 7), counting.2).
Proof.
  apply (proj1 (proj2 (closure_call_outcome 4 seven counting.1 [] counting.2))
           eq_refl (enter (copy counting.1)) counting.2 eq_refl
           (Raise (Return (VInt 7))) (enter (copy counting.1)) counting.2).
  vm_compute. reflexivity.
Defined.

Lemma else_branch_that_is_no_block_raises_witness :
  _visit_stmt 3 else_if counting.1 counting.2
  = Some (Raise AttributeError, counting.1, counting.2).
Proof.
  apply (else_branch_that_is_no_block_raises 1 (BoolLitExpr false)
           (BlockStmt []) (IfStmt (BoolLitExpr true) (BlockStmt []) None)
           counting.1 counting.2 (VBool false) counting.2);
    reflexivity.
Defined.

Lemma function_definition_binds_closure_witness :
  let env := (push (AStr "seven") fn_prototype counting.1 counting.2).1 in
  let st := (push (AStr "seven") fn_prototype counting.1 counting.2).2 in
  exists st',
    _visit_fn_definition seven env st = (Ok tt, st')
    /\ lookup (fn_name seven) env st' = Ok (VFn seven (copy env))
    /\ lookup (fn_name seven) (copy env) st' = Ok (VFn seven (copy env))
    /\ next_cell st' = next_cell st /\ host st' = host st.
Proof.
  intros env st. apply (function_definition_binds_closure seven env st).
  vm_compute. reflexivity.
Defined.

End EvalFacts.

(** ** The lowering of a for loop without a post expression *)

Module LoweringWithoutPost.
Import Nodes Runtime Interpreter Parser Scopes Lowering Examples.
Import EnvFacts VarFacts ClosureFacts FuelFacts LoweringFacts.

Section WithHost.
Context `{Host}.

Lemma loop_step_ext (m : exec_result unit) next next' :
  (forall env st, next env st = next' env st) ->
  loop_step m next = loop_step m next'.
Proof.
  intros Hnext. unfold loop_step.
  destruct m as [[[[[]|[]] env] st]|]; auto.
Qed.

Lemma sbind_ext {A B} (m : exec_result A)
    (k k' : A -> RuntimeEnv -> State -> exec_result B) :
  (forall a env st, k a env st = k' a env st) -> sbind m k = sbind m k'.
Proof. intros Hk. unfold sbind. destruct m as [[[[a|x] env] st]|]; auto. Qed.

(** Without a post expression the iterations of the reference loop are
    those of the while loop. *)
Lemma for_iterations_without_post n : forall cond body env st,
  Reference.for_iterations n cond None body env st
  = _visit_while_loop_stmt n cond (BlockStmt body) env st.
Proof.
  induction n as [|n IH]; intros cond body env st; [reflexivity|].
  cbn [Reference.for_iterations _visit_while_loop_stmt].
  apply sbind_ext. intros c env1 st1. destruct (truthy c (host st1)); [|reflexivity].
  apply loop_step_ext. intros env2 st2. apply IH.
Qed.

Section ForLoop.
Variables (init : option StmtNode) (cond : ExprNode) (body : list StmtNode).

Local Abbreviation lowered_block :=
  (BlockStmt (match init with Some i => [i] | None => [] end
              ++ [WhileLoopStmt cond (BlockStmt body)])).

Local Abbreviation reference_body :=
  (fun m env st =>
     sbind (match init with
            | Some init => _visit_stmt m init env st
            | None => Some (Ok tt, env, st)
            end) (fun _ env st =>
     Reference.for_iterations m cond None body env st)).

Lemma reference_body_keeps_frame m : keeps_frame (reference_body m).
Proof.
  intros env st r env' st' Hrun.
  assert (Hinit : forall r1 env1 st1,
             match init with
             | Some init => _visit_stmt m init env st
             | None => Some (Ok tt, env, st)
             end = Some (r1, env1, st1) -> frame env env1).
  { intros r1 env1 st1. destruct init as [i|].
    - apply visit_stmt_keeps_frame.
    - intros [= <- <- <-]. apply frame_refl. }
  apply sbind_Some in Hrun as [(x & Hev & ->)|(u & env1 & st1 & Hev & Hrun)].
  - eapply Hinit, Hev.
  - apply for_iterations_env in Hrun as ->. eapply Hinit, Hev.
Qed.

Lemma without_post_forward n env st R :
  Reference.for_loop n init cond None body env st = Some R ->
  eventually
    (fun m => _visit_stmt m (_parse_for_loop_stmt init cond None body) env st) R.
Proof.
  unfold Reference.for_loop. destruct R as [[r env'] st']. intros Hrun.
  apply enter_scope_Some in Hrun as [-> [env1 Hrun]];
    [|apply reference_body_keeps_frame].
  apply eventually_step
    with (g := fun m => enter_scope (_visit_block_stmt m lowered_block) env st);
    [reflexivity|].
  apply (eventually_scope (fun m => _visit_block_stmt m lowered_block))
    with (env1 := env1); [intros m; apply visit_block_keeps_frame|].
  destruct init as [i|]; cbn [app].
  - apply eventually_step
      with (g := fun m =>
              sbind (_visit_stmt m i (enter env) st)
                (fun _ env st =>
                   _visit_block_stmt m
                     (BlockStmt [WhileLoopStmt cond (BlockStmt body)]) env st));
      [reflexivity|].
    apply sbind_Some in Hrun as [(x & Hev & ->)|([] & env2 & st2 & Hev & Hrun)].
    + apply eventually_sbind_raise. eapply visit_stmt_eventually, Hev.
    + eapply eventually_sbind; [eapply visit_stmt_eventually, Hev|].
      rewrite for_iterations_without_post in Hrun.
      eapply while_block_eventually, visit_while_eventually, Hrun.
  - cbn [sbind] in Hrun. rewrite for_iterations_without_post in Hrun.
    eapply while_block_eventually, visit_while_eventually, Hrun.
Qed.

Lemma without_post_backward n env st R :
  _visit_stmt n (_parse_for_loop_stmt init cond None body) env st = Some R ->
  eventually (fun m => Reference.for_loop m init cond None body env st) R.
Proof.
  destruct n as [|n]; [discriminate|].
  change (_visit_stmt (S n) (_parse_for_loop_stmt init cond None body) env st)
    with (enter_scope (_visit_block_stmt n lowered_block) env st).
  destruct R as [[r env'] st']. intros Hrun.
  apply enter_scope_Some in Hrun as [-> [env1 Hrun]];
    [|apply visit_block_keeps_frame].
  apply (eventually_scope reference_body) with (env1 := env1);
    [intros m; apply reference_body_keeps_frame|].
  assert (Hloop : forall k env0 st0 R0,
             _visit_while_loop_stmt k cond (BlockStmt body) env0 st0 = Some R0 ->
             eventually
               (fun m => Reference.for_iterations m cond None body env0 st0) R0).
  { intros k env0 st0 R0 Hk.
    apply eventually_ext
      with (g := fun m => _visit_while_loop_stmt m cond (BlockStmt body) env0 st0);
      [intros m; apply for_iterations_without_post|].
    eapply visit_while_eventually, Hk. }
  destruct init as [i|]; cbn [app] in Hrun.
  - destruct n as [|n]; [discriminate|]. cbn [_visit_block_stmt] in Hrun.
    apply sbind_Some in Hrun as [(x & Hev & ->)|([] & env2 & st2 & Hev & Hrun)].
    + apply eventually_sbind_raise. eapply visit_stmt_eventually, Hev.
    + eapply eventually_sbind; [eapply visit_stmt_eventually, Hev|].
      apply while_block_runs in Hrun as [k Hrun]. eapply Hloop, Hrun.
  - apply while_block_runs in Hrun as [k Hrun].
    apply eventually_ext
      with (g := fun m =>
                   Reference.for_iterations m cond None body (enter env) st);
      [reflexivity|].
    eapply Hloop, Hrun.
Qed.

End ForLoop.

End WithHost.

(** X16: the lowering of a C-style for loop that has no post expression
    is faithful for every body: it runs to an outcome exactly when the
    reference loop does. *)
Theorem for_loop_without_post_lowering `{Host} (init : option StmtNode)
    (cond : ExprNode) (body : list StmtNode) (env : RuntimeEnv) (st : State)
    (R : result unit * RuntimeEnv * State) :
  runs (fun n =>
          _visit_stmt n (_parse_for_loop_stmt init cond None body) env st) R
  <-> runs (fun n => Reference.for_loop n init cond None body env st) R.
Proof.
  split; intros [n Hrun].
  - eapply eventually_runs, without_post_backward, Hrun.
  - eapply eventually_runs, without_post_forward, Hrun.
Qed.

End LoweringWithoutPost.

(** ** The logical operators with two arguments or more *)

Module LogicalFacts.
Import Runtime Builtins BuiltinsFacts.

Section Logical.
Variable bool_of : val -> bool.

Lemma find_or_last (p : val -> bool) (l : list val) d :
  let v := default (List.last l d) (List.find p l) in
  (p v = true /\ exists pre post,
      l = pre ++ v :: post /\ forallb (fun a => negb (p a)) pre = true)
  \/ (forallb (fun a => negb (p a)) l = true /\ v = List.last l d).
Proof.
  induction l as [|a l IH]; [right; auto|].
  cbn [List.find]. destruct (p a) eqn:Hpa.
  - left. simpl. split; [exact Hpa|]. exists [], l. auto.
  - destruct IH as [(Hp & pre & post & Hl & Hpre)|[Hall Hv]].
    + left. destruct (List.find p l) as [v|] eqn:Hfind.
      * simpl in *. split; [exact Hp|]. exists (a :: pre), post.
        rewrite Hl at 1. split; [reflexivity|]. simpl. now rewrite Hpa.
      * simpl in Hp, Hl |- *. destruct l as [|b l]; [now destruct pre|].
        change (List.last (a :: b :: l) d) with (List.last (b :: l) d).
        split; [exact Hp|]. exists (a :: pre), post.
        rewrite Hl at 1. split; [reflexivity|]. simpl. now rewrite Hpa.
    + destruct (List.find p l) as [v|] eqn:Hfind.
      * apply List.find_some in Hfind as [Hin Hpv].
        rewrite forallb_forall in Hall. apply Hall in Hin.
        rewrite Hpv in Hin. discriminate.
      * right. simpl. rewrite Hpa, Hall. split; [reflexivity|].
        destruct l; reflexivity.
Qed.

Lemma last_In (l : list val) a : List.In (List.last (a :: l) a) (a :: l).
Proof.
  revert a. induction l as [|b l IH]; intros a; [now left|].
  change (List.last (a :: b :: l) a) with (List.last (b :: l) a).
  right. destruct l as [|c l]; [now left|].
  assert (Heq : forall d d', List.last (b :: c :: l) d = List.last (b :: c :: l) d').
  { intros d d'. clear. revert b c. induction l as [|e l IH]; intros b c; [reflexivity|].
    change (List.last (b :: c :: e :: l) d) with (List.last (c :: e :: l) d).
    change (List.last (b :: c :: e :: l) d') with (List.last (c :: e :: l) d').
    apply IH. }
  rewrite (Heq a b). apply IH.
Qed.

(** X17: with two arguments or more, [or] returns its first truthy
    argument, or the last argument when none is truthy, and [and] returns
    its first falsy argument, or the last argument when none is falsy; so
    the truth value of the result is the disjunction, and the conjunction,
    of the truth values of the arguments. *)
Theorem logical_or_and_with_two_or_more_arguments arg0 arg1 args :
  let all := arg0 :: arg1 :: args in
  exists v w,
    _logical_or bool_of arg0 (arg1 :: args) = HOk v
    /\ _logical_and bool_of arg0 (arg1 :: args) = HOk w
    /\ ((bool_of v = true
         /\ exists pre post,
             all = pre ++ v :: post
             /\ forallb (fun a => negb (bool_of a)) pre = true)
        \/ (forallb (fun a => negb (bool_of a)) all = true
            /\ v = List.last all arg0))
    /\ ((bool_of w = false
         /\ exists pre post,
             all = pre ++ w :: post /\ forallb bool_of pre = true)
        \/ (forallb bool_of all = true /\ w = List.last all arg0))
    /\ bool_of v = existsb bool_of all
    /\ bool_of w = forallb bool_of all.
Proof.
  intros all. rewrite logical_or_two_or_more, logical_and_two_or_more.
  fold all. eexists _, _. split; [reflexivity|]. split; [reflexivity|].
  pose proof (find_or_last bool_of all arg0) as Hor.
  pose proof (find_or_last (fun a => negb (bool_of a)) all arg0) as Hand.
  cbv zeta in Hor, Hand.
  set (v := default (List.last all arg0) (List.find bool_of all)) in *.
  set (w := default (List.last all arg0)
              (List.find (fun a => negb (bool_of a)) all)) in *.
  assert (Hnn : forall l, forallb (fun a => negb (negb (bool_of a))) l
                          = forallb bool_of l).
  { intros l. induction l as [|a l IHl]; [reflexivity|].
    simpl. now rewrite negb_involutive, IHl. }
  assert (Hand' : (bool_of w = false
                   /\ exists pre post,
                       all = pre ++ w :: post /\ forallb bool_of pre = true)
                  \/ (forallb bool_of all = true /\ w = List.last all arg0)).
  { destruct Hand as [(Hw & pre & post & Hl & Hpre)|[Hall Hw]].
    - left. apply negb_true_iff in Hw. rewrite Hnn in Hpre. eauto.
    - right. now rewrite Hnn in Hall. }
  split; [exact Hor|]. split; [exact Hand'|]. split.
  - destruct Hor as [(Hv & pre & post & Hl & _)|[Hall Hv]].
    + rewrite Hv. symmetry. apply existsb_exists. exists v. split; [|exact Hv].
      rewrite Hl. apply in_or_app. right. now left.
    + assert (Hin : List.In v all) by (rewrite Hv; apply last_In).
      rewrite forallb_forall in Hall. pose proof (Hall _ Hin) as Hnv.
      apply negb_true_iff in Hnv. rewrite Hnv. symmetry.
      apply not_true_is_false. intros [a [Ha Hpa]]%existsb_exists.
      apply Hall in Ha. rewrite Hpa in Ha. discriminate.
  - destruct Hand' as [(Hw & pre & post & Hl & _)|[Hall Hw]].
    + rewrite Hw. symmetry. apply not_true_is_false. intros Hall.
      rewrite forallb_forall in Hall.
      assert (Hin : List.In w all)
        by (rewrite Hl; apply in_or_app; right; now left).
      apply Hall in Hin. congruence.
    + rewrite Hall. rewrite forallb_forall in Hall. apply Hall.
      rewrite Hw. apply last_In.
Qed.

End Logical.

End LogicalFacts.
